(** * shade-conductor: state mirror, broadcast hub, OSC bridge, audio
      bindings and setlist scheduler

    A shallow embedding of the TypeScript sources

      - [server.ts]              state mirror, broadcast, join-time sync
      - [osc/osc-bridge.ts]      OSC listener
      - [tools/audio-tools.ts]   audio binding registry and, in its second
                                 half, the setlist tools and their
                                 playback engine
      - [tools/input-tools.ts]   callers of the input helpers
      - [store/preset-store.ts]  file store, as a finite map of files

    Module-level [let]/[const] variables of the sources become fields of
    one [World] record threaded through a state-and-exception monad.
    JavaScript numbers are rationals ([Q]); [NaN], infinities and rounding
    are outside the model.  Channel and chapter indices are integers.
    Every tool handler runs to completion without interleaving (the [await]
    points of the file store are not modelled as scheduling points). *)

From Stdlib Require Import QArith Ascii.
From stdpp Require Import base list strings pretty gmap.

Open Scope Z_scope.

(** ** JavaScript numbers *)

Abbreviation number := Q (only parsing).

(** [a !== 0] *)
Definition nonzero (a : number) : bool := negb (Qeq_bool a 0).
(** [a <= b], [a < b], [a > b], [a >= b] *)
Definition num_le (a b : number) : bool := Qle_bool a b.
Definition num_lt (a b : number) : bool := negb (Qle_bool b a).
Definition num_gt (a b : number) : bool := num_lt b a.
Definition num_ge (a b : number) : bool := num_le b a.
(** [Math.max(a, b)] *)
Definition Math_max (a b : number) : number := if num_le a b then b else a.
(** [args[i] ?? d] *)
Definition arg_or (args : list number) (i : nat) (d : number) : number :=
  default d (args !! i).
(** truthiness of a [string | null] *)
Definition truthy_str (s : option string) : bool :=
  match s with
  | Some s => negb (String.eqb s EmptyString)
  | None => false
  end.
(** truthiness of a [number | null] *)
Definition truthy_num (n : option number) : bool :=
  match n with
  | Some n => nonzero n
  | None => false
  end.

(** ** types.ts *)

Record PaletteConfig := {
  color1 : number * number * number;
  color2 : number * number * number;
  color3 : number * number * number;
  bg : number * number * number;
}.

Record AudioBinding := {
  source : string;
  target : string;
  multiplier : number;
  offset : number;
  smoothing : number;
}.

Inductive Easing := linear | ease_in | ease_out | ease_in_out.

Record Keyframe := {
  kf_time : number;
  kf_value : number;
  easing : Easing;
}.

Record Automation := {
  au_target : string;
  keyframes : list Keyframe;
}.

Inductive Transition := cut | crossfade | flash.

Record SetlistChapter := {
  ch_name : string;
  shader : string;
  start_time : number;
  end_time : number;
  transition_in : Transition;
  transition_duration : number;
  params : option (list (string * number));
  palette : option PaletteConfig;
  audio_bindings : option (list AudioBinding);
  automations : option (list Automation);
}.

Record Setlist := {
  sl_name : string;
  track_name : option string;
  track_duration : option number;
  chapters : list SetlistChapter;
}.

(** The fields of a preset that the modelled code reads. *)
Record ShaderPreset := {
  id : string;
  ps_name : string;
  code : string;
}.

(** Messages of the wire protocol that the modelled code sends. *)
Inductive WSMessageToClient :=
  | shader_push (code id : string)
  | shader_crossfade (code id : string) (duration : number)
  | param_set (name : string) (value : number)
  | palette_set (colors : PaletteConfig)
  | get_state
  | chapter_info (name : string) (index total : nat)
  | ext_set (channel : Z) (value : number)
  | ext_xy_set (channel : Z) (x y : number)
  | bpm_set (bpm : number)
  | automation (automations : list Automation)
  | audio_bind (binding : AudioBinding)
  | audio_unbind (target : string)
  | perform_flash (duration : number).

(** The part of the browser's status report that the server inspects. *)
Record RuntimeState := {
  currentShader : string;
  fps : number;
}.

(** ** server.ts: state *)

Record SetlistPlayback := {
  active : bool;
  setlistName : option string;
  chapterIndex : nat;
  totalChapters : nat;
  startedAt : option number;
}.

(** A connected socket: [ws_open] is [readyState === WebSocket.OPEN],
    [ws_sent] the payloads handed to [ws.send], oldest first. *)
Record WebSocket := {
  ws_id : nat;
  ws_open : bool;
  ws_sent : list WSMessageToClient;
}.

Record Server := {
  extChannels : list number;
  extXY : list (number * number);
  bpm : number;
  audioBindings : list AudioBinding;
  currentShaderId : option string;
  currentShaderCode : option string;
  currentPalette : PaletteConfig;
  lastRuntimeState : option RuntimeState;
  setlistPlayback : SetlistPlayback;
  clients : list WebSocket;
}.

Definition black : number * number * number := (0%Q, 0%Q, 0%Q).

Definition initial_server : Server := {|
  extChannels := replicate 16 0%Q;
  extXY := replicate 4 (0%Q, 0%Q);
  bpm := 120%Q;
  audioBindings := [];
  currentShaderId := None;
  currentShaderCode := None;
  currentPalette := {| color1 := black; color2 := black; color3 := black; bg := black |};
  lastRuntimeState := None;
  setlistPlayback := {| active := false; setlistName := None; chapterIndex := 0;
                        totalChapters := 0; startedAt := None |};
  clients := [];
|}.

(** ** Setlist tools: playback engine state *)

Record Scheduler := {
  activeSetlist : option Setlist;
  playbackTimer : option nat;
  playbackStartedAt : option number;
  currentChapterIndex : nat;
  isPaused : bool;
  pauseOffset : number;
}.

Definition initial_scheduler : Scheduler := {|
  activeSetlist := None;
  playbackTimer := None;
  playbackStartedAt := None;
  currentChapterIndex := 0;
  isPaused := false;
  pauseOffset := 0%Q;
|}.

(** ** The timers of the event loop *)

(** What a pending [setTimeout] callback does when it fires: the
    chapter-advance callback of [scheduleNextChapter], which captured
    [nextIndex], or the delayed shader push of a flash transition, which
    captured the preset. *)
Inductive TimerBody :=
  | advance_chapter (nextIndex : nat)
  | delayed_push (code id : string).

Record Timer := {
  tm_id : nat;
  tm_due : number;
  tm_body : TimerBody;
}.

(** [clock] is the wall clock in milliseconds, what [Date.now()] reads;
    [pending] the armed timers in the order they were armed. *)
Record EventLoop := {
  clock : number;
  pending : list Timer;
  nextTimerId : nat;
}.

Definition initial_loop : EventLoop :=
  {| clock := 0%Q; pending := []; nextTimerId := 1 |}.

(** ** osc-bridge.ts: state *)

Record CustomMapping := {
  cm_address : string;
  cm_target : string;
}.

Record OscMessage := {
  address : string;
  args : list number;
}.

(** ** The whole process *)

Record World := {
  srv : Server;
  sched : Scheduler;
  loop : EventLoop;
  activeBindings : list AudioBinding;
  customMappings : list CustomMapping;
  presetsDir : gmap string ShaderPreset;
  setlistsDir : gmap string Setlist;
}.

Definition initial_world : World := {|
  srv := initial_server;
  sched := initial_scheduler;
  loop := initial_loop;
  activeBindings := [];
  customMappings := [];
  presetsDir := ∅;
  setlistsDir := ∅;
|}.

Definition with_srv (f : Server → Server) (w : World) : World :=
  {| srv := f (srv w); sched := sched w; loop := loop w;
     activeBindings := activeBindings w; customMappings := customMappings w;
     presetsDir := presetsDir w; setlistsDir := setlistsDir w |}.

Definition with_sched (f : Scheduler → Scheduler) (w : World) : World :=
  {| srv := srv w; sched := f (sched w); loop := loop w;
     activeBindings := activeBindings w; customMappings := customMappings w;
     presetsDir := presetsDir w; setlistsDir := setlistsDir w |}.

Definition with_loop (f : EventLoop → EventLoop) (w : World) : World :=
  {| srv := srv w; sched := sched w; loop := f (loop w);
     activeBindings := activeBindings w; customMappings := customMappings w;
     presetsDir := presetsDir w; setlistsDir := setlistsDir w |}.

Definition with_activeBindings (f : list AudioBinding → list AudioBinding) (w : World) : World :=
  {| srv := srv w; sched := sched w; loop := loop w;
     activeBindings := f (activeBindings w); customMappings := customMappings w;
     presetsDir := presetsDir w; setlistsDir := setlistsDir w |}.

Definition with_customMappings (f : list CustomMapping → list CustomMapping) (w : World) : World :=
  {| srv := srv w; sched := sched w; loop := loop w;
     activeBindings := activeBindings w; customMappings := f (customMappings w);
     presetsDir := presetsDir w; setlistsDir := setlistsDir w |}.

Definition with_setlistsDir (f : gmap string Setlist → gmap string Setlist) (w : World) : World :=
  {| srv := srv w; sched := sched w; loop := loop w;
     activeBindings := activeBindings w; customMappings := customMappings w;
     presetsDir := presetsDir w; setlistsDir := f (setlistsDir w) |}.

(** ** Statements with effects

    [Eff A] is a computation on the world that either completes with a
    value or throws; the mutations made before a [throw] stay. *)

Inductive JsError :=
  | RangeError (msg : string) (got : number)
  | TypeError (msg : string).

Definition Eff (A : Type) : Type := World → (JsError + A) * World.

Definition ret {A} (a : A) : Eff A := λ w, (inr a, w).
Definition throw {A} (e : JsError) : Eff A := λ w, (inl e, w).
Definition bind {A B} (k : A → Eff B) (m : Eff A) : Eff B :=
  λ w, match m w with
       | (inr a, w') => k a w'
       | (inl e, w') => (inl e, w')
       end.
Definition get : Eff World := λ w, (inr w, w).
Definition modify (f : World → World) : Eff unit := λ w, (inr tt, f w).

#[global] Instance Eff_ret : MRet Eff := @ret.
#[global] Instance Eff_bind : MBind Eff := @bind.

(** [for (const x of xs) body(x)] *)
Fixpoint for_each {A} (xs : list A) (body : A → Eff unit) : Eff unit :=
  match xs with
  | [] => ret tt
  | x :: xs' => body x;; for_each xs' body
  end.

(** The world a computation leaves, and its completion. *)
Definition exec {A} (m : Eff A) (w : World) : World := (m w).2.
Definition outcome {A} (m : Eff A) (w : World) : JsError + A := (m w).1.

(** ** server.ts: broadcast *)

Definition set_extChannels (v : list number) (s : Server) : Server :=
  {| extChannels := v; extXY := extXY s; bpm := bpm s;
     audioBindings := audioBindings s; currentShaderId := currentShaderId s;
     currentShaderCode := currentShaderCode s; currentPalette := currentPalette s;
     lastRuntimeState := lastRuntimeState s; setlistPlayback := setlistPlayback s;
     clients := clients s |}.

Definition set_extXY (v : list (number * number)) (s : Server) : Server :=
  {| extChannels := extChannels s; extXY := v; bpm := bpm s;
     audioBindings := audioBindings s; currentShaderId := currentShaderId s;
     currentShaderCode := currentShaderCode s; currentPalette := currentPalette s;
     lastRuntimeState := lastRuntimeState s; setlistPlayback := setlistPlayback s;
     clients := clients s |}.

Definition set_bpm (v : number) (s : Server) : Server :=
  {| extChannels := extChannels s; extXY := extXY s; bpm := v;
     audioBindings := audioBindings s; currentShaderId := currentShaderId s;
     currentShaderCode := currentShaderCode s; currentPalette := currentPalette s;
     lastRuntimeState := lastRuntimeState s; setlistPlayback := setlistPlayback s;
     clients := clients s |}.

Definition set_audioBindings (v : list AudioBinding) (s : Server) : Server :=
  {| extChannels := extChannels s; extXY := extXY s; bpm := bpm s;
     audioBindings := v; currentShaderId := currentShaderId s;
     currentShaderCode := currentShaderCode s; currentPalette := currentPalette s;
     lastRuntimeState := lastRuntimeState s; setlistPlayback := setlistPlayback s;
     clients := clients s |}.

Definition set_currentShaderId (v : option string) (s : Server) : Server :=
  {| extChannels := extChannels s; extXY := extXY s; bpm := bpm s;
     audioBindings := audioBindings s; currentShaderId := v;
     currentShaderCode := currentShaderCode s; currentPalette := currentPalette s;
     lastRuntimeState := lastRuntimeState s; setlistPlayback := setlistPlayback s;
     clients := clients s |}.

Definition set_currentShaderCode (v : option string) (s : Server) : Server :=
  {| extChannels := extChannels s; extXY := extXY s; bpm := bpm s;
     audioBindings := audioBindings s; currentShaderId := currentShaderId s;
     currentShaderCode := v; currentPalette := currentPalette s;
     lastRuntimeState := lastRuntimeState s; setlistPlayback := setlistPlayback s;
     clients := clients s |}.

Definition set_currentPalette (v : PaletteConfig) (s : Server) : Server :=
  {| extChannels := extChannels s; extXY := extXY s; bpm := bpm s;
     audioBindings := audioBindings s; currentShaderId := currentShaderId s;
     currentShaderCode := currentShaderCode s; currentPalette := v;
     lastRuntimeState := lastRuntimeState s; setlistPlayback := setlistPlayback s;
     clients := clients s |}.

Definition set_setlistPlayback (v : SetlistPlayback) (s : Server) : Server :=
  {| extChannels := extChannels s; extXY := extXY s; bpm := bpm s;
     audioBindings := audioBindings s; currentShaderId := currentShaderId s;
     currentShaderCode := currentShaderCode s; currentPalette := currentPalette s;
     lastRuntimeState := lastRuntimeState s; setlistPlayback := v;
     clients := clients s |}.

Definition set_clients (v : list WebSocket) (s : Server) : Server :=
  {| extChannels := extChannels s; extXY := extXY s; bpm := bpm s;
     audioBindings := audioBindings s; currentShaderId := currentShaderId s;
     currentShaderCode := currentShaderCode s; currentPalette := currentPalette s;
     lastRuntimeState := lastRuntimeState s; setlistPlayback := setlistPlayback s;
     clients := v |}.

(** [ws.send(payload)] *)
Definition ws_send (payload : WSMessageToClient) (ws : WebSocket) : WebSocket :=
  {| ws_id := ws_id ws; ws_open := ws_open ws; ws_sent := ws_sent ws ++ [payload] |}.

(** The loop of [broadcastToClients] over the client set. *)
Definition deliver (message : WSMessageToClient) (cs : list WebSocket) : list WebSocket :=
  (λ ws, if ws_open ws then ws_send message ws else ws) <$> cs.

Definition broadcastToClients (message : WSMessageToClient) : Eff unit :=
  modify (with_srv (λ s, set_clients (deliver message (clients s)) s)).

(** ** server.ts: external input helpers *)

Definition setExternalInput (channel : Z) (value : number) : Eff unit :=
  if (channel <? 0) || (channel >? 15) then
    throw (RangeError "External input channel must be 0-15, got " (inject_Z channel))
  else
    modify (with_srv (λ s,
      set_extChannels (<[Z.to_nat channel := value]> (extChannels s)) s));;
    broadcastToClients (ext_set channel value).

Definition setExternalXY (channel : Z) (x y : number) : Eff unit :=
  if (channel <? 0) || (channel >? 3) then
    throw (RangeError "External XY channel must be 0-3, got " (inject_Z channel))
  else
    modify (with_srv (λ s,
      set_extXY (<[Z.to_nat channel := (x, y)]> (extXY s)) s));;
    broadcastToClients (ext_xy_set channel x y).

Definition setBpm (value : number) : Eff unit :=
  if num_le value 0 || num_gt value 999 then
    throw (RangeError "BPM must be between 1 and 999, got " value)
  else
    modify (with_srv (set_bpm value));;
    broadcastToClients (bpm_set value).

(** ** server.ts: state accessors *)

Record ServerState := {
  snap_extChannels : list number;
  snap_extXY : list (number * number);
  snap_bpm : number;
  snap_audioBindings : list AudioBinding;
  snap_currentShaderId : option string;
  snap_setlistPlayback : SetlistPlayback;
  connectedClients : nat;
  snap_lastRuntimeState : option RuntimeState;
}.

Definition getServerState (s : Server) : ServerState := {|
  snap_extChannels := extChannels s;
  snap_extXY := extXY s;
  snap_bpm := bpm s;
  snap_audioBindings := audioBindings s;
  snap_currentShaderId := currentShaderId s;
  snap_setlistPlayback := setlistPlayback s;
  connectedClients := length (clients s);
  snap_lastRuntimeState := lastRuntimeState s;
|}.

(** A [Partial<SetlistPlayback>]: [None] is an absent key. *)
Record SetlistPlaybackUpdate := {
  upd_active : option bool;
  upd_setlistName : option (option string);
  upd_chapterIndex : option nat;
  upd_totalChapters : option nat;
  upd_startedAt : option (option number);
}.

(** [Object.assign(setlistPlayback, update)] *)
Definition assign (p : SetlistPlayback) (u : SetlistPlaybackUpdate) : SetlistPlayback := {|
  active := default (active p) (upd_active u);
  setlistName := default (setlistName p) (upd_setlistName u);
  chapterIndex := default (chapterIndex p) (upd_chapterIndex u);
  totalChapters := default (totalChapters p) (upd_totalChapters u);
  startedAt := default (startedAt p) (upd_startedAt u);
|}.

Definition setSetlistPlayback (update : SetlistPlaybackUpdate) : Eff unit :=
  modify (with_srv (λ s, set_setlistPlayback (assign (setlistPlayback s) update) s)).

Definition setCurrentShaderId (id : string) : Eff unit :=
  modify (with_srv (set_currentShaderId (Some id))).

Definition setCurrentShaderCode (code : string) : Eff unit :=
  modify (with_srv (set_currentShaderCode (Some code))).

Definition getCurrentPalette (s : Server) : PaletteConfig := currentPalette s.

Definition setCurrentPalette (palette : PaletteConfig) : Eff unit :=
  modify (with_srv (set_currentPalette palette)).

Definition setAudioBindings (bindings : list AudioBinding) : Eff unit :=
  modify (with_srv (set_audioBindings bindings)).

(** ** server.ts: join-time synchronisation *)

(** The payloads that [sendSyncToClient] hands to [ws.send], in order.
    [extChannels] always has 16 entries and [extXY] 4, so every lookup
    below is defined. *)
Definition sync_ext (s : Server) : list WSMessageToClient :=
  i ← seq 0 16;
  match extChannels s !! i with
  | Some v => if nonzero v then [ext_set (Z.of_nat i) v] else []
  | None => []
  end.

Definition sync_xy (s : Server) : list WSMessageToClient :=
  i ← seq 0 4;
  match extXY s !! i with
  | Some (x, y) => if nonzero x || nonzero y then [ext_xy_set (Z.of_nat i) x y] else []
  | None => []
  end.

Definition sync_shader (s : Server) : list WSMessageToClient :=
  match currentShaderCode s, currentShaderId s with
  | Some c, Some i =>
      if truthy_str (Some c) && truthy_str (Some i) then [shader_push c i] else []
  | _, _ => []
  end.

Definition sendSyncToClient (s : Server) : list WSMessageToClient :=
  sync_ext s ++ sync_xy s ++ [bpm_set (bpm s)] ++ sync_shader s
    ++ [palette_set (getCurrentPalette s)] ++ [get_state].

(** The ['connection'] handler: [clients.add(ws)], then the sync. *)
Definition on_connection (id : nat) : Eff unit :=
  modify (with_srv (λ s,
    set_clients (clients s ++ [{| ws_id := id; ws_open := true;
                                  ws_sent := sendSyncToClient s |}]) s)).

(** The ['close'] and ['error'] handlers: [clients.delete(ws)]. *)
Definition on_close (id : nat) : Eff unit :=
  modify (with_srv (λ s,
    set_clients (filter (λ ws, ws_id ws ≠ id) (clients s)) s)).

(** What the session [id] has been sent so far. *)
Definition sent_to (id : nat) (w : World) : list WSMessageToClient :=
  ws ← filter (λ ws, ws_id ws = id) (clients (srv w)); ws_sent ws.

(** ** Timers and the clock *)

Definition Date_now : Eff number := w ← get; mret (clock (loop w)).

(** The host moves the wall clock to [t] between two callbacks. *)
Definition at_time (t : number) : Eff unit :=
  modify (with_loop (λ l,
    {| clock := t; pending := pending l; nextTimerId := nextTimerId l |})).

Definition setTimeout (callback : TimerBody) (delay : number) : Eff nat :=
  w ← get;
  let h := nextTimerId (loop w) in
  modify (with_loop (λ l,
    {| clock := clock l;
       pending := pending l ++ [{| tm_id := h; tm_due := (clock l + delay)%Q;
                                  tm_body := callback |}];
       nextTimerId := S h |}));;
  mret h.

Definition clearTimeout (h : nat) : Eff unit :=
  modify (with_loop (λ l,
    {| clock := clock l;
       pending := filter (λ t, tm_id t ≠ h) (pending l);
       nextTimerId := nextTimerId l |})).

(** The armed chapter-advance timers. *)
Definition is_advance (t : Timer) : bool :=
  match tm_body t with
  | advance_chapter _ => true
  | delayed_push _ _ => false
  end.

Definition advance_timers (w : World) : list Timer :=
  filter (λ t, is_advance t = true) (pending (loop w)).

(** ** preset-store.ts *)

Definition safe_char (c : ascii) : bool :=
  let n := nat_of_ascii c in
  ((97 <=? n) && (n <=? 122) || (65 <=? n) && (n <=? 90) || (48 <=? n) && (n <=? 57)
   || (n =? 95) || (n =? 45) || (n =? 46) || (n =? 32))%nat.

Fixpoint map_chars (f : ascii → ascii) (s : string) : string :=
  match s with
  | EmptyString => EmptyString
  | String c s' => String (f c) (map_chars f s')
  end.

Fixpoint trim_start (s : string) : string :=
  match s with
  | String c s' => if Ascii.eqb c " " then trim_start s' else s
  | EmptyString => EmptyString
  end.

Definition trim (s : string) : string :=
  String.rev (trim_start (String.rev (trim_start s))).

(** [name.replace(/[^a-zA-Z0-9_\-. ]/g, '_').trim()] *)
Definition safeName (name : string) : string :=
  trim (map_chars (λ c, if safe_char c then c else "_"%char) name).

Definition getPreset (name : string) : Eff (option ShaderPreset) :=
  w ← get; mret (presetsDir w !! safeName name).

Definition getSetlist (name : string) : Eff (option Setlist) :=
  w ← get; mret (setlistsDir w !! safeName name).


Definition deleteSetlist (name : string) : Eff bool :=
  w ← get;
  match setlistsDir w !! safeName name with
  | Some _ => modify (with_setlistsDir (delete (safeName name)));; mret true
  | None => mret false
  end.

(** ** osc-bridge.ts *)

Definition BroadcastFn : Type := WSMessageToClient → Eff unit.

Fixpoint strip_prefix (p s : string) : option string :=
  match p, s with
  | EmptyString, _ => Some s
  | String a p', String b s' => if Ascii.eqb a b then strip_prefix p' s' else None
  | String _ _, EmptyString => None
  end.

Definition digit_val (c : ascii) : option Z :=
  let n := Z.of_nat (nat_of_ascii c) in
  if (48 <=? n) && (n <=? 57) then Some (n - 48) else None.

(** Reads [\d+\]$] and returns the decimal value of the digits. *)
Fixpoint digits_then_close (s : string) (acc : Z) (seen : bool) : option Z :=
  match s with
  | EmptyString => None
  | String c s' =>
      match digit_val c with
      | Some d => digits_then_close s' (10 * acc + d) true
      | None =>
          if Ascii.eqb c "]" && seen then
            match s' with EmptyString => Some acc | String _ _ => None end
          else None
      end
  end.

(** [target.match(/^u_ext\[(\d+)\]$/)] followed by [parseInt(m[1], 10)] *)
Definition ext_match (target : string) : option Z :=
  s ← strip_prefix "u_ext[" target; digits_then_close s 0 false.

Definition zero3 : number * number * number := (0%Q, 0%Q, 0%Q).

Inductive PaletteKey := key_color1 | key_color2 | key_color3 | key_bg.

Definition palette_key_name (k : PaletteKey) : string :=
  match k with
  | key_color1 => "color1" | key_color2 => "color2"
  | key_color3 => "color3" | key_bg => "bg"
  end.

(** [colors[key] = [r, g, b]] on the all-zero palette *)
Definition only_color (k : PaletteKey) (rgb : number * number * number) : PaletteConfig :=
  {| color1 := if k is key_color1 then rgb else zero3;
     color2 := if k is key_color2 then rgb else zero3;
     color3 := if k is key_color3 then rgb else zero3;
     bg := if k is key_bg then rgb else zero3 |}.

(** The [osc.on(address, callback)] registrations of [startOscBridge] for
    the fixed address scheme, in registration order. *)
Definition fixed_handlers (broadcastFn : BroadcastFn)
  : list (string * (OscMessage → Eff unit)) :=
  ((λ i : nat, ("/shade/ext/" +:+ pretty i,
      λ message, let value := arg_or (args message) 0 0 in
                 broadcastFn (ext_set (Z.of_nat i) value))) <$> seq 0 16)
  ++ ((λ i : nat, ("/shade/xy/" +:+ pretty i,
      λ message, let x := arg_or (args message) 0 0 in
                 let y := arg_or (args message) 1 0 in
                 broadcastFn (ext_xy_set (Z.of_nat i) x y))) <$> seq 0 4)
  ++ [("/shade/bpm",
      λ message, let bpm := arg_or (args message) 0 120 in
                 broadcastFn (bpm_set bpm))]
  ++ ((λ i : nat, ("/shade/param/" +:+ pretty i,
      λ message, let value := arg_or (args message) 0 0 in
                 broadcastFn (param_set ("u_param" +:+ pretty i) value))) <$> seq 1 4)
  ++ [("/shade/intensity",
      λ message, let value := arg_or (args message) 0 1 in
                 broadcastFn (param_set "u_intensity" value));
      ("/shade/speed",
      λ message, let value := arg_or (args message) 0 1 in
                 broadcastFn (param_set "u_speed" value))]
  ++ ((λ key, ("/shade/palette/" +:+ palette_key_name key,
      λ message, let r := arg_or (args message) 0 0 in
                 let g := arg_or (args message) 1 0 in
                 let b := arg_or (args message) 2 0 in
                 broadcastFn (palette_set (only_color key (r, g, b)))))
        <$> [key_color1; key_color2; key_color3; key_bg]).

(** The body of the ['*'] handler: the loop over [customMappings], left by
    the [return] after the first mapping that targets an ext channel. *)
Fixpoint custom_loop (broadcastFn : BroadcastFn) (message : OscMessage)
    (mappings : list CustomMapping) : Eff unit :=
  match mappings with
  | [] => mret tt
  | mapping :: rest =>
      if String.eqb (address message) (cm_address mapping) then
        let value := arg_or (args message) 0 0 in
        match ext_match (cm_target mapping) with
        | Some channel => broadcastFn (ext_set channel value)
        | None =>
            broadcastFn (param_set (cm_target mapping) value);;
            custom_loop broadcastFn message rest
        end
      else custom_loop broadcastFn message rest
  end.

Definition wildcard_handler (broadcastFn : BroadcastFn) (message : OscMessage) : Eff unit :=
  w ← get; custom_loop broadcastFn message (customMappings w).

(** The listener that [startOscBridge(broadcastFn, port)] installs.  The
    dispatch is the one of the [osc-js] library: a message is handed to the
    callbacks registered for its address and to the ['*'] callback. *)
Definition startOscBridge (broadcastFn : BroadcastFn) (message : OscMessage) : Eff unit :=
  for_each (filter (λ h, h.1 = address message) (fixed_handlers broadcastFn))
           (λ h, h.2 message);;
  wildcard_handler broadcastFn message.

(** The bridge as both callers start it:
    [startOscBridge(broadcastToClients, port)]. *)
Definition osc_receive : OscMessage → Eff unit := startOscBridge broadcastToClients.

Definition addOscMapping (address target : string) : Eff unit :=
  modify (with_customMappings (λ ms,
    filter (λ m, cm_address m ≠ address) ms
      ++ [{| cm_address := address; cm_target := target |}])).

(** ** Tool results *)

Inductive Reply :=
  | status_bound (binding : AudioBinding) (totalBindings : nat)
  | status_unbound (target : string) (remainingBindings : nat)
  | status_loaded (name : string)
      (chapters : list (nat * string * string * number * number * Transition))
  | status_playing (setlist chapter : string) (index : nat)
  | status_already_paused
  | status_paused (chapter : string) (index : nat)
  | status_jumped (chapter : string) (index : nat)
  | status_deleted (name : string).

Inductive ToolResult :=
  | mcpText (data : Reply)
  | mcpError (message : string).

(** [l.findIndex(p)]; [None] is the source's [-1]. *)
Fixpoint findIndex {A} (p : A → bool) (l : list A) : option nat :=
  match l with
  | [] => None
  | x :: l' => if p x then Some 0%nat else S <$> findIndex p l'
  end.

Definition dquote : string := String (ascii_of_nat 34) EmptyString.

(** ** audio-tools.ts *)

Module AudioTools.

(** [args] are the parsed arguments of the tool call, already checked
    against the tool's schema. *)
Definition audio_bind (args : AudioBinding) : Eff ToolResult :=
  let binding := {| source := source args; target := target args;
                    multiplier := multiplier args; offset := offset args;
                    smoothing := smoothing args |} in
  w ← get;
  let idx := findIndex (λ b, String.eqb (target b) (target args)) (activeBindings w) in
  match idx with
  | Some i => modify (with_activeBindings (delete i))
  | None => mret tt
  end;;
  modify (with_activeBindings (λ l, l ++ [binding]));;
  w ← get;
  setAudioBindings (activeBindings w);;
  broadcastToClients (audio_bind binding);;
  mret (mcpText (status_bound binding (length (activeBindings w)))).

Definition audio_unbind (target_arg : string) : Eff ToolResult :=
  w ← get;
  let idx := findIndex (λ b, String.eqb (target b) target_arg) (activeBindings w) in
  match idx with
  | None => mret (mcpError ("No binding found for target " +:+ dquote +:+ target_arg +:+ dquote))
  | Some i =>
      modify (with_activeBindings (delete i));;
      w ← get;
      setAudioBindings (activeBindings w);;
      broadcastToClients (audio_unbind target_arg);;
      mret (mcpText (status_unbound target_arg (length (activeBindings w))))
  end.

End AudioTools.

(** ** Setlist tools: playback engine *)

Definition set_activeSetlist (v : option Setlist) (s : Scheduler) : Scheduler :=
  {| activeSetlist := v; playbackTimer := playbackTimer s;
     playbackStartedAt := playbackStartedAt s;
     currentChapterIndex := currentChapterIndex s; isPaused := isPaused s;
     pauseOffset := pauseOffset s |}.

Definition set_playbackTimer (v : option nat) (s : Scheduler) : Scheduler :=
  {| activeSetlist := activeSetlist s; playbackTimer := v;
     playbackStartedAt := playbackStartedAt s;
     currentChapterIndex := currentChapterIndex s; isPaused := isPaused s;
     pauseOffset := pauseOffset s |}.

Definition set_playbackStartedAt (v : option number) (s : Scheduler) : Scheduler :=
  {| activeSetlist := activeSetlist s; playbackTimer := playbackTimer s;
     playbackStartedAt := v;
     currentChapterIndex := currentChapterIndex s; isPaused := isPaused s;
     pauseOffset := pauseOffset s |}.

Definition set_currentChapterIndex (v : nat) (s : Scheduler) : Scheduler :=
  {| activeSetlist := activeSetlist s; playbackTimer := playbackTimer s;
     playbackStartedAt := playbackStartedAt s;
     currentChapterIndex := v; isPaused := isPaused s;
     pauseOffset := pauseOffset s |}.

Definition set_isPaused (v : bool) (s : Scheduler) : Scheduler :=
  {| activeSetlist := activeSetlist s; playbackTimer := playbackTimer s;
     playbackStartedAt := playbackStartedAt s;
     currentChapterIndex := currentChapterIndex s; isPaused := v;
     pauseOffset := pauseOffset s |}.

Definition set_pauseOffset (v : number) (s : Scheduler) : Scheduler :=
  {| activeSetlist := activeSetlist s; playbackTimer := playbackTimer s;
     playbackStartedAt := playbackStartedAt s;
     currentChapterIndex := currentChapterIndex s; isPaused := isPaused s;
     pauseOffset := v |}.

(** [{ active: b }] and [{ chapterIndex: i }] *)
Definition only_active (b : bool) : SetlistPlaybackUpdate :=
  {| upd_active := Some b; upd_setlistName := None; upd_chapterIndex := None;
     upd_totalChapters := None; upd_startedAt := None |}.

Definition only_chapterIndex (i : nat) : SetlistPlaybackUpdate :=
  {| upd_active := None; upd_setlistName := None; upd_chapterIndex := Some i;
     upd_totalChapters := None; upd_startedAt := None |}.

(** [chapters[i]] handed to code that reads a property of it: an index past
    the end yields [undefined], and the property read throws. *)
Definition chapter_at (sl : Setlist) (i : nat) : Eff SetlistChapter :=
  match chapters sl !! i with
  | Some c => mret c
  | None => throw (TypeError "Cannot read properties of undefined")
  end.

(** The transition step of [pushChapter]. *)
Definition push_shader (chapter : SetlistChapter) (preset : ShaderPreset) : Eff unit :=
  match transition_in chapter with
  | crossfade =>
      broadcastToClients
        (shader_crossfade (code preset) (id preset) (transition_duration chapter))
  | flash =>
      broadcastToClients (perform_flash (transition_duration chapter));;
      setTimeout (delayed_push (code preset) (id preset))
                 (transition_duration chapter * 1000 / 2)%Q;;
      mret tt
  | cut =>
      broadcastToClients (shader_push (code preset) (id preset))
  end.

Definition pushChapter (chapter : SetlistChapter) (index total : nat) : Eff unit :=
  preset ← getPreset (shader chapter);
  match preset with
  | None => mret tt
  | Some preset =>
      push_shader chapter preset;;
      setCurrentShaderId (id preset);;
      match params chapter with
      | Some ps => for_each ps (λ entry, broadcastToClients (param_set entry.1 entry.2))
      | None => mret tt
      end;;
      match palette chapter with
      | Some p =>
          broadcastToClients (palette_set
            {| color1 := color1 p; color2 := color2 p; color3 := color3 p; bg := bg p |})
      | None => mret tt
      end;;
      match audio_bindings chapter with
      | Some bs => for_each bs (λ binding, broadcastToClients (audio_bind binding))
      | None => mret tt
      end;;
      match automations chapter with
      | Some (a :: l) => broadcastToClients (automation (a :: l))
      | _ => mret tt
      end;;
      broadcastToClients (chapter_info (ch_name chapter) index total)
  end.

Definition scheduleNextChapter : Eff unit :=
  w ← get;
  match activeSetlist (sched w) with
  | None => mret tt
  | Some sl =>
      if isPaused (sched w) then mret tt
      else
        let nextIndex := (currentChapterIndex (sched w) + 1)%nat in
        if (length (chapters sl) <=? nextIndex)%nat then
          setSetlistPlayback (only_active false)
        else
          currentChapter ← chapter_at sl (currentChapterIndex (sched w));
          let chapterDuration :=
            ((end_time currentChapter - start_time currentChapter) * 1000)%Q in
          let elapsed := pauseOffset (sched w) in
          let remaining := Math_max 0 (chapterDuration - elapsed)%Q in
          h ← setTimeout (advance_chapter nextIndex) remaining;
          modify (with_sched (set_playbackTimer (Some h)))
  end.

(** The callback that [scheduleNextChapter] hands to [setTimeout]. *)
Definition advance_callback (nextIndex : nat) : Eff unit :=
  modify (with_sched (set_currentChapterIndex nextIndex));;
  modify (with_sched (set_pauseOffset 0));;
  setSetlistPlayback (only_chapterIndex nextIndex);;
  w ← get;
  match activeSetlist (sched w) with
  | None => throw (TypeError "Cannot read properties of null")
  | Some sl =>
      chapter ← chapter_at sl (currentChapterIndex (sched w));
      pushChapter chapter (currentChapterIndex (sched w)) (length (chapters sl));;
      scheduleNextChapter
  end.

Definition clearPlayback : Eff unit :=
  w ← get;
  match playbackTimer (sched w) with
  | Some h => clearTimeout h;; modify (with_sched (set_playbackTimer None))
  | None => mret tt
  end.

(** The two callbacks that the sources hand to [setTimeout]. *)
Definition run_callback (body : TimerBody) : Eff unit :=
  match body with
  | advance_chapter nextIndex => advance_callback nextIndex
  | delayed_push code id => broadcastToClients (shader_push code id)
  end.

(** The event loop runs the callback of the armed timer [h] once it is
    due, and forgets the timer. *)
Definition fire (h : nat) : Eff unit :=
  w ← get;
  match filter (λ t, tm_id t = h) (pending (loop w)) with
  | t :: _ =>
      if num_le (tm_due t) (clock (loop w)) then
        clearTimeout h;; run_callback (tm_body t)
      else mret tt
  | [] => mret tt
  end.

(** [s.toLowerCase()] on ASCII letters *)
Definition lower_char (c : ascii) : ascii :=
  let n := nat_of_ascii c in
  if ((65 <=? n) && (n <=? 90))%nat then ascii_of_nat (n + 32) else c.

Definition toLowerCase (s : string) : string := map_chars lower_char s.

(** The loop of [setlist_load] that collects the unresolved shader names. *)
Fixpoint collect_missing (cs : list SetlistChapter) (missing : list string)
  : Eff (list string) :=
  match cs with
  | [] => mret missing
  | chapter :: cs' =>
      preset ← getPreset (shader chapter);
      collect_missing cs'
        (match preset with
         | None => missing ++ [shader chapter]
         | Some _ => missing
         end)
  end.

Record JumpArgs := {
  arg_index : option Z;
  arg_name : option string;
  arg_time : option number;
}.

Module SetlistTools.

Definition setlist_load (name : string) : Eff ToolResult :=
  setlist ← getSetlist name;
  match setlist with
  | None => mret (mcpError ("Setlist " +:+ dquote +:+ name +:+ dquote +:+ " not found"))
  | Some setlist =>
      missing ← collect_missing (chapters setlist) [];
      if (0 <? length missing)%nat then
        mret (mcpError ("Missing shader presets: " +:+ String.concat ", " missing))
      else
        modify (with_sched (set_activeSetlist (Some setlist)));;
        modify (with_sched (set_currentChapterIndex 0));;
        modify (with_sched (set_isPaused false));;
        modify (with_sched (set_pauseOffset 0));;
        clearPlayback;;
        setSetlistPlayback
          {| upd_active := Some false;
             upd_setlistName := Some (Some (sl_name setlist));
             upd_chapterIndex := Some 0%nat;
             upd_totalChapters := Some (length (chapters setlist));
             upd_startedAt := Some None |};;
        mret (mcpText (status_loaded (sl_name setlist)
          (imap (λ i c, (i, ch_name c, shader c, start_time c, end_time c,
                         transition_in c)) (chapters setlist))))
  end.

Definition setlist_play : Eff ToolResult :=
  w ← get;
  match activeSetlist (sched w) with
  | None => mret (mcpError "No setlist loaded. Use setlist_load first.")
  | Some sl =>
      modify (with_sched (set_isPaused false));;
      now ← Date_now;
      modify (with_sched (set_playbackStartedAt (Some now)));;
      setSetlistPlayback
        {| upd_active := Some true; upd_setlistName := None;
           upd_chapterIndex := None; upd_totalChapters := None;
           upd_startedAt := Some (Some now) |};;
      let index := currentChapterIndex (sched w) in
      chapter ← chapter_at sl index;
      pushChapter chapter index (length (chapters sl));;
      scheduleNextChapter;;
      mret (mcpText (status_playing (sl_name sl) (ch_name chapter) index))
  end.

Definition setlist_pause : Eff ToolResult :=
  w ← get;
  match activeSetlist (sched w) with
  | None => mret (mcpError "No setlist loaded")
  | Some sl =>
      if isPaused (sched w) then mret (mcpText status_already_paused)
      else
        modify (with_sched (set_isPaused true));;
        clearPlayback;;
        (if truthy_num (playbackStartedAt (sched w)) then
           now ← Date_now;
           modify (with_sched (λ s,
             set_pauseOffset
               (pauseOffset s + (now - default 0%Q (playbackStartedAt s)))%Q s))
         else mret tt);;
        setSetlistPlayback (only_active false);;
        let index := currentChapterIndex (sched w) in
        chapter ← chapter_at sl index;
        mret (mcpText (status_paused (ch_name chapter) index))
  end.

(** The target chapter of a jump, or the error message (the message for
    an unmatched time position is given without the number). *)
Definition resolve_target (sl : Setlist) (args : JumpArgs) : string + nat :=
  match arg_index args with
  | Some index =>
      if (index <? 0) || (Z.of_nat (length (chapters sl)) <=? index) then
        inl ("Chapter index " +:+ pretty index +:+ " out of range (0-"
             +:+ pretty (Z.of_nat (length (chapters sl)) - 1) +:+ ")")
      else inr (Z.to_nat index)
  | None =>
      if truthy_str (arg_name args) then
        let name := default EmptyString (arg_name args) in
        match findIndex (λ c, String.eqb (toLowerCase (ch_name c)) (toLowerCase name))
                        (chapters sl) with
        | Some i => inr i
        | None => inl ("Chapter " +:+ dquote +:+ name +:+ dquote +:+ " not found")
        end
      else
        match arg_time args with
        | Some time =>
            match findIndex (λ c, num_ge time (start_time c) && num_lt time (end_time c))
                            (chapters sl) with
            | Some i => inr i
            | None => inl "No chapter found at that time"
            end
        | None => inl "Provide one of: index, name, or time"
        end
  end.

Definition setlist_jump (args : JumpArgs) : Eff ToolResult :=
  w ← get;
  match activeSetlist (sched w) with
  | None => mret (mcpError "No setlist loaded")
  | Some sl =>
      match resolve_target sl args with
      | inl message => mret (mcpError message)
      | inr targetIndex =>
          clearPlayback;;
          modify (with_sched (set_currentChapterIndex targetIndex));;
          modify (with_sched (set_pauseOffset 0));;
          setSetlistPlayback (only_chapterIndex targetIndex);;
          chapter ← chapter_at sl targetIndex;
          pushChapter chapter targetIndex (length (chapters sl));;
          (if negb (isPaused (sched w)) then
             now ← Date_now;
             modify (with_sched (set_playbackStartedAt (Some now)));;
             scheduleNextChapter
           else mret tt);;
          mret (mcpText (status_jumped (ch_name chapter) targetIndex))
      end
  end.

Definition setlist_delete (name : string) : Eff ToolResult :=
  w ← get;
  (if bool_decide (sl_name <$> activeSetlist (sched w) = Some name) then
     clearPlayback;;
     modify (with_sched (set_activeSetlist None));;
     modify (with_sched (set_isPaused false));;
     setSetlistPlayback
       {| upd_active := Some false; upd_setlistName := Some None;
          upd_chapterIndex := Some 0%nat; upd_totalChapters := Some 0%nat;
          upd_startedAt := Some None |}
   else mret tt);;
  deleted ← deleteSetlist name;
  mret (if deleted : bool then mcpText (status_deleted name)
        else mcpError ("Setlist " +:+ dquote +:+ name +:+ dquote +:+ " not found")).

End SetlistTools.

(** ** Runs of the process

    The callbacks that the event loop runs, one after the other, each at
    the wall-clock time the host gives it. *)

Inductive Event :=
  | ev_connect (id : nat)
  | ev_close (id : nat)
  | ev_osc (message : OscMessage)
  | ev_audio_bind (args : AudioBinding)
  | ev_audio_unbind (target : string)
  | ev_load (name : string)
  | ev_play
  | ev_pause
  | ev_jump (args : JumpArgs)
  | ev_delete (name : string)
  | ev_timer (h : nat).

Definition handle (e : Event) : Eff unit :=
  match e with
  | ev_connect id => on_connection id
  | ev_close id => on_close id
  | ev_osc message => osc_receive message
  | ev_audio_bind args => AudioTools.audio_bind args;; mret tt
  | ev_audio_unbind target => AudioTools.audio_unbind target;; mret tt
  | ev_load name => SetlistTools.setlist_load name;; mret tt
  | ev_play => SetlistTools.setlist_play;; mret tt
  | ev_pause => SetlistTools.setlist_pause;; mret tt
  | ev_jump args => SetlistTools.setlist_jump args;; mret tt
  | ev_delete name => SetlistTools.setlist_delete name;; mret tt
  | ev_timer h => fire h
  end.

(** A callback that throws ends there; the process goes on with the
    mutations made so far. *)
Definition step (w : World) (te : number * Event) : World :=
  exec (at_time te.1;; handle te.2) w.

Definition run (w : World) (es : list (number * Event)) : World :=
  foldl step w es.

(** ** Vocabulary of the statements *)

(** [ms] broadcast one after the other. *)
Definition broadcast_all (ms : list WSMessageToClient) (cs : list WebSocket)
  : list WebSocket :=
  foldl (λ cs m, deliver m cs) cs ms.

Definition emit (ms : list WSMessageToClient) (w : World) : World :=
  with_srv (λ s, set_clients (broadcast_all ms (clients s)) s) w.

(** The state mirror: the server state apart from the set of sessions. *)
Definition mirror (w : World) : Server := set_clients [] (srv w).

(** The commands of a chapter emission whose shader resolved to [preset]. *)
Definition transition_messages (chapter : SetlistChapter) (preset : ShaderPreset)
  : list WSMessageToClient :=
  match transition_in chapter with
  | crossfade => [shader_crossfade (code preset) (id preset) (transition_duration chapter)]
  | flash => [perform_flash (transition_duration chapter)]
  | cut => [shader_push (code preset) (id preset)]
  end.

Definition settings_messages (chapter : SetlistChapter) (index total : nat)
  : list WSMessageToClient :=
  ((λ entry, param_set entry.1 entry.2) <$> default [] (params chapter))
  ++ match palette chapter with
     | Some p => [palette_set {| color1 := color1 p; color2 := color2 p;
                                 color3 := color3 p; bg := bg p |}]
     | None => []
     end
  ++ (audio_bind <$> default [] (audio_bindings chapter))
  ++ match automations chapter with
     | Some (a :: l) => [automation (a :: l)]
     | _ => []
     end
  ++ [chapter_info (ch_name chapter) index total].

Definition chapter_messages (chapter : SetlistChapter) (preset : ShaderPreset)
    (index total : nat) : list WSMessageToClient :=
  transition_messages chapter preset ++ settings_messages chapter index total.

(** [clearTimeout] on the timer slot of the scheduler. *)
Definition cancel_slot (slot : option nat) (ts : list Timer) : list Timer :=
  match slot with
  | Some h => filter (λ t, tm_id t ≠ h) ts
  | None => ts
  end.

(** The event loop, and the world, after [setTimeout(callback, delay)]. *)
Definition arm_in (callback : TimerBody) (delay : number) (l : EventLoop) : EventLoop :=
  {| clock := clock l;
     pending := pending l ++ [{| tm_id := nextTimerId l; tm_due := (clock l + delay)%Q;
                                tm_body := callback |}];
     nextTimerId := S (nextTimerId l) |}.

Definition arm (callback : TimerBody) (delay : number) (w : World) : World :=
  with_loop (arm_in callback delay) w.

(** The detached timer of a flash transition. *)
Definition flash_timer (chapter : SetlistChapter) (preset : ShaderPreset) (w : World)
  : World :=
  with_loop (λ l,
    match transition_in chapter with
    | flash => arm_in (delayed_push (code preset) (id preset))
                      (transition_duration chapter * 1000 / 2)%Q l
    | _ => l
    end) w.

(** The delay that [scheduleNextChapter] computes for [chapter]. *)
Definition remaining_of (chapter : SetlistChapter) (elapsed : number) : number :=
  Math_max 0 ((end_time chapter - start_time chapter) * 1000 - elapsed)%Q.

(** The world after [clearPlayback()]. *)
Definition cancel_playback (w : World) : World :=
  with_sched (set_playbackTimer None)
    (with_loop (λ l,
       {| clock := clock l;
          pending := cancel_slot (playbackTimer (sched w)) (pending l);
          nextTimerId := nextTimerId l |}) w).



(** No chapter-advance timer is armed. *)
Definition quiet (w : World) : Prop := advance_timers w = [].


(** [m], run in a world that satisfies [P], leaves a world that satisfies
    [Q], whether it completes or throws. *)
Definition hoare {A} (P : World → Prop) (m : Eff A) (Q : World → Prop) : Prop :=
  ∀ w, P w → Q (exec m w).

(** A sequence of calls of the two binding tools. *)
Inductive AudioOp :=
  | op_bind (args : AudioBinding)
  | op_unbind (target : string).

Definition audio_step (w : World) (op : AudioOp) : World :=
  match op with
  | op_bind args => exec (AudioTools.audio_bind args) w
  | op_unbind target => exec (AudioTools.audio_unbind target) w
  end.

Definition audio_run (w : World) (ops : list AudioOp) : World := foldl audio_step w ops.

(** The registry without the bindings of [t]. *)
Definition without_target (t : string) (l : list AudioBinding) : list AudioBinding :=
  filter (λ b, target b ≠ t) l.

(** The addresses of the fixed scheme that carry mirrored values. *)
Inductive FixedAddress :=
  | addr_ext (i : nat)
  | addr_xy (i : nat)
  | addr_bpm.

Definition in_scheme (a : FixedAddress) : Prop :=
  match a with
  | addr_ext i => (i < 16)%nat
  | addr_xy i => (i < 4)%nat
  | addr_bpm => True
  end.

Definition address_of (a : FixedAddress) : string :=
  match a with
  | addr_ext i => "/shade/ext/" +:+ pretty i
  | addr_xy i => "/shade/xy/" +:+ pretty i
  | addr_bpm => "/shade/bpm"
  end.

(** The command that carries the decoded arguments. *)
Definition decoded (a : FixedAddress) (args : list number) : WSMessageToClient :=
  match a with
  | addr_ext i => ext_set (Z.of_nat i) (arg_or args 0 0)
  | addr_xy i => ext_xy_set (Z.of_nat i) (arg_or args 0 0) (arg_or args 1 0)
  | addr_bpm => bpm_set (arg_or args 0 120)
  end.

(** The commands that the custom mappings add for a message. *)
Fixpoint custom_messages (message : OscMessage) (mappings : list CustomMapping)
  : list WSMessageToClient :=
  match mappings with
  | [] => []
  | mapping :: rest =>
      if String.eqb (address message) (cm_address mapping) then
        match ext_match (cm_target mapping) with
        | Some channel => [ext_set channel (arg_or (args message) 0 0)]
        | None =>
            param_set (cm_target mapping) (arg_or (args message) 0 0)
              :: custom_messages message rest
        end
      else custom_messages message rest
  end.

(** ** Fixtures *)

Definition plasma : ShaderPreset :=
  {| id := "preset-1"; ps_name := "plasma"; code := "void main() {}" |}.

Definition demo_chapter (name shader : string) (s e : number) : SetlistChapter :=
  {| ch_name := name; shader := shader; start_time := s; end_time := e;
     transition_in := cut; transition_duration := 1;
     params := Some [("u_param1", 1 # 2)];
     palette := Some {| color1 := (1, 0, 0); color2 := (0, 1, 0);
                        color3 := (0, 0, 1); bg := black |}%Q;
     audio_bindings := None; automations := None |}.

(** Three chapters of two seconds each. *)
Definition demo_setlist : Setlist :=
  {| sl_name := "demo"; track_name := None; track_duration := None;
     chapters := [demo_chapter "Chapter 1" "plasma" 0 2;
                  demo_chapter "Chapter 2" "plasma" 2 4;
                  demo_chapter "Chapter 3" "plasma" 4 6] |}.

(** A timeline whose second chapter names a preset that is not stored. *)
Definition broken_setlist : Setlist :=
  {| sl_name := "broken"; track_name := None; track_duration := None;
     chapters := [demo_chapter "Chapter 1" "plasma" 0 2;
                  demo_chapter "Chapter 2" "ghost" 2 4;
                  demo_chapter "Chapter 3" "phantom" 4 6] |}.


Definition listener : WebSocket := {| ws_id := 1; ws_open := true; ws_sent := [] |}.

(** A process with one preset, two stored timelines and one session. *)
Definition demo_world : World :=
  {| srv := set_clients [listener] initial_server;
     sched := initial_scheduler;
     loop := initial_loop;
     activeBindings := [];
     customMappings := [];
     presetsDir := {[ "plasma" := plasma ]};
     setlistsDir := {[ "demo" := demo_setlist; "broken" := broken_setlist ]} |}.

(** The epoch time, in milliseconds, at which the demo starts. *)
Definition t0 : number := 1000000%Q.

(** The demo timeline loaded and started at [t0]. *)
Definition playing_world : World :=
  run demo_world [(t0, ev_load "demo"); (t0, ev_play)].

(** An OSC message sets ext channel 3 to 0.7 while session 1 listens; then
    session 2 connects. *)
Definition fader_message : OscMessage :=
  {| address := "/shade/ext/3"; args := [7 # 10] |}.

Definition osc_then_join : World :=
  run demo_world [(t0, ev_osc fader_message); (t0 + 1, ev_connect 2)]%Q.

Definition bass_binding (m : number) : AudioBinding :=
  {| source := "bass"; target := "u_param1"; multiplier := m; offset := 0;
     smoothing := 4 # 5 |}.

(** [load], [play] and a second [play] ten milliseconds later. *)
Definition played_twice : World :=
  run playing_world [(t0 + 10, ev_play)]%Q.

(** [load], [play] and a jump to the second chapter. *)
Definition played_then_jumped : World :=
  run playing_world
    [((t0 + 10)%Q, ev_jump {| arg_index := Some 1; arg_name := None; arg_time := None |})].

(** * Further parts of the sources *)

(** ** server.ts: messages from the browser *)

Inductive WSMessageFromClient :=
  | from_state (data : RuntimeState)
  | from_shader_error (error shaderId : string)
  | from_audio_levels (bass mid high energy peak : number) (spectrum : option (list number))
  | from_capture_complete (filename : string) (size : number)
  | from_shader_validated (id : string) (success : bool) (error : option string)
  | from_chapter_jump (chapter : number)
  | from_screenshot_taken (timestamp : number)
  | from_ready.

Definition set_lastRuntimeState (v : option RuntimeState) (s : Server) : Server :=
  {| extChannels := extChannels s; extXY := extXY s; bpm := bpm s;
     audioBindings := audioBindings s; currentShaderId := currentShaderId s;
     currentShaderCode := currentShaderCode s; currentPalette := currentPalette s;
     lastRuntimeState := v; setlistPlayback := setlistPlayback s;
     clients := clients s |}.

(** [handleClientMessage]; [handleValidationResult] belongs to the shader
    tools and is taken as given.  The branches that only log do nothing. *)
Definition handleClientMessage
    (handleValidationResult : string → bool → option string → Eff unit)
    (msg : WSMessageFromClient) : Eff unit :=
  match msg with
  | from_state data =>
      modify (with_srv (set_lastRuntimeState (Some data)));;
      if truthy_str (Some (currentShader data)) then
        modify (with_srv (set_currentShaderId (Some (currentShader data))))
      else mret tt
  | from_shader_validated id success error => handleValidationResult id success error
  | _ => mret tt
  end.

Definition getCurrentState (s : Server) : option RuntimeState := lastRuntimeState s.

(** ** preset-store.ts: presets *)




(** The characters of a string. *)
Definition chars (s : string) : list ascii := String.list_ascii_of_string s.

(** ** perform-tools.ts: palette *)

Definition hex_val (c : ascii) : option Z :=
  let n := Z.of_nat (nat_of_ascii c) in
  if (48 <=? n) && (n <=? 57) then Some (n - 48)
  else if (97 <=? n) && (n <=? 102) then Some (n - 87)
  else if (65 <=? n) && (n <=? 70) then Some (n - 55)
  else None.

(** [parseInt(s, 16)] on the two hex digits [a], [b] *)
Definition hex_pair (a b : ascii) : option Z :=
  x ← hex_val a; y ← hex_val b; Some (16 * x + y).

(** [hex.replace(/^#/, '')] *)
Definition strip_hash (hex : string) : string :=
  match hex with
  | String c rest => if Ascii.eqb c "#" then rest else hex
  | EmptyString => hex
  end.

(** [hexToRgb]; [inl] is the message of the [Error] it throws. *)
Definition hexToRgb (hex : string) : string + (number * number * number) :=
  match strip_hash hex with
  | String r1 (String r2 (String g1 (String g2 (String b1 (String b2 EmptyString))))) =>
      match hex_pair r1 r2, hex_pair g1 g2, hex_pair b1 b2 with
      | Some r, Some g, Some b =>
          inr ((inject_Z r / 255)%Q, (inject_Z g / 255)%Q, (inject_Z b / 255)%Q)
      | _, _, _ => inl ("Invalid hex color: " +:+ hex)
      end
  | _ => inl ("Invalid hex color: " +:+ hex)
  end.

Record PaletteArgs := {
  arg_color1 : option string;
  arg_color2 : option string;
  arg_color3 : option string;
  arg_bg : option string;
}.

Inductive PaletteResult :=
  | palette_updated (colors : PaletteConfig)
  | palette_failed (message : string).

(** [arg ? hexToRgb(arg) : current] *)
Definition color_or (arg : option string) (current : number * number * number)
  : string + (number * number * number) :=
  if truthy_str arg then hexToRgb (default EmptyString arg) else inr current.

(** The object literal [colors] of [perform_palette]: the four entries are
    evaluated in order and the first [hexToRgb] that throws ends it. *)
Definition merged_colors (args : PaletteArgs) (current : PaletteConfig)
  : string + PaletteConfig :=
  match color_or (arg_color1 args) (color1 current) with
  | inl e => inl e
  | inr c1 =>
  match color_or (arg_color2 args) (color2 current) with
  | inl e => inl e
  | inr c2 =>
  match color_or (arg_color3 args) (color3 current) with
  | inl e => inl e
  | inr c3 =>
  match color_or (arg_bg args) (bg current) with
  | inl e => inl e
  | inr c4 => inr {| color1 := c1; color2 := c2; color3 := c3; bg := c4 |}
  end end end end.

Module PerformTools.

Definition perform_palette (args : PaletteArgs) : Eff PaletteResult :=
  w ← get;
  let current := getCurrentPalette (srv w) in
  match merged_colors args current with
  | inl message => mret (palette_failed ("Palette update failed: " +:+ message))
  | inr colors =>
      broadcastToClients (palette_set colors);;
      setCurrentPalette colors;;
      mret (palette_updated colors)
  end.

End PerformTools.

(** ** Vocabulary of the further statements *)

(** The target that the last of the calls [addOscMapping(address, target)]
    in [adds] gave to [address]. *)
Definition last_target (address : string) (adds : list (string * string)) : option string :=
  snd <$> last (filter (λ p, p.1 = address) adds).

Definition add_mappings (w : World) (adds : list (string * string)) : World :=
  foldl (λ w p, exec (addOscMapping p.1 p.2) w) w adds.



(** The commands of the emission of [chapter], given the stored presets:
    none when its shader does not resolve. *)
Definition emission (presets : gmap string ShaderPreset) (chapter : SetlistChapter)
    (index total : nat) : list WSMessageToClient :=
  match presets !! safeName (shader chapter) with
  | Some preset => chapter_messages chapter preset index total
  | None => []
  end.

(** The world after [pushChapter(chapter, index, total)]. *)
Definition pushed (chapter : SetlistChapter) (index total : nat) (w : World) : World :=
  match presetsDir w !! safeName (shader chapter) with
  | Some preset =>
      emit (settings_messages chapter index total)
        (with_srv (set_currentShaderId (Some (id preset)))
           (flash_timer chapter preset (emit (transition_messages chapter preset) w)))
  | None => w
  end.

(** The world after [scheduleNextChapter()] when the setlist [sl] is
    active and playback is not paused. *)
Definition rescheduled (sl : Setlist) (w : World) : World :=
  let index := currentChapterIndex (sched w) in
  if (length (chapters sl) <=? index + 1)%nat then
    with_srv (λ s, set_setlistPlayback (assign (setlistPlayback s) (only_active false)) s) w
  else
    match chapters sl !! index with
    | Some ch =>
        with_sched (set_playbackTimer (Some (nextTimerId (loop w))))
          (arm (advance_chapter (index + 1)) (remaining_of ch (pauseOffset (sched w))) w)
    | None => w
    end.

(** The scheduler moved to chapter [k]. *)
Definition moved_to (k : nat) (w : World) : World :=
  with_srv (λ s, set_setlistPlayback (assign (setlistPlayback s) (only_chapterIndex k)) s)
    (with_sched (set_pauseOffset 0)
       (with_sched (set_currentChapterIndex k) w)).





(** Chapter [k] of [sl] is on, with [elapsed] milliseconds of it played
    when its timer was armed, and nothing else is pending. *)
Definition playing_chapter (sl : Setlist) (presets : gmap string ShaderPreset)
    (k : nat) (elapsed : number) (w : World) : Prop :=
  activeSetlist (sched w) = Some sl
  ∧ isPaused (sched w) = false
  ∧ currentChapterIndex (sched w) = k
  ∧ pauseOffset (sched w) = elapsed
  ∧ presetsDir w = presets
  ∧ match drop k (chapters sl) with
    | ch :: _ :: _ =>
        ∃ h, pending (loop w)
             = [{| tm_id := h; tm_due := (clock (loop w) + remaining_of ch elapsed)%Q;
                   tm_body := advance_chapter (k + 1) |}]
             ∧ playbackTimer (sched w) = Some h
    | [_] => pending (loop w) = [] ∧ active (setlistPlayback (srv w)) = false
    | [] => False
    end.

Definition no_flash (sl : Setlist) : Prop :=
  Forall (λ ch, transition_in ch ≠ flash) (chapters sl).

(** The demo timeline loaded, not yet started. *)
Definition loaded_world : World := run demo_world [(t0, ev_load "demo")].

(** Leading spaces removed, on the characters. *)
Fixpoint ltrim (l : list ascii) : list ascii :=
  match l with
  | c :: l' => if Ascii.eqb c " " then ltrim l' else l
  | [] => []
  end.

Definition rtrim (l : list ascii) : list ascii := reverse (ltrim (reverse l)).

(** The replacement that [safeName] makes of a character. *)
Definition sanitize (c : ascii) : ascii := if safe_char c then c else "_"%char.

(** A text of six hexadecimal digits. *)
Definition is_hex_color (s : string) : Prop :=
  ∃ r1 r2 g1 g2 b1 b2,
    s = String r1 (String r2 (String g1 (String g2 (String b1 (String b2 EmptyString)))))
    ∧ is_Some (hex_val r1) ∧ is_Some (hex_val r2) ∧ is_Some (hex_val g1)
    ∧ is_Some (hex_val g2) ∧ is_Some (hex_val b1) ∧ is_Some (hex_val b2).

Definition unit_interval (rgb : number * number * number) : Prop :=
  ((0 <= rgb.1.1)%Q ∧ (rgb.1.1 <= 1)%Q)
  ∧ ((0 <= rgb.1.2)%Q ∧ (rgb.1.2 <= 1)%Q)
  ∧ ((0 <= rgb.2)%Q ∧ (rgb.2 <= 1)%Q).

(** The addresses of the fixed OSC scheme that carry settings of the
    running shader: nothing of them is mirrored. *)
Inductive SettingAddress :=
  | addr_param (i : nat)
  | addr_intensity
  | addr_speed
  | addr_palette (key : PaletteKey).

Definition setting_in_scheme (a : SettingAddress) : Prop :=
  match a with
  | addr_param i => (1 ≤ i ≤ 4)%nat
  | _ => True
  end.

Definition setting_address (a : SettingAddress) : string :=
  match a with
  | addr_param i => "/shade/param/" +:+ pretty i
  | addr_intensity => "/shade/intensity"
  | addr_speed => "/shade/speed"
  | addr_palette key => "/shade/palette/" +:+ palette_key_name key
  end.

Definition setting_decoded (a : SettingAddress) (args : list number) : WSMessageToClient :=
  match a with
  | addr_param i => param_set ("u_param" +:+ pretty i) (arg_or args 0 0)
  | addr_intensity => param_set "u_intensity" (arg_or args 0 1)
  | addr_speed => param_set "u_speed" (arg_or args 0 1)
  | addr_palette key =>
      palette_set (only_color key (arg_or args 0 0, arg_or args 1 0, arg_or args 2 0))
  end.

(** The part of the process that only the input setters, [perform_palette],
    the browser's reports and the preset store write. *)
Definition input_mirror (w : World) :=
  (extChannels (srv w), extXY (srv w), bpm (srv w), currentShaderCode (srv w),
   currentPalette (srv w), lastRuntimeState (srv w), presetsDir w, customMappings w).

(** [w] has the input mirror of [w0]. *)
Definition kept (w0 w : World) : Prop := input_mirror w = input_mirror w0.

(** ** server.ts: the batch route of the REST API *)

(** [try { body } catch (err) { handler(err) }] *)
Definition try_catch {A} (body : Eff A) (handler : JsError → Eff A) : Eff A :=
  λ w, match body w with
       | (inl e, w') => handler e w'
       | (inr a, w') => (inr a, w')
       end.

(** Reads [\d+$] and returns the decimal value of the digits. *)
Fixpoint digits_to_end (s : string) (acc : Z) (seen : bool) : option Z :=
  match s with
  | EmptyString => if seen then Some acc else None
  | String c s' =>
      match digit_val c with
      | Some d => digits_to_end s' (10 * acc + d) true
      | None => None
      end
  end.

(** [key.match(/^xy_(\d+)$/)] followed by [parseInt(m[1], 10)] *)
Definition xy_match (key : string) : option Z :=
  s ← strip_prefix "xy_" key; digits_to_end s 0 false.

(** A value of the [channels] object, as the route tells them apart. *)
Inductive BatchValue :=
  | val_number (v : number)
  | val_pair (x y : number)
  | val_other.

(** An entry of the [results] object: ['ok'], one of the two fixed error
    texts, or ['error: '] followed by the message of the error caught. *)
Inductive BatchResult :=
  | batch_ok
  | batch_error (text : string)
  | batch_caught (e : JsError).

Section Batch.

(** [parseInt(key, 10)]; [None] is [NaN]. *)
Variable parseInt : string → option Z.

(** The body of the loop over the entries of [channels]. *)
Definition batch_entry (key : string) (val : BatchValue) : Eff BatchResult :=
  try_catch
    (match xy_match key with
     | Some ch =>
         match val with
         | val_pair x y => setExternalXY ch x y;; mret batch_ok
         | _ => mret (batch_error "error: XY channels require [x, y] array")
         end
     | None =>
         match parseInt key, val with
         | Some ch, val_number v => setExternalInput ch v;; mret batch_ok
         | _, _ => mret (batch_error "error: invalid channel or value")
         end
     end)
    (λ e, mret (batch_caught e)).

Fixpoint batch_loop (entries : list (string * BatchValue))
  : Eff (list (string * BatchResult)) :=
  match entries with
  | [] => mret []
  | entry :: rest =>
      r ← batch_entry entry.1 entry.2;
      rs ← batch_loop rest;
      mret ((entry.1, r) :: rs)
  end.

(** [POST /api/input/batch]; [inl] is the body of the 400 answer, given
    when the request has no [channels] object. *)
Definition post_input_batch (channels : option (list (string * BatchValue)))
  : Eff (string + list (string * BatchResult)) :=
  match channels with
  | None =>
      mret (inl ("Body must contain a " +:+ dquote +:+ "channels" +:+ dquote +:+ " object"))
  | Some entries => rs ← batch_loop entries; mret (inr rs)
  end.

(** Whether the route applies an entry: the key and the value fit and the
    channel is in range. *)
Definition applies (entry : string * BatchValue) : bool :=
  match xy_match entry.1, entry.2 with
  | Some ch, val_pair _ _ => (0 <=? ch) && (ch <=? 3)
  | Some _, _ => false
  | None, val_number _ =>
      match parseInt entry.1 with
      | Some ch => (0 <=? ch) && (ch <=? 15)
      | None => false
      end
  | None, _ => false
  end.

(** The command that an applied entry broadcasts. *)
Definition batch_message (entry : string * BatchValue) : list WSMessageToClient :=
  match xy_match entry.1, entry.2 with
  | Some ch, val_pair x y => [ext_xy_set ch x y]
  | None, val_number v =>
      match parseInt entry.1 with
      | Some ch => [ext_set ch v]
      | None => []
      end
  | _, _ => []
  end.

End Batch.

(** The timer [d] is pending, it is not the one in the scheduler's slot,
    and no other pending timer has its handle. *)
Definition detached (d : Timer) (w : World) : Prop :=
  d ∈ pending (loop w)
  ∧ (tm_id d < nextTimerId (loop w))%nat
  ∧ playbackTimer (sched w) ≠ Some (tm_id d)
  ∧ ∀ t, t ∈ pending (loop w) → tm_id t = tm_id d → t = d.

(** The handles in use are below the next handle. *)
Definition handles_fresh (w : World) : Prop :=
  (∀ t, t ∈ pending (loop w) → (tm_id t < nextTimerId (loop w))%nat)
  ∧ ∀ h, playbackTimer (sched w) = Some h → (h < nextTimerId (loop w))%nat.

(** The detached timer of the flash transition of [chapter], armed in [w]. *)
Definition flash_push (chapter : SetlistChapter) (preset : ShaderPreset) (w : World)
  : Timer :=
  {| tm_id := nextTimerId (loop w);
     tm_due := (clock (loop w) + transition_duration chapter * 1000 / 2)%Q;
     tm_body := delayed_push (code preset) (id preset) |}.

(** A chapter that enters with a flash of one second. *)
Definition flash_chapter : SetlistChapter :=
  {| ch_name := "Drop"; shader := "plasma"; start_time := 0; end_time := 2;
     transition_in := flash; transition_duration := 1;
     params := None; palette := None; audio_bindings := None; automations := None |}.

(** ** osc-bridge.ts and input-tools.ts: the listener *)

Module Bridge.

(** [oscInstance] and [currentPort], with the UDP sockets that are open:
    an instance is known by the order of its creation. *)
Record OscState := {
  oscInstance : option nat;
  currentPort : option Z;
  listening : list (nat * Z);
  created : nat;
}.

Definition initial : OscState :=
  {| oscInstance := None; currentPort := None; listening := []; created := 0 |}.

Definition stopOscBridge (b : OscState) : OscState :=
  match oscInstance b with
  | Some i =>
      {| oscInstance := None; currentPort := None;
         listening := filter (λ s, s.1 ≠ i) (listening b); created := created b |}
  | None => b
  end.

(** The life cycle part of [startOscBridge(broadcastFn, port)]. *)
Definition startOscBridge (port : Z) (b : OscState) : OscState :=
  let b := match oscInstance b with Some _ => stopOscBridge b | None => b end in
  {| oscInstance := Some (created b); currentPort := Some port;
     listening := listening b ++ [(created b, port)]; created := S (created b) |}.

Definition getOscPort (b : OscState) : option Z := currentPort b.

Definition getOscMappings (w : World) : list CustomMapping := customMappings w.

(** The listener after [input_osc_config]: [if (args.port)] restarts it. *)
Definition reconfigured (port : option Z) (b : OscState) : OscState :=
  match port with
  | Some p => if p =? 0 then b else startOscBridge p (stopOscBridge b)
  | None => b
  end.

(** [input_osc_config]; the reply carries the port and the mappings. *)
Definition input_osc_config (port : option Z) (add_mapping : option (string * string))
    (b : OscState) : Eff (OscState * (option Z * list CustomMapping)) :=
  match add_mapping with
  | Some m => addOscMapping m.1 m.2
  | None => mret tt
  end;;
  w ← get;
  mret (reconfigured port b, (getOscPort (reconfigured port b), getOscMappings w)).

(** A sequence of calls that start, stop or configure the listener. *)
Inductive BridgeOp :=
  | op_start (port : Z)
  | op_stop
  | op_config (port : option Z).

Definition bridge_step (b : OscState) (op : BridgeOp) : OscState :=
  match op with
  | op_start port => startOscBridge port b
  | op_stop => stopOscBridge b
  | op_config port => reconfigured port b
  end.

Definition bridge_run (b : OscState) (ops : list BridgeOp) : OscState :=
  foldl bridge_step b ops.

(** At most one socket is open: the one of the instance held, on the
    port that [getOscPort] reports. *)
Definition one_listener (b : OscState) : Prop :=
  match oscInstance b with
  | Some i => ∃ port, currentPort b = Some port ∧ listening b = [(i, port)]
                      ∧ (i < created b)%nat
  | None => currentPort b = None ∧ listening b = []
  end.

End Bridge.

(** A report of the browser, and a second timeline, for the examples. *)
Definition demo_report : RuntimeState := {| currentShader := "preset-9"; fps := 60 |}.


(** ** Setlist tools: status *)



(** * Properties *)

(** ** Unfolding the monad *)

Ltac eff_unfold :=
  unfold exec, outcome, mbind, mret, Eff_bind, Eff_ret, bind, ret, modify,
    get, throw in *.

Ltac eff := eff_unfold; cbn in *.

Lemma nonzero_true (v : number) : nonzero v = true ↔ ¬ (v == 0)%Q.
Proof.
  unfold nonzero. rewrite negb_true_iff.
  split.
  - intros H E. apply Qeq_bool_iff in E. congruence.
  - intros H. destruct (Qeq_bool v 0) eqn:E; [|done].
    apply Qeq_bool_iff in E. contradiction.
Qed.

Lemma num_le_spec (a b : number) : num_le a b = true ↔ (a <= b)%Q.
Proof. apply Qle_bool_iff. Qed.

Lemma num_gt_spec (a b : number) : num_gt a b = true ↔ (b < a)%Q.
Proof.
  unfold num_gt, num_lt. rewrite negb_true_iff.
  split.
  - intros H. apply Qnot_le_lt. intros L. apply Qle_bool_iff in L. congruence.
  - intros H. destruct (Qle_bool a b) eqn:E; [|done].
    apply Qle_bool_iff in E. apply Qlt_not_le in H. contradiction.
Qed.

(** ** The state mirror *)

(** C8. Setting ext channel [i] in 0..15 to [v] succeeds, the snapshot
    then reads [v] at [i] and every other channel, the XY pairs and the bpm
    as before; for an index outside 0..15 the call throws a [RangeError]
    and the world is unchanged. *)
Theorem setExternalInput_snapshot (w : World) (i : Z) (v : number) :
  length (extChannels (srv w)) = 16%nat →
  let w' := exec (setExternalInput i v) w in
  let snapshot := getServerState (srv w') in
  (0 ≤ i ≤ 15 →
     outcome (setExternalInput i v) w = inr tt
     ∧ snap_extChannels snapshot !! Z.to_nat i = Some v
     ∧ (∀ j : nat, j ≠ Z.to_nat i →
          snap_extChannels snapshot !! j = extChannels (srv w) !! j)
     ∧ length (snap_extChannels snapshot) = 16%nat
     ∧ snap_extXY snapshot = extXY (srv w)
     ∧ snap_bpm snapshot = bpm (srv w))
  ∧ (¬ (0 ≤ i ≤ 15) →
     (∃ msg got, outcome (setExternalInput i v) w = inl (RangeError msg got))
     ∧ w' = w).
Proof.
  intros Hlen w' snapshot. subst snapshot w'. unfold setExternalInput.
  split; intros Hi.
  - assert ((i <? 0) || (i >? 15) = false) as ->
      by (apply orb_false_iff; split; lia).
    eff. repeat split.
    + apply list_lookup_insert_eq. lia.
    + intros j Hj. by apply list_lookup_insert_ne.
    + by rewrite length_insert.
  - assert ((i <? 0) || (i >? 15) = true) as ->
      by (apply orb_true_iff; lia).
    eff. split; [by eexists _, _|done].
Qed.

Lemma setExternalInput_snapshot_witness :
  snap_extChannels
    (getServerState (srv (exec (setExternalInput 3 (7 # 10)) initial_world)))
    !! 3%nat = Some (7 # 10)
  ∧ exec (setExternalInput 16 (7 # 10)) initial_world = initial_world.
Proof.
  destruct (setExternalInput_snapshot initial_world 3 (7 # 10) eq_refl) as [Hin _].
  destruct (setExternalInput_snapshot initial_world 16 (7 # 10) eq_refl) as [_ Hout].
  split.
  - apply Hin. lia.
  - apply Hout. lia.
Defined.

(** C7. [setBpm] accepts a value strictly between 0 and 1: the guard
    compares with 0 where its own message (and the schema of the
    [input_set_bpm] tool) says 1. *)
Theorem setBpm_accepts_below_one :
  (1 # 2 < 1)%Q
  ∧ outcome (setBpm (1 # 2)) initial_world = inr tt
  ∧ bpm (srv (exec (setBpm (1 # 2)) initial_world)) = (1 # 2)%Q.
Proof. repeat split. Qed.

(** What the guard of [setBpm] does decide. *)
Lemma setBpm_guard (w : World) (v : number) :
  ((v <= 0)%Q ∨ (999 < v)%Q →
     (∃ msg, outcome (setBpm v) w = inl (RangeError msg v)) ∧ exec (setBpm v) w = w)
  ∧ ((0 < v)%Q ∧ (v <= 999)%Q →
     outcome (setBpm v) w = inr tt
     ∧ bpm (srv (exec (setBpm v) w)) = v
     ∧ clients (srv (exec (setBpm v) w)) = deliver (bpm_set v) (clients (srv w))).
Proof.
  unfold setBpm. split.
  - intros H.
    assert (num_le v 0 || num_gt v 999 = true) as ->.
    { apply orb_true_iff. destruct H; [left; by apply num_le_spec|right; by apply num_gt_spec]. }
    eff. split; [by eexists|done].
  - intros [H1 H2].
    assert (num_le v 0 || num_gt v 999 = false) as ->.
    { apply orb_false_iff. split.
      - destruct (num_le v 0) eqn:E; [|done].
        apply num_le_spec in E. apply Qlt_not_le in H1. contradiction.
      - destruct (num_gt v 999) eqn:E; [|done].
        apply num_gt_spec in E. apply Qlt_not_le in E. contradiction. }
    eff. done.
Qed.

(** ** Join-time synchronisation *)

Lemma filter_none {A} (P : A → Prop) `{∀ x, Decision (P x)} (l : list A) :
  (∀ x, x ∈ l → ¬ P x) → filter P l = [].
Proof.
  induction l as [|x l IH]; intros Hl; [done|].
  rewrite filter_cons. destruct (decide (P x)) as [Hx|_].
  - exfalso. apply (Hl x); [left|done].
  - apply IH. intros y Hy. apply Hl. by right.
Qed.

Lemma filter_all {A} (P : A → Prop) `{∀ x, Decision (P x)} (l : list A) :
  (∀ x, x ∈ l → P x) → filter P l = l.
Proof.
  induction l as [|x l IH]; intros Hl; [done|].
  rewrite filter_cons. destruct (decide (P x)) as [_|Hx].
  - f_equal. apply IH. intros y Hy. apply Hl. by right.
  - exfalso. apply Hx, Hl. left.
Qed.

Lemma sent_to_on_connection (w : World) (id : nat) :
  (∀ ws, ws ∈ clients (srv w) → ws_id ws ≠ id) →
  sent_to id (exec (on_connection id) w) = sendSyncToClient (srv w).
Proof.
  intros Hfresh. unfold sent_to, on_connection. eff.
  rewrite filter_app, (filter_none _ (clients (srv w))) by done.
  cbn. rewrite decide_True by done. cbn. by rewrite app_nil_r.
Qed.

Lemma elem_of_sync_ext (s : Server) (m : WSMessageToClient) :
  m ∈ sync_ext s ↔
  ∃ (i : nat) v, (i < 16)%nat ∧ extChannels s !! i = Some v
                 ∧ nonzero v = true ∧ m = ext_set (Z.of_nat i) v.
Proof.
  unfold sync_ext. rewrite list_elem_of_bind. split.
  - intros (i & Hm & Hi). apply elem_of_seq in Hi.
    destruct (extChannels s !! i) as [v|] eqn:E; [|by apply not_elem_of_nil in Hm].
    destruct (nonzero v) eqn:Hv; [|by apply not_elem_of_nil in Hm].
    apply list_elem_of_singleton in Hm. exists i, v. repeat split; [lia|done..].
  - intros (i & v & Hi & E & Hv & ->). exists i. split.
    + rewrite E, Hv. by apply list_elem_of_singleton.
    + apply elem_of_seq. lia.
Qed.

Lemma elem_of_sync_xy (s : Server) (m : WSMessageToClient) :
  m ∈ sync_xy s ↔
  ∃ (i : nat) x y, (i < 4)%nat ∧ extXY s !! i = Some (x, y)
                   ∧ nonzero x || nonzero y = true ∧ m = ext_xy_set (Z.of_nat i) x y.
Proof.
  unfold sync_xy. rewrite list_elem_of_bind. split.
  - intros (i & Hm & Hi). apply elem_of_seq in Hi.
    destruct (extXY s !! i) as [[x y]|] eqn:E; [|by apply not_elem_of_nil in Hm].
    destruct (nonzero x || nonzero y) eqn:Hv; [|by apply not_elem_of_nil in Hm].
    apply list_elem_of_singleton in Hm. exists i, x, y. repeat split; [lia|done..].
  - intros (i & x & y & Hi & E & Hv & ->). exists i. split.
    + rewrite E, Hv. by apply list_elem_of_singleton.
    + apply elem_of_seq. lia.
Qed.

Lemma elem_of_sync_shader (s : Server) (m : WSMessageToClient) :
  m ∈ sync_shader s ↔
  ∃ c i, currentShaderCode s = Some c ∧ currentShaderId s = Some i
         ∧ c ≠ EmptyString ∧ i ≠ EmptyString ∧ m = shader_push c i.
Proof.
  unfold sync_shader, truthy_str.
  destruct (currentShaderCode s) as [c|], (currentShaderId s) as [i|];
    try (split; [by intros ?%not_elem_of_nil|by intros (? & ? & ? & ? & _)]).
  destruct (String.eqb_spec c EmptyString) as [->|Hc]; cbn.
  { split; [by intros ?%not_elem_of_nil|]. intros (? & ? & [= <-] & _ & ? & _). done. }
  destruct (String.eqb_spec i EmptyString) as [->|Hi]; cbn.
  { split; [by intros ?%not_elem_of_nil|]. intros (? & ? & _ & [= <-] & _ & ? & _). done. }
  rewrite list_elem_of_singleton. split.
  - intros ->. by exists c, i.
  - by intros (? & ? & [= <-] & [= <-] & _ & _ & ->).
Qed.

Lemma NoDup_sync_ext (s : Server) : NoDup (sync_ext s).
Proof.
  unfold sync_ext. apply NoDup_bind; [| |apply NoDup_seq].
  - intros i j m _ _ Hi Hj.
    destruct (extChannels s !! i) as [v|]; [|by apply not_elem_of_nil in Hi].
    destruct (extChannels s !! j) as [v'|]; [|by apply not_elem_of_nil in Hj].
    destruct (nonzero v); [|by apply not_elem_of_nil in Hi].
    destruct (nonzero v'); [|by apply not_elem_of_nil in Hj].
    apply list_elem_of_singleton in Hi, Hj. simplify_eq. lia.
  - intros i _. destruct (extChannels s !! i) as [v|]; [|constructor].
    destruct (nonzero v); [apply NoDup_singleton|constructor].
Qed.

Lemma NoDup_sync_xy (s : Server) : NoDup (sync_xy s).
Proof.
  unfold sync_xy. apply NoDup_bind; [| |apply NoDup_seq].
  - intros i j m _ _ Hi Hj.
    destruct (extXY s !! i) as [[x y]|]; [|by apply not_elem_of_nil in Hi].
    destruct (extXY s !! j) as [[x' y']|]; [|by apply not_elem_of_nil in Hj].
    destruct (nonzero x || nonzero y); [|by apply not_elem_of_nil in Hi].
    destruct (nonzero x' || nonzero y'); [|by apply not_elem_of_nil in Hj].
    apply list_elem_of_singleton in Hi, Hj. simplify_eq. lia.
  - intros i _. destruct (extXY s !! i) as [[x y]|]; [|constructor].
    destruct (nonzero x || nonzero y); [apply NoDup_singleton|constructor].
Qed.

Lemma NoDup_sync_shader (s : Server) : NoDup (sync_shader s).
Proof.
  unfold sync_shader.
  destruct (currentShaderCode s), (currentShaderId s); try constructor.
  destruct (_ && _); [apply NoDup_singleton|constructor].
Qed.

Lemma NoDup_sendSyncToClient (s : Server) : NoDup (sendSyncToClient s).
Proof.
  unfold sendSyncToClient.
  apply NoDup_app; split; [apply NoDup_sync_ext|split].
  { intros m (i & v & _ & _ & _ & ->)%elem_of_sync_ext.
    rewrite !elem_of_app, !list_elem_of_singleton, elem_of_sync_xy, elem_of_sync_shader.
    naive_solver. }
  apply NoDup_app; split; [apply NoDup_sync_xy|split].
  { intros m (i & x & y & _ & _ & _ & ->)%elem_of_sync_xy.
    rewrite !elem_of_app, !list_elem_of_singleton, elem_of_sync_shader.
    naive_solver. }
  apply NoDup_app; split; [apply NoDup_singleton|split].
  { intros m ->%list_elem_of_singleton.
    rewrite !elem_of_app, !list_elem_of_singleton, elem_of_sync_shader.
    naive_solver. }
  apply NoDup_app; split; [apply NoDup_sync_shader|split].
  { intros m (c & i & _ & _ & _ & _ & ->)%elem_of_sync_shader.
    rewrite !elem_of_app, !list_elem_of_singleton. naive_solver. }
  apply NoDup_app; split; [apply NoDup_singleton|split; [|apply NoDup_singleton]].
  intros m ->%list_elem_of_singleton. by rewrite list_elem_of_singleton.
Qed.

Lemma elem_of_sendSyncToClient (s : Server) (m : WSMessageToClient) :
  m ∈ sendSyncToClient s ↔
  m ∈ sync_ext s ∨ m ∈ sync_xy s ∨ m = bpm_set (bpm s) ∨ m ∈ sync_shader s
  ∨ m = palette_set (currentPalette s) ∨ m = get_state.
Proof.
  unfold sendSyncToClient, getCurrentPalette.
  by rewrite !elem_of_app, !list_elem_of_singleton.
Qed.

(** C6. A session that connects is sent, at once, the sync sequence: no
    payload twice; an ext-set for channel [i] exactly when the mirrored
    value of [i] is not 0, carrying that value; an ext-xy-set for pair [i]
    exactly when it is not (0,0); the bpm-set of the current bpm; a shader
    push exactly when a shader code and a shader id are both mirrored
    (and not empty); the palette-set of the current palette; and, last,
    the status request. *)
Theorem sync_sequence_on_connect (w : World) (id : nat) :
  length (extChannels (srv w)) = 16%nat →
  length (extXY (srv w)) = 4%nat →
  (∀ ws, ws ∈ clients (srv w) → ws_id ws ≠ id) →
  let s := srv w in
  let sent := sent_to id (exec (on_connection id) w) in
  NoDup sent
  ∧ (∀ c v, ext_set c v ∈ sent ↔
       ∃ i : nat, c = Z.of_nat i ∧ extChannels s !! i = Some v ∧ ¬ (v == 0)%Q)
  ∧ (∀ c x y, ext_xy_set c x y ∈ sent ↔
       ∃ i : nat, c = Z.of_nat i ∧ extXY s !! i = Some (x, y)
                  ∧ ¬ ((x == 0)%Q ∧ (y == 0)%Q))
  ∧ (∀ b, bpm_set b ∈ sent ↔ b = bpm s)
  ∧ (∀ c i, shader_push c i ∈ sent ↔
       currentShaderCode s = Some c ∧ currentShaderId s = Some i
       ∧ c ≠ EmptyString ∧ i ≠ EmptyString)
  ∧ (∀ p, palette_set p ∈ sent ↔ p = currentPalette s)
  ∧ last sent = Some get_state.
Proof.
  intros Hext Hxy Hfresh s sent. subst sent s.
  rewrite sent_to_on_connection by done.
  split; [apply NoDup_sendSyncToClient|].
  split_and!.
  - intros c v. rewrite elem_of_sendSyncToClient, elem_of_sync_ext,
      elem_of_sync_xy, elem_of_sync_shader. split.
    + intros [(i & v' & _ & E & Hv & [= -> ->])|H]; [|naive_solver].
      exists i. by rewrite <-nonzero_true.
    + intros (i & -> & E & Hv). left. exists i, v.
      apply lookup_lt_Some in E as Hi. rewrite nonzero_true.
      repeat split; [lia|done..].
  - intros c x y. rewrite elem_of_sendSyncToClient, elem_of_sync_ext,
      elem_of_sync_xy, elem_of_sync_shader. split.
    + intros [H|[(i & x' & y' & _ & E & Hv & [= -> -> ->])|H]];
        [naive_solver| |naive_solver].
      exists i. repeat split; [done|].
      intros [Hx Hy]. apply orb_true_iff in Hv. rewrite !nonzero_true in Hv. tauto.
    + intros (i & -> & E & Hv). right; left. exists i, x, y.
      apply lookup_lt_Some in E as Hi. repeat split; [lia|done|].
      apply orb_true_iff. rewrite !nonzero_true.
      destruct (Qeq_dec x 0); [right|left]; tauto.
  - intros b. rewrite elem_of_sendSyncToClient, elem_of_sync_ext,
      elem_of_sync_xy, elem_of_sync_shader. naive_solver.
  - intros c i. rewrite elem_of_sendSyncToClient, elem_of_sync_ext,
      elem_of_sync_xy, elem_of_sync_shader. naive_solver.
  - intros p. rewrite elem_of_sendSyncToClient, elem_of_sync_ext,
      elem_of_sync_xy, elem_of_sync_shader. naive_solver.
  - unfold sendSyncToClient. rewrite !app_assoc. apply last_snoc.
Qed.

Lemma sync_sequence_on_connect_witness :
  let w := exec (setExternalInput 3 (7 # 10);; setBpm 140) initial_world in
  let sent := sent_to 1 (exec (on_connection 1) w) in
  ext_set 3 (7 # 10) ∈ sent ∧ bpm_set 140 ∈ sent ∧ last sent = Some get_state.
Proof.
  intros w sent.
  destruct (sync_sequence_on_connect w 1 eq_refl eq_refl)
    as (_ & Hext & _ & Hbpm & _ & _ & Hlast).
  { intros ws Hws. by apply not_elem_of_nil in Hws. }
  split_and!.
  - apply Hext. exists 3%nat. split_and!; [done..|]. by intros [=].
  - by apply Hbpm.
  - exact Hlast.
Defined.

(** ** Broadcasting *)

Lemma emit_nil (w : World) : emit [] w = w.
Proof. by destruct w as [[] ? ? ? ? ? ?]. Qed.

Lemma emit_app (ms ms' : list WSMessageToClient) (w : World) :
  emit (ms ++ ms') w = emit ms' (emit ms w).
Proof. unfold emit, with_srv, broadcast_all. cbn. by rewrite foldl_app. Qed.

Lemma broadcastToClients_emit (m : WSMessageToClient) (w : World) :
  broadcastToClients m w = (inr tt, emit [m] w).
Proof. done. Qed.

Lemma for_each_broadcast {A} (f : A → WSMessageToClient) (xs : list A) (w : World) :
  for_each xs (λ x, broadcastToClients (f x)) w = (inr tt, emit (f <$> xs) w).
Proof.
  revert w. induction xs as [|x xs IH]; intros w; cbn.
  - by rewrite emit_nil.
  - unfold mbind, Eff_bind, bind. rewrite broadcastToClients_emit, IH.
    by rewrite <-emit_app.
Qed.

(** ** Chapter emission *)

Lemma pushChapter_unresolved (w : World) (chapter : SetlistChapter) (index total : nat) :
  presetsDir w !! safeName (shader chapter) = None →
  pushChapter chapter index total w = (inr tt, w).
Proof. intros H. unfold pushChapter, getPreset. eff. by rewrite H. Qed.

Lemma bind_inr {A B} (m : Eff A) (k : A → Eff B) (w w' : World) (a : A) :
  m w = (inr a, w') → (m ≫= k) w = k a w'.
Proof. intros H. unfold mbind, Eff_bind, bind. by rewrite H. Qed.

Lemma push_shader_step (chapter : SetlistChapter) (preset : ShaderPreset) (w : World) :
  push_shader chapter preset w =
    (inr tt, flash_timer chapter preset (emit (transition_messages chapter preset) w)).
Proof.
  unfold push_shader, flash_timer, transition_messages.
  destruct (transition_in chapter); [| |done];
    by destruct w as [? ? [] ? ? ? ?].
Qed.

Lemma params_step (chapter : SetlistChapter) (w : World) :
  match params chapter with
  | Some ps => for_each ps (λ entry, broadcastToClients (param_set entry.1 entry.2))
  | None => mret tt
  end w
  = (inr tt, emit ((λ entry, param_set entry.1 entry.2) <$> default [] (params chapter)) w).
Proof.
  destruct (params chapter); cbn [default]; [apply for_each_broadcast|].
  by rewrite emit_nil.
Qed.

Lemma palette_step (chapter : SetlistChapter) (w : World) :
  match palette chapter with
  | Some p =>
      broadcastToClients (palette_set
        {| color1 := color1 p; color2 := color2 p; color3 := color3 p; bg := bg p |})
  | None => mret tt
  end w
  = (inr tt, emit match palette chapter with
                  | Some p => [palette_set {| color1 := color1 p; color2 := color2 p;
                                             color3 := color3 p; bg := bg p |}]
                  | None => []
                  end w).
Proof. destruct (palette chapter); [done|by rewrite emit_nil]. Qed.

Lemma bindings_step (chapter : SetlistChapter) (w : World) :
  match audio_bindings chapter with
  | Some bs => for_each bs (λ binding, broadcastToClients (audio_bind binding))
  | None => mret tt
  end w
  = (inr tt, emit (audio_bind <$> default [] (audio_bindings chapter)) w).
Proof.
  destruct (audio_bindings chapter); cbn [default]; [apply for_each_broadcast|].
  by rewrite emit_nil.
Qed.

Lemma automations_step (chapter : SetlistChapter) (w : World) :
  match automations chapter with
  | Some (a :: l) => broadcastToClients (automation (a :: l))
  | _ => mret tt
  end w
  = (inr tt, emit match automations chapter with
                  | Some (a :: l) => [automation (a :: l)]
                  | _ => []
                  end w).
Proof. destruct (automations chapter) as [[|a l]|]; by rewrite ?emit_nil. Qed.

Lemma pushChapter_resolved (w : World) (chapter : SetlistChapter) (index total : nat)
    (preset : ShaderPreset) :
  presetsDir w !! safeName (shader chapter) = Some preset →
  pushChapter chapter index total w =
    (inr tt,
     emit (settings_messages chapter index total)
       (with_srv (set_currentShaderId (Some (id preset)))
          (flash_timer chapter preset (emit (transition_messages chapter preset) w)))).
Proof.
  intros H. unfold pushChapter.
  rewrite (bind_inr _ _ w w (Some preset)) by (unfold getPreset; eff; by rewrite H).
  erewrite bind_inr by apply push_shader_step.
  erewrite bind_inr by reflexivity.
  erewrite bind_inr by apply params_step.
  erewrite bind_inr by apply palette_step.
  erewrite bind_inr by apply bindings_step.
  erewrite bind_inr by apply automations_step.
  rewrite broadcastToClients_emit.
  unfold settings_messages. by rewrite !emit_app.
Qed.

Lemma clients_emit (ms : list WSMessageToClient) (w : World) :
  clients (srv (emit ms w)) = broadcast_all ms (clients (srv w)).
Proof. done. Qed.




(** ** The chapter-advance timer *)

(** C3. After [load], [play], [play] two chapter-advance timers are armed
    while the timeline plays unpaused: [setlist_play] arms a timer without
    the [clearPlayback] that [setlist_load], [setlist_pause],
    [setlist_jump] and [setlist_delete] all call, and the slot only
    remembers the second timer.  A jump in the same situation leaves one
    timer. *)
Theorem play_twice_arms_two_timers :
  activeSetlist (sched played_twice) = Some demo_setlist
  ∧ isPaused (sched played_twice) = false
  ∧ active (setlistPlayback (srv played_twice)) = true
  ∧ tm_id <$> advance_timers played_twice = [1; 2]%nat
  ∧ playbackTimer (sched played_twice) = Some 2%nat
  ∧ tm_id <$> advance_timers played_then_jumped = [2]%nat.
Proof. repeat split. Qed.

Lemma truthy_num_Some (t : number) : truthy_num (Some t) = nonzero t.
Proof. done. Qed.

Lemma clearPlayback_world (w : World) : clearPlayback w = (inr tt, cancel_playback w).
Proof.
  unfold clearPlayback, cancel_playback, clearTimeout. eff_unfold.
  destruct w as [? [? [h|] ? ? ? ?] [] ? ? ? ?]; reflexivity.
Qed.

Lemma setTimeout_world (callback : TimerBody) (delay : number) (w : World) :
  setTimeout callback delay w = (inr (nextTimerId (loop w)), arm callback delay w).
Proof. done. Qed.

Lemma scheduleNextChapter_arms (w : World) (sl : Setlist) (ch : SetlistChapter) :
  activeSetlist (sched w) = Some sl →
  isPaused (sched w) = false →
  chapters sl !! currentChapterIndex (sched w) = Some ch →
  (currentChapterIndex (sched w) + 1 < length (chapters sl))%nat →
  scheduleNextChapter w =
    (inr tt,
     with_sched (set_playbackTimer (Some (nextTimerId (loop w))))
       (arm (advance_chapter (currentChapterIndex (sched w) + 1))
            (remaining_of ch (pauseOffset (sched w))) w)).
Proof.
  intros Hsl Hp Hch Hnext. unfold scheduleNextChapter.
  rewrite (bind_inr get _ w w w eq_refl). rewrite Hsl, Hp.
  destruct (Nat.leb_spec (length (chapters sl)) (currentChapterIndex (sched w) + 1));
    [lia|].
  unfold chapter_at. rewrite Hch.
  erewrite bind_inr by reflexivity.
  erewrite bind_inr by apply setTimeout_world.
  reflexivity.
Qed.

Lemma scheduleNextChapter_ends (w : World) (sl : Setlist) :
  activeSetlist (sched w) = Some sl →
  isPaused (sched w) = false →
  (length (chapters sl) ≤ currentChapterIndex (sched w) + 1)%nat →
  scheduleNextChapter w =
    (inr tt,
     with_srv (λ s, set_setlistPlayback (assign (setlistPlayback s) (only_active false)) s) w).
Proof.
  intros Hsl Hp Hnext. unfold scheduleNextChapter.
  rewrite (bind_inr get _ w w w eq_refl). rewrite Hsl, Hp.
  destruct (Nat.leb_spec (length (chapters sl)) (currentChapterIndex (sched w) + 1));
    [done|lia].
Qed.

Lemma scheduleNextChapter_idle (w : World) :
  activeSetlist (sched w) = None ∨ isPaused (sched w) = true →
  scheduleNextChapter w = (inr tt, w).
Proof.
  intros H. unfold scheduleNextChapter.
  rewrite (bind_inr get _ w w w eq_refl).
  destruct (activeSetlist (sched w)); [|done].
  destruct H as [H|H]; [done|by rewrite H].
Qed.

Lemma setlist_pause_world (w : World) (sl : Setlist) (ch : SetlistChapter)
    (started : number) :
  activeSetlist (sched w) = Some sl →
  isPaused (sched w) = false →
  playbackStartedAt (sched w) = Some started →
  nonzero started = true →
  chapters sl !! currentChapterIndex (sched w) = Some ch →
  SetlistTools.setlist_pause w =
    (inr (mcpText (status_paused (ch_name ch) (currentChapterIndex (sched w)))),
     with_srv (λ s, set_setlistPlayback (assign (setlistPlayback s) (only_active false)) s)
       (with_sched (λ s, set_pauseOffset
                           (pauseOffset s + (clock (loop w) - started))%Q s)
          (cancel_playback (with_sched (set_isPaused true) w)))).
Proof.
  intros Hsl Hp Hst Hnz Hch. unfold SetlistTools.setlist_pause.
  rewrite (bind_inr get _ w w w eq_refl). rewrite Hsl, Hp.
  erewrite bind_inr by reflexivity.
  erewrite bind_inr by apply clearPlayback_world.
  rewrite Hst, truthy_num_Some, Hnz.
  erewrite bind_inr.
  2:{ erewrite bind_inr by reflexivity. reflexivity. }
  erewrite bind_inr by reflexivity.
  unfold chapter_at. rewrite Hch.
  erewrite bind_inr by reflexivity.
  unfold mret, Eff_ret, ret, with_srv, with_sched, cancel_playback. cbn.
  by rewrite Hst.
Qed.


Lemma exec_at_time {A} (t : number) (m : Eff A) (w : World) :
  (at_time t;; m) w = m (exec (at_time t) w).
Proof. done. Qed.



(** ** Loading and deleting a timeline *)








(** ** Audio bindings *)

Lemma findIndex_remove (t : string) (l : list AudioBinding) :
  NoDup (target <$> l) →
  match findIndex (λ b, String.eqb (target b) t) l with
  | Some i => delete i l
  | None => l
  end = without_target t l.
Proof.
  unfold without_target.
  induction l as [|x l IH]; intros Hnd; [done|].
  apply NoDup_cons in Hnd as [Hx Hnd]. cbn [findIndex]. rewrite filter_cons.
  destruct (String.eqb_spec (target x) t) as [E|E].
  - rewrite decide_False by (by intros ?). cbn. symmetry. apply filter_all.
    intros b Hb Eb. apply Hx. rewrite E, <-Eb. by apply list_elem_of_fmap_2.
  - rewrite decide_True by done. specialize (IH Hnd).
    destruct (findIndex _ l) as [i|]; by rewrite <-IH.
Qed.

Lemma NoDup_without_target_snoc (b : AudioBinding) (l : list AudioBinding) :
  NoDup (target <$> l) →
  NoDup (target <$> without_target (target b) l ++ [b]).
Proof.
  intros Hnd. rewrite fmap_app. apply NoDup_app. split_and!.
  - eapply sublist_NoDup; [exact Hnd|]. apply fmap_sublist, sublist_filter.
  - intros t (b' & -> & Hb')%list_elem_of_fmap Ht.
    apply list_elem_of_filter in Hb' as [Hne _].
    apply list_elem_of_singleton in Ht. done.
  - apply NoDup_singleton.
Qed.

Lemma audio_bind_world (args : AudioBinding) (w : World) :
  NoDup (target <$> activeBindings w) →
  let bindings := without_target (target args) (activeBindings w) ++ [args] in
  AudioTools.audio_bind args w =
    (inr (mcpText (status_bound args (length bindings))),
     emit [audio_bind args]
       (with_srv (set_audioBindings bindings)
          (with_activeBindings (λ _, bindings) w))).
Proof.
  intros Hnd bindings. unfold AudioTools.audio_bind.
  rewrite (bind_inr get _ w w w eq_refl).
  assert ({| source := source args; target := target args;
             multiplier := multiplier args; offset := offset args;
             smoothing := smoothing args |} = args) as -> by (by destruct args).
  erewrite bind_inr with
    (w' := with_activeBindings (λ _, without_target (target args) (activeBindings w)) w).
  2:{ rewrite <-(findIndex_remove _ _ Hnd).
      destruct (findIndex _ (activeBindings w)); [done|]. by destruct w. }
  do 2 (erewrite bind_inr by reflexivity).
  reflexivity.
Qed.

Lemma audio_unbind_bindings (t : string) (w : World) :
  NoDup (target <$> activeBindings w) →
  audioBindings (srv w) = activeBindings w →
  activeBindings (exec (AudioTools.audio_unbind t) w) = without_target t (activeBindings w)
  ∧ audioBindings (srv (exec (AudioTools.audio_unbind t) w))
    = without_target t (activeBindings w).
Proof.
  intros Hnd Hmirror. unfold exec, AudioTools.audio_unbind.
  rewrite (bind_inr get _ w w w eq_refl).
  rewrite <-(findIndex_remove _ _ Hnd).
  destruct (findIndex _ (activeBindings w)); [done|].
  cbn. by rewrite Hmirror.
Qed.

Lemma audio_run_invariant (w0 : World) (ops : list AudioOp) :
  NoDup (target <$> activeBindings w0) →
  audioBindings (srv w0) = activeBindings w0 →
  NoDup (target <$> activeBindings (audio_run w0 ops))
  ∧ audioBindings (srv (audio_run w0 ops)) = activeBindings (audio_run w0 ops).
Proof.
  revert w0. induction ops as [|op ops IH]; intros w0 Hnd Hmirror; [done|].
  cbn [audio_run foldl]. apply IH; destruct op as [args|t]; cbn [audio_step].
  - unfold exec. rewrite audio_bind_world by done. cbn.
    by apply NoDup_without_target_snoc.
  - destruct (audio_unbind_bindings t w0 Hnd Hmirror) as [-> _].
    eapply sublist_NoDup; [exact Hnd|]. apply fmap_sublist, sublist_filter.
  - unfold exec. by rewrite audio_bind_world by done.
  - by destruct (audio_unbind_bindings t w0 Hnd Hmirror) as [-> ->].
Qed.

(** C9. From an empty registry, after any sequence of [audio_bind] and
    [audio_unbind] calls the mirrored bindings have pairwise distinct
    targets; a further [audio_bind] leaves the other targets' bindings in
    place, drops the binding of its target if there is one, appends the
    new binding as given, and broadcasts one [audio_bind] command with
    it to every open session. *)
Theorem audio_bindings_unique_by_target
    (w0 : World) (ops : list AudioOp) (args : AudioBinding) :
  activeBindings w0 = [] →
  audioBindings (srv w0) = [] →
  let w := audio_run w0 ops in
  let w' := exec (AudioTools.audio_bind args) w in
  NoDup (target <$> audioBindings (srv w))
  ∧ audioBindings (srv w') = without_target (target args) (audioBindings (srv w)) ++ [args]
  ∧ NoDup (target <$> audioBindings (srv w'))
  ∧ (∀ b, b ∈ audioBindings (srv w') → target b = target args → b = args)
  ∧ clients (srv w') = deliver (audio_bind args) (clients (srv w)).
Proof.
  intros Hreg Hmir w w'.
  destruct (audio_run_invariant w0 ops) as [Hnd Hsame].
  { rewrite Hreg. constructor. }
  { by rewrite Hreg, Hmir. }
  fold w in Hnd, Hsame. subst w'. clearbody w.
  unfold exec. rewrite audio_bind_world by done. cbn. rewrite Hsame.
  split_and!; [done|done| |  |done].
  - by apply NoDup_without_target_snoc.
  - intros b [Hb|Hb]%elem_of_app Ht.
    + by apply list_elem_of_filter in Hb as [? _].
    + by apply list_elem_of_singleton in Hb.
Qed.

Lemma audio_bindings_unique_by_target_witness :
  audioBindings
    (srv (audio_run demo_world [op_bind (bass_binding 1); op_bind (bass_binding 2)]))
    = [bass_binding 2]
  ∧ sent_to 1 (audio_run demo_world [op_bind (bass_binding 1); op_bind (bass_binding 2)])
    = [audio_bind (bass_binding 1); audio_bind (bass_binding 2)].
Proof.
  destruct (audio_bindings_unique_by_target demo_world [op_bind (bass_binding 1)]
              (bass_binding 2) eq_refl eq_refl) as (_ & Hbind & _ & _ & Hsent).
  split.
  - etrans; [exact Hbind|reflexivity].
  - unfold sent_to.
    change (audio_run demo_world [op_bind (bass_binding 1); op_bind (bass_binding 2)])
      with (exec (AudioTools.audio_bind (bass_binding 2))
              (audio_run demo_world [op_bind (bass_binding 1)])).
    rewrite Hsent. reflexivity.
Defined.

(** ** The OSC bridge *)

Lemma custom_loop_world (message : OscMessage) (mappings : list CustomMapping) (w : World) :
  custom_loop broadcastToClients message mappings w =
    (inr tt, emit (custom_messages message mappings) w).
Proof.
  revert w. induction mappings as [|mapping rest IH]; intros w;
    cbn [custom_loop custom_messages].
  - by rewrite emit_nil.
  - destruct (String.eqb _ _); [|done].
    destruct (ext_match _); [done|].
    rewrite (bind_inr _ _ w (emit [param_set (cm_target mapping)
                                     (arg_or (args message) 0 0)] w) tt) by done.
    rewrite IH. by rewrite <-emit_app.
Qed.

Lemma fixed_handler_runs (a : FixedAddress) (args : list number) (w : World) :
  in_scheme a →
  for_each
    (filter (λ h, h.1 = address_of a) (fixed_handlers broadcastToClients))
    (λ h, h.2 {| address := address_of a; args := args |}) w
  = (inr tt, emit [decoded a args] w).
Proof.
  destruct a as [i|i|]; cbn [in_scheme]; intros Hi.
  - do 16 (destruct i as [|i]; [by vm_compute|]). lia.
  - do 4 (destruct i as [|i]; [by vm_compute|]). lia.
  - by vm_compute.
Qed.

(** C1, as the code has it. An OSC message on a fixed-scheme address for
    an ext channel, an XY pair or the bpm is decoded and broadcast to the
    open sessions (followed by the commands of the custom mappings for that
    address, if any); the state mirror is not written, so the sync
    sequence of a session that connects later is what it was before the
    message. *)
Theorem osc_fixed_address_is_broadcast_only
    (w : World) (a : FixedAddress) (args : list number) :
  in_scheme a →
  let message := {| address := address_of a; args := args |} in
  let w' := exec (osc_receive message) w in
  outcome (osc_receive message) w = inr tt
  ∧ clients (srv w') =
      broadcast_all (decoded a args :: custom_messages message (customMappings w))
                    (clients (srv w))
  ∧ mirror w' = mirror w
  ∧ sendSyncToClient (srv w') = sendSyncToClient (srv w).
Proof.
  intros Ha message w'.
  assert (osc_receive message w =
          (inr tt, emit (decoded a args :: custom_messages message (customMappings w)) w))
    as Hrun.
  { unfold osc_receive, startOscBridge.
    erewrite bind_inr by (by apply fixed_handler_runs).
    unfold wildcard_handler. erewrite bind_inr by reflexivity.
    rewrite custom_loop_world. by rewrite <-(emit_app [decoded a args]). }
  subst w'. unfold exec, outcome. rewrite Hrun. by split_and!.
Qed.

Lemma osc_fixed_address_is_broadcast_only_witness :
  sent_to 1 (exec (osc_receive fader_message) demo_world) = [ext_set 3 (7 # 10)]
  ∧ mirror (exec (osc_receive fader_message) demo_world) = mirror demo_world.
Proof.
  destruct (osc_fixed_address_is_broadcast_only demo_world (addr_ext 3) [7 # 10])
    as (_ & Hsent & Hmirror & _).
  { cbn. lia. }
  split; [|exact Hmirror].
  unfold sent_to. change fader_message with
    {| address := address_of (addr_ext 3); args := [7 # 10] |}.
  rewrite Hsent. reflexivity.
Defined.

(** C1, as stated, fails: the OSC message sets ext channel 3 to 0.7, the
    session that listens is sent the value, the mirror still holds 0 for
    the channel, and the session that connects afterwards is not sent the
    value. *)
Lemma osc_value_is_not_mirrored :
  sent_to 1 osc_then_join = [ext_set 3 (7 # 10)]
  ∧ extChannels (srv osc_then_join) !! 3%nat = Some 0%Q
  ∧ (ext_set 3 (7 # 10) ∉ sent_to 2 osc_then_join).
Proof.
  assert (sent_to 2 osc_then_join
          = [bpm_set 120; palette_set (currentPalette initial_server); get_state]) as ->
    by reflexivity.
  split_and!; [reflexivity..|].
  intros H. repeat (apply elem_of_cons in H as [H|H]; [discriminate|]).
  by apply not_elem_of_nil in H.
Qed.

(** ** The timer slot under the other operations

    Every callback except [setlist_play] keeps the slot discipline, and
    [setlist_play] keeps it when no chapter-advance timer is armed. *)

Lemma hoare_bind {A B} (P R Q : World → Prop) (m : Eff A) (k : A → Eff B) :
  hoare P m R → (∀ w, R w → Q w) → (∀ a, hoare R (k a) Q) → hoare P (m ≫= k) Q.
Proof.
  intros Hm HRQ Hk w HP. specialize (Hm w HP). unfold hoare, exec in *.
  unfold mbind, Eff_bind, bind. destruct (m w) as [[e|a] w1]; cbn in *.
  - by apply HRQ.
  - by apply Hk.
Qed.

Lemma hoare_inv {A B} (P : World → Prop) (m : Eff A) (k : A → Eff B) :
  hoare P m P → (∀ a, hoare P (k a) P) → hoare P (m ≫= k) P.
Proof. intros Hm Hk. by apply (hoare_bind P P P). Qed.

Lemma hoare_ret {A} (P : World → Prop) (a : A) : hoare P (mret a) P.
Proof. by intros w HP. Qed.

Lemma hoare_throw {A} (P : World → Prop) (e : JsError) : hoare P (@throw A e) P.
Proof. by intros w HP. Qed.

Lemma hoare_get (P : World → Prop) : hoare P get P.
Proof. by intros w HP. Qed.

Lemma hoare_modify (P Q : World → Prop) (f : World → World) :
  (∀ w, P w → Q (f w)) → hoare P (modify f) Q.
Proof. intros H w HP. by apply H. Qed.


Lemma hoare_for_each {A} (P : World → Prop) (xs : list A) (body : A → Eff unit) :
  (∀ x, x ∈ xs → hoare P (body x) P) → hoare P (for_each xs body) P.
Proof.
  induction xs as [|x xs IH]; intros Hbody; cbn [for_each]; [apply hoare_ret|].
  apply hoare_inv; [apply Hbody; left|].
  intros _. apply IH. intros y Hy. apply Hbody. by right.
Qed.


Lemma hoare_broadcast (P : World → Prop) (m : WSMessageToClient) :
  (∀ w ms, P w → P (emit ms w)) → hoare P (broadcastToClients m) P.
Proof. intros H w HP. apply (H w [m] HP). Qed.

Lemma quiet_emit (w : World) (ms : list WSMessageToClient) : quiet w → quiet (emit ms w).
Proof. done. Qed.









Lemma hoare_chapter_at (P : World → Prop) (sl : Setlist) (i : nat) :
  hoare P (chapter_at sl i) P.
Proof. unfold chapter_at. destruct (chapters sl !! i); [apply hoare_ret|apply hoare_throw]. Qed.









Lemma hoare_fixed_handler (P : World → Prop) (h : string * (OscMessage → Eff unit))
    (message : OscMessage) :
  (∀ w ms, P w → P (emit ms w)) →
  h ∈ fixed_handlers broadcastToClients →
  hoare P (h.2 message) P.
Proof.
  intros HP Hh. unfold fixed_handlers in Hh.
  repeat (apply elem_of_app in Hh as [Hh|Hh]);
    try (apply list_elem_of_fmap in Hh as (i & -> & _); by apply hoare_broadcast);
    repeat (apply elem_of_cons in Hh as [->|Hh]; [by apply hoare_broadcast|]);
    by apply not_elem_of_nil in Hh.
Qed.

Lemma hoare_osc_receive (P : World → Prop) (message : OscMessage) :
  (∀ w ms, P w → P (emit ms w)) →
  hoare P (osc_receive message) P.
Proof.
  intros HP. unfold osc_receive, startOscBridge. apply hoare_inv.
  - apply hoare_for_each. intros h [_ Hh]%list_elem_of_filter.
    by apply hoare_fixed_handler.
  - intros _. unfold wildcard_handler. apply hoare_inv; [by intros ? ?|]. intros w0.
    intros w Hw. unfold exec. rewrite custom_loop_world. by apply HP.
Qed.





(** * Further properties *)

(** ** Sessions and broadcasts *)

Lemma ids_deliver (m : WSMessageToClient) (cs : list WebSocket) :
  ws_id <$> deliver m cs = ws_id <$> cs.
Proof.
  unfold deliver. rewrite <-list_fmap_compose. apply list_fmap_ext.
  intros _ ws _. cbn. by destruct (ws_open ws).
Qed.

Lemma filter_id_deliver (id : nat) (m : WSMessageToClient) (cs : list WebSocket) :
  filter (λ ws, ws_id ws = id) (deliver m cs)
  = deliver m (filter (λ ws, ws_id ws = id) cs).
Proof.
  induction cs as [|c cs IH]; [done|].
  unfold deliver in *. rewrite fmap_cons, !filter_cons.
  assert (ws_id (if ws_open c then ws_send m c else c) = ws_id c) as ->
    by by destruct (ws_open c).
  destruct (decide (ws_id c = id)); [|done].
  by rewrite fmap_cons, IH.
Qed.

Lemma filter_id_broadcast_all (id : nat) (ms : list WSMessageToClient)
    (cs : list WebSocket) :
  filter (λ ws, ws_id ws = id) (broadcast_all ms cs)
  = broadcast_all ms (filter (λ ws, ws_id ws = id) cs).
Proof.
  revert cs. induction ms as [|m ms IH]; intros cs; [done|].
  unfold broadcast_all in *. cbn. by rewrite IH, filter_id_deliver.
Qed.

Lemma broadcast_all_singleton (ms : list WSMessageToClient) (ws : WebSocket) :
  broadcast_all ms [ws]
  = [{| ws_id := ws_id ws; ws_open := ws_open ws;
        ws_sent := if ws_open ws then ws_sent ws ++ ms else ws_sent ws |}].
Proof.
  revert ws. induction ms as [|m ms IH]; intros [i o s].
  - cbn. destruct o; by rewrite ?app_nil_r.
  - unfold broadcast_all in *. cbn [foldl deliver fmap list_fmap].
    destruct o; cbn [ws_open ws_send ws_id ws_sent].
    + rewrite IH. cbn. by rewrite <-app_assoc.
    + by rewrite IH.
Qed.

Lemma ids_broadcast_all (ms : list WSMessageToClient) (cs : list WebSocket) :
  ws_id <$> broadcast_all ms cs = ws_id <$> cs.
Proof.
  revert cs. induction ms as [|m ms IH]; intros cs; [done|].
  unfold broadcast_all in *. cbn. by rewrite IH, ids_deliver.
Qed.

Lemma mirror_emit (ms : list WSMessageToClient) (w : World) : mirror (emit ms w) = mirror w.
Proof. done. Qed.

Lemma for_each_emit (ms : list WSMessageToClient) (w : World) :
  for_each ms broadcastToClients w = (inr tt, emit ms w).
Proof.
  rewrite <-(list_fmap_id ms) at 2. apply (for_each_broadcast (λ m, m)).
Qed.

Lemma emit_no_clients (ms : list WSMessageToClient) (w : World) :
  clients (srv w) = [] → emit ms w = w.
Proof.
  intros H. destruct w as [[] ? ? ? ? ? ?]. cbn in *. subst.
  unfold emit, with_srv, set_clients. cbn.
  assert (broadcast_all ms [] = []) as ->; [|done].
  induction ms; [done|]. done.
Qed.

(** X1. Commands broadcast one after the other reach a connected session in
    that order, appended to what it was sent before, when its socket is
    open, and not at all when it is not; a broadcast neither adds nor
    removes sessions, does not write the state mirror, and with no session
    connected it changes nothing. *)
Theorem broadcasts_arrive_in_order (w : World) (ms : list WSMessageToClient) :
  let w' := exec (for_each ms broadcastToClients) w in
  outcome (for_each ms broadcastToClients) w = inr tt
  ∧ (∀ ws, filter (λ c, ws_id c = ws_id ws) (clients (srv w)) = [ws] →
       sent_to (ws_id ws) w' = if ws_open ws then ws_sent ws ++ ms else ws_sent ws)
  ∧ ws_id <$> clients (srv w') = ws_id <$> clients (srv w)
  ∧ mirror w' = mirror w
  ∧ (clients (srv w) = [] → w' = w).
Proof.
  intros w'. subst w'. unfold exec, outcome. rewrite for_each_emit. cbn [fst snd].
  split_and!; [done| |apply ids_broadcast_all|done|apply emit_no_clients].
  intros ws Hws. unfold sent_to. rewrite clients_emit, filter_id_broadcast_all, Hws.
  rewrite broadcast_all_singleton. cbn. by rewrite app_nil_r.
Qed.

Lemma broadcasts_arrive_in_order_witness :
  sent_to 1 (exec (for_each [bpm_set 120; get_state] broadcastToClients) demo_world)
  = [bpm_set 120; get_state].
Proof.
  destruct (broadcasts_arrive_in_order demo_world [bpm_set 120; get_state]) as (_ & H & _).
  exact (H listener eq_refl).
Defined.

Lemma filter_filter_ne (id : nat) (cs : list WebSocket) :
  filter (λ ws, ws_id ws = id) (filter (λ ws, ws_id ws ≠ id) cs) = [].
Proof.
  apply filter_none. intros x Hx. apply list_elem_of_filter in Hx as [Hx _]. done.
Qed.

Lemma filter_filter_other (id j : nat) (cs : list WebSocket) :
  j ≠ id →
  filter (λ ws, ws_id ws = j) (filter (λ ws, ws_id ws ≠ id) cs)
  = filter (λ ws, ws_id ws = j) cs.
Proof.
  intros Hj. induction cs as [|c cs IH]; [done|].
  rewrite !filter_cons.
  destruct (decide (ws_id c ≠ id)) as [Hc|Hc].
  - rewrite filter_cons. destruct (decide (ws_id c = j)); by rewrite IH.
  - rewrite IH. destruct (decide (ws_id c = j)) as [E|]; [|done].
    exfalso. apply Hc. congruence.
Qed.

Lemma broadcast_all_nil (ms : list WSMessageToClient) : broadcast_all ms [] = [].
Proof. induction ms; [done|]. done. Qed.

(** X2. Once the socket of a session has closed, the session is no longer
    in the client set and no later broadcast reaches it; what the other
    sessions were sent, and the state mirror, are untouched.  A session
    that connects and closes leaves the process as it was. *)
Theorem closed_session_gets_nothing (w : World) (id : nat) (ms : list WSMessageToClient) :
  let w1 := exec (on_close id) w in
  sent_to id (exec (for_each ms broadcastToClients) w1) = []
  ∧ (∀ ws, ws ∈ clients (srv w1) ↔ ws ∈ clients (srv w) ∧ ws_id ws ≠ id)
  ∧ (∀ j, j ≠ id → sent_to j w1 = sent_to j w)
  ∧ mirror w1 = mirror w
  ∧ ((∀ ws, ws ∈ clients (srv w) → ws_id ws ≠ id) →
       exec (on_close id) (exec (on_connection id) w) = w).
Proof.
  intros w1. subst w1. unfold exec at 1. rewrite for_each_emit. cbn [snd].
  split_and!.
  - unfold sent_to. rewrite clients_emit, filter_id_broadcast_all.
    unfold on_close. eff. by rewrite filter_filter_ne, broadcast_all_nil.
  - intros ws. unfold on_close. eff. by rewrite list_elem_of_filter, (comm and).
  - intros j Hj. unfold sent_to, on_close. eff. by rewrite filter_filter_other.
  - done.
  - intros Hfresh. unfold on_close, on_connection. eff.
    destruct w as [[] ? ? ? ? ? ?]. cbn in *.
    unfold with_srv, set_clients. cbn. do 2 f_equal.
    rewrite filter_app, filter_all by done. cbn.
    rewrite decide_False by (intros H; by apply H). by rewrite app_nil_r.
Qed.

Lemma closed_session_gets_nothing_witness :
  exec (on_close 2) (exec (on_connection 2) demo_world) = demo_world.
Proof.
  destruct (closed_session_gets_nothing demo_world 2 []) as (_ & _ & _ & _ & H).
  apply H. intros ws Hws.
  change (clients (srv demo_world)) with [listener] in Hws.
  apply list_elem_of_singleton in Hws. rewrite Hws. discriminate.
Defined.

(** X3. An XY pair set on a channel in 0..3 is stored for that channel
    only, leaves the ext channels and the bpm as they were, and is
    broadcast; a session that connects afterwards is sent the pair exactly
    when it is not (0, 0).  For a channel outside 0..3 the call throws a
    [RangeError] and changes nothing. *)
Theorem setExternalXY_frame (w : World) (i : Z) (x y : number) :
  length (extXY (srv w)) = 4%nat →
  let w' := exec (setExternalXY i x y) w in
  (0 ≤ i ≤ 3 →
     outcome (setExternalXY i x y) w = inr tt
     ∧ extXY (srv w') !! Z.to_nat i = Some (x, y)
     ∧ (∀ j : nat, j ≠ Z.to_nat i → extXY (srv w') !! j = extXY (srv w) !! j)
     ∧ extChannels (srv w') = extChannels (srv w)
     ∧ bpm (srv w') = bpm (srv w)
     ∧ clients (srv w') = deliver (ext_xy_set i x y) (clients (srv w))
     ∧ (ext_xy_set i x y ∈ sendSyncToClient (srv w') ↔ ¬ ((x == 0)%Q ∧ (y == 0)%Q)))
  ∧ (¬ (0 ≤ i ≤ 3) →
     (∃ msg, outcome (setExternalXY i x y) w = inl (RangeError msg (inject_Z i)))
     ∧ w' = w).
Proof.
  intros Hlen w'. subst w'. unfold setExternalXY.
  split; intros Hi.
  - assert ((i <? 0) || (i >? 3) = false) as ->
      by (apply orb_false_iff; split; lia).
    assert (extXY (srv (exec
              (modify (with_srv (λ s,
                 set_extXY (<[Z.to_nat i := (x, y)]> (extXY s)) s));;
               broadcastToClients (ext_xy_set i x y)) w)) !! Z.to_nat i = Some (x, y))
      as Hset by (eff; apply list_lookup_insert_eq; lia).
    split_and!; try done.
    + intros j Hj. eff. by apply list_lookup_insert_ne.
    + rewrite elem_of_sendSyncToClient.
      split.
      * intros [H|[H|[H|[H|[H|H]]]]]; try discriminate.
        -- apply elem_of_sync_ext in H as (? & ? & _ & _ & _ & ?). discriminate.
        -- apply elem_of_sync_xy in H as (k & x' & y' & _ & Hk & Hnz & E).
           injection E as Ek -> ->. apply Nat2Z.inj in Ek || idtac.
           assert (k = Z.to_nat i) as -> by lia.
           apply orb_true_iff in Hnz. intros [Hx Hy].
           destruct Hnz as [Hnz|Hnz]; apply nonzero_true in Hnz; contradiction.
        -- apply elem_of_sync_shader in H as (? & ? & _ & _ & _ & _ & ?). discriminate.
      * intros Hnz. right. left. apply elem_of_sync_xy.
        exists (Z.to_nat i), x, y. split_and!.
        -- lia.
        -- done.
        -- apply orb_true_iff.
           destruct (nonzero x) eqn:Ex; [by left|right].
           apply nonzero_true. intros Hy. apply Hnz. split; [|done].
           destruct (Qeq_dec x 0) as [E|E]; [done|].
           apply nonzero_true in E. congruence.
        -- f_equal. lia.
  - assert ((i <? 0) || (i >? 3) = true) as ->
      by (apply orb_true_iff; lia).
    eff. split; [by eexists|done].
Qed.

Lemma setExternalXY_frame_witness :
  extXY (srv (exec (setExternalXY 2 (1 # 2) 0) initial_world)) !! 2%nat = Some (1 # 2, 0)%Q
  ∧ exec (setExternalXY 4 (1 # 2) 0) initial_world = initial_world.
Proof.
  destruct (setExternalXY_frame initial_world 2 (1 # 2) 0 eq_refl) as [Hin _].
  destruct (setExternalXY_frame initial_world 4 (1 # 2) 0 eq_refl) as [_ Hout].
  split.
  - apply Hin. lia.
  - apply Hout. lia.
Defined.

(** X4. A bpm inside the guard of [setBpm] is stored and broadcast, and a
    session that connects afterwards is sent that bpm and no other; a bpm
    that the guard rejects changes nothing. *)
Theorem setBpm_then_join (w : World) (v : number) :
  let w' := exec (setBpm v) w in
  ((0 < v)%Q ∧ (v <= 999)%Q →
     outcome (setBpm v) w = inr tt
     ∧ clients (srv w') = deliver (bpm_set v) (clients (srv w))
     ∧ extChannels (srv w') = extChannels (srv w)
     ∧ extXY (srv w') = extXY (srv w)
     ∧ ∀ b, bpm_set b ∈ sendSyncToClient (srv w') ↔ b = v)
  ∧ ((v <= 0)%Q ∨ (999 < v)%Q →
     (∃ msg, outcome (setBpm v) w = inl (RangeError msg v)) ∧ w' = w).
Proof.
  intros w'. subst w'. split.
  - intros Hv. destruct (setBpm_guard w v) as [_ Hok].
    destruct (Hok Hv) as (Hout & Hbpm & Hcl). clear Hok.
    assert (extChannels (srv (exec (setBpm v) w)) = extChannels (srv w)
            ∧ extXY (srv (exec (setBpm v) w)) = extXY (srv w)) as [He Hx].
    { unfold setBpm. destruct (num_le v 0 || num_gt v 999); by eff. }
    split_and!; try done.
    intros b. rewrite elem_of_sendSyncToClient, Hbpm. split.
    + intros [H|[H|[H|[H|[H|H]]]]]; try discriminate.
      * apply elem_of_sync_ext in H as (? & ? & _ & _ & _ & ?). discriminate.
      * apply elem_of_sync_xy in H as (? & ? & ? & _ & _ & _ & ?). discriminate.
      * congruence.
      * apply elem_of_sync_shader in H as (? & ? & _ & _ & _ & _ & ?). discriminate.
    + intros ->. by right; right; left.
  - intros Hv. destruct (setBpm_guard w v) as [Hbad _]. by apply Hbad.
Qed.

Lemma setBpm_then_join_witness :
  bpm_set 140 ∈ sendSyncToClient (srv (exec (setBpm 140) demo_world))
  ∧ exec (setBpm 0) demo_world = demo_world.
Proof.
  destruct (setBpm_then_join demo_world 140) as [Hok _].
  destruct (setBpm_then_join demo_world 0) as [_ Hbad].
  split.
  - destruct Hok as (_ & _ & _ & _ & Hsync).
    + split; [reflexivity|discriminate].
    + apply Hsync. reflexivity.
  - apply Hbad. left. discriminate.
Defined.

(** X5. A state report from the browser is kept as the last runtime state
    and, when it names a shader, overwrites the mirrored shader id; the
    mirrored shader code, the other mirrored values and the sessions are
    left as they were, so that a session joining afterwards is sent the
    old code under the reported id.  The other kinds of browser message,
    validation results apart, change nothing. *)
Theorem client_state_report
    (hv : string → bool → option string → Eff unit) (w : World) (msg : WSMessageFromClient) :
  let w' := exec (handleClientMessage hv msg) w in
  (∀ data, msg = from_state data →
     outcome (handleClientMessage hv msg) w = inr tt
     ∧ getCurrentState (srv w') = Some data
     ∧ currentShaderId (srv w') =
         (if decide (currentShader data = EmptyString) then currentShaderId (srv w)
          else Some (currentShader data))
     ∧ currentShaderCode (srv w') = currentShaderCode (srv w)
     ∧ clients (srv w') = clients (srv w)
     ∧ (∀ c, currentShaderCode (srv w) = Some c → c ≠ EmptyString →
             currentShader data ≠ EmptyString →
             sync_shader (srv w') = [shader_push c (currentShader data)]))
  ∧ ((∀ data, msg ≠ from_state data) →
     (∀ id success error, msg ≠ from_shader_validated id success error) →
     handleClientMessage hv msg w = (inr tt, w)).
Proof.
  intros w'. subst w'. split.
  - intros data ->. unfold handleClientMessage.
    destruct (currentShader data) as [|a s] eqn:E; cbn [truthy_str]; eff.
    + split_and!; try done.
    + split_and!; try done.
      intros c Hc Hne _. unfold sync_shader. cbn. rewrite Hc.
      destruct c; [done|]. done.
  - intros Hs Hv. destruct msg as [data| | | |vid success error| | |]; try done.
    + by destruct (Hs data).
    + by destruct (Hv vid success error).
Qed.

Lemma client_state_report_witness :
  getCurrentState
    (srv (exec (handleClientMessage (λ _ _ _, mret tt) (from_state demo_report)) demo_world))
  = Some demo_report.
Proof.
  destruct (client_state_report (λ _ _ _, mret tt) demo_world (from_state demo_report))
    as [H _].
  destruct (H demo_report eq_refl) as (_ & Hs & _). exact Hs.
Defined.

(** ** OSC: custom mappings *)

Lemma last_target_snoc (x a t : string) (adds : list (string * string)) :
  last_target x (adds ++ [(a, t)]) = if decide (a = x) then Some t else last_target x adds.
Proof.
  unfold last_target. rewrite filter_app, filter_cons, filter_nil. cbn.
  destruct (decide (a = x)); [by rewrite last_snoc|by rewrite app_nil_r].
Qed.

Lemma add_mappings_snoc (w : World) (adds : list (string * string)) (a t : string) :
  customMappings (add_mappings w (adds ++ [(a, t)]))
  = filter (λ m, cm_address m ≠ a) (customMappings (add_mappings w adds))
      ++ [{| cm_address := a; cm_target := t |}].
Proof. unfold add_mappings. by rewrite foldl_app. Qed.

Lemma NoDup_addOscMapping (a t : string) (ms : list CustomMapping) :
  NoDup (cm_address <$> ms) →
  NoDup (cm_address <$> (filter (λ m, cm_address m ≠ a) ms
                          ++ [{| cm_address := a; cm_target := t |}])).
Proof.
  intros Hnd. rewrite fmap_app. apply NoDup_app. split_and!.
  - eapply sublist_NoDup; [exact Hnd|]. apply fmap_sublist, sublist_filter.
  - intros x Hx Hx'. cbn in Hx'. apply list_elem_of_singleton in Hx' as ->.
    apply list_elem_of_fmap in Hx as (m & E & Hm).
    apply list_elem_of_filter in Hm as [Hm _]. by apply Hm.
  - cbn. apply NoDup_singleton.
Qed.

(** X6. After any sequence of calls of [addOscMapping], starting from
    mappings with distinct addresses, the addresses of the custom mappings
    are still distinct, an address that was added maps to the target of the
    last call that named it, and the mapping of an address that no call
    named is the one it had. *)
Theorem osc_mappings_last_write_wins (w : World) (adds : list (string * string)) :
  NoDup (cm_address <$> customMappings w) →
  let w' := add_mappings w adds in
  NoDup (cm_address <$> customMappings w')
  ∧ ∀ m, m ∈ customMappings w' ↔
         match last_target (cm_address m) adds with
         | Some t => cm_target m = t
         | None => m ∈ customMappings w
         end.
Proof.
  intros Hnd w'. subst w'. induction adds as [|[a t] adds IH] using rev_ind.
  - by split.
  - destruct IH as [IHnd IHm]. rewrite add_mappings_snoc. split.
    + by apply NoDup_addOscMapping.
    + intros m. rewrite last_target_snoc, elem_of_app, list_elem_of_filter,
        list_elem_of_singleton, IHm. clear IHm.
      destruct (decide (a = cm_address m)) as [->|Hne].
      * split.
        -- intros [[H _]| ->]; [done|done].
        -- intros <-. right. by destruct m.
      * split.
        -- intros [[_ H]| ->]; [done|]. by destruct Hne.
        -- intros H. left. split; [congruence|done].
Qed.

Lemma osc_mappings_last_write_wins_witness :
  let w' := add_mappings initial_world
              [("/custom/fader1", "u_ext[5]"); ("/custom/fader1", "u_param1")] in
  NoDup (cm_address <$> customMappings w')
  ∧ {| cm_address := "/custom/fader1"; cm_target := "u_param1" |} ∈ customMappings w'.
Proof.
  destruct (osc_mappings_last_write_wins initial_world
              [("/custom/fader1", "u_ext[5]"); ("/custom/fader1", "u_param1")]
              (NoDup_nil_2 : NoDup (cm_address <$> customMappings initial_world)))
    as [Hnd Hm].
  split; [exact Hnd|].
  apply Hm. reflexivity.
Defined.








(** ** OSC: the ext-channel pattern *)










(** ** Audio bindings: removal *)

Lemma findIndex_None {A} (p : A → bool) (l : list A) :
  findIndex p l = None ↔ ∀ x, x ∈ l → p x = false.
Proof.
  induction l as [|x l IH]; cbn [findIndex].
  - split; [|done]. intros _ x Hx. by apply elem_of_nil in Hx.
  - destruct (p x) eqn:E.
    + split; [done|]. intros H. rewrite (H x) in E; [done|left].
    + rewrite fmap_None, IH. split.
      * intros H y Hy. apply elem_of_cons in Hy as [->|Hy]; [done|by apply H].
      * intros H y Hy. apply H. by right.
Qed.

Lemma findIndex_Some {A} (p : A → bool) (l : list A) (i : nat) :
  findIndex p l = Some i ↔
  (∃ x, l !! i = Some x ∧ p x = true)
  ∧ ∀ j y, (j < i)%nat → l !! j = Some y → p y = false.
Proof.
  revert i. induction l as [|x l IH]; intros i; cbn [findIndex].
  - split; [done|]. by intros [(y & Hy & _) _].
  - destruct (p x) eqn:E.
    + split.
      * intros [= <-]. split; [by exists x|]. intros j y Hj. lia.
      * intros [_ H]. destruct i as [|i]; [done|].
        rewrite (H 0%nat x) in E; [done|lia|done].
    + rewrite fmap_Some. split.
      * intros (i' & Hi' & ->). apply IH in Hi' as [(y & Hy & Hp) Hlt].
        split; [by exists y|]. intros [|j] z Hj Hz.
        -- by injection Hz as <-.
        -- apply (Hlt j); [lia|done].
      * intros [(y & Hy & Hp) Hlt]. destruct i as [|i].
        { injection Hy as ->. congruence. }
        exists i. split; [|done]. apply IH. split; [by exists y|].
        intros j z Hj Hz. apply (Hlt (S j)); [lia|done].
Qed.

Lemma audio_unbind_world (t : string) (w : World) :
  NoDup (target <$> activeBindings w) →
  t ∈ target <$> activeBindings w →
  let bindings := without_target t (activeBindings w) in
  AudioTools.audio_unbind t w =
    (inr (mcpText (status_unbound t (length bindings))),
     emit [audio_unbind t]
       (with_srv (set_audioBindings bindings)
          (with_activeBindings (λ _, bindings) w))).
Proof.
  intros Hnd Hin bindings. subst bindings. unfold AudioTools.audio_unbind.
  rewrite (bind_inr get _ w w w eq_refl).
  rewrite <-(findIndex_remove _ _ Hnd).
  destruct (findIndex _ (activeBindings w)) as [i|] eqn:Ei.
  - do 3 (erewrite bind_inr by reflexivity).
    erewrite bind_inr by apply broadcastToClients_emit.
    by destruct w.
  - exfalso. apply list_elem_of_fmap in Hin as (b & -> & Hb).
    rewrite findIndex_None in Ei. specialize (Ei b Hb). cbn in Ei.
    by rewrite String.eqb_refl in Ei.
Qed.

Lemma length_without_target (t : string) (l : list AudioBinding) :
  NoDup (target <$> l) → t ∈ target <$> l →
  S (length (without_target t l)) = length l.
Proof.
  unfold without_target. induction l as [|x l IH]; intros Hnd Hin.
  - by apply elem_of_nil in Hin.
  - apply NoDup_cons in Hnd as [Hx Hnd]. rewrite filter_cons.
    destruct (decide (target x ≠ t)) as [Hne|Heq].
    + cbn. f_equal. apply IH; [done|].
      cbn in Hin. apply elem_of_cons in Hin as [E|Hin]; [congruence|done].
    + assert (target x = t) as E by (by destruct (decide (target x = t))).
      cbn. f_equal. rewrite filter_all; [done|].
      intros b Hb Eb. apply Hx. rewrite E, <-Eb. by apply list_elem_of_fmap_2.
Qed.

(** X9. [audio_unbind] on a target that has no binding answers with an
    error, broadcasts nothing and changes nothing.  On a bound target it
    removes that binding from the registry and from the mirrored list,
    keeps the other bindings in their order, broadcasts one
    [audio_unbind] command and reports one binding less. *)
Theorem audio_unbind_removes (w : World) (t : string) :
  let w' := exec (AudioTools.audio_unbind t) w in
  (t ∉ target <$> activeBindings w →
     AudioTools.audio_unbind t w =
       (inr (mcpError ("No binding found for target " +:+ dquote +:+ t +:+ dquote)), w))
  ∧ (NoDup (target <$> activeBindings w) → t ∈ target <$> activeBindings w →
     ∃ remaining,
       outcome (AudioTools.audio_unbind t) w = inr (mcpText (status_unbound t remaining))
       ∧ S remaining = length (activeBindings w)
       ∧ activeBindings w' = filter (λ b, target b ≠ t) (activeBindings w)
       ∧ audioBindings (srv w') = activeBindings w'
       ∧ clients (srv w') = deliver (audio_unbind t) (clients (srv w))).
Proof.
  intros w'. subst w'. split.
  - intros Hnot. unfold AudioTools.audio_unbind.
    rewrite (bind_inr get _ w w w eq_refl).
    destruct (findIndex _ (activeBindings w)) as [i|] eqn:Ei; [|done].
    exfalso. apply findIndex_Some in Ei as [(b & Hb & Hp) _].
    apply Hnot. apply String.eqb_eq in Hp as <-.
    apply list_elem_of_fmap_2. by eapply list_elem_of_lookup_2.
  - intros Hnd Hin. exists (length (without_target t (activeBindings w))).
    unfold exec, outcome. rewrite audio_unbind_world by done. cbn [fst snd].
    split_and!; try done. by apply length_without_target.
Qed.

Lemma audio_unbind_removes_witness :
  let w := exec (AudioTools.audio_bind (bass_binding 1)) demo_world in
  AudioTools.audio_unbind "u_param2" w
    = (inr (mcpError ("No binding found for target " +:+ dquote +:+ "u_param2" +:+ dquote)), w)
  ∧ activeBindings (exec (AudioTools.audio_unbind "u_param1") w) = [].
Proof.
  assert (activeBindings (exec (AudioTools.audio_bind (bass_binding 1)) demo_world)
          = [bass_binding 1]) as Hb by exact eq_refl.
  destruct (audio_unbind_removes
              (exec (AudioTools.audio_bind (bass_binding 1)) demo_world) "u_param2")
    as [Hno _].
  destruct (audio_unbind_removes
              (exec (AudioTools.audio_bind (bass_binding 1)) demo_world) "u_param1")
    as [_ Hyes].
  split.
  - apply Hno. rewrite Hb. cbn. intros H. apply list_elem_of_singleton in H. discriminate.
  - destruct Hyes as (remaining & _ & _ & Hact & _).
    + rewrite Hb. cbn. apply NoDup_singleton.
    + rewrite Hb. cbn. apply list_elem_of_singleton. reflexivity.
    + rewrite Hact, Hb. reflexivity.
Defined.

(** X10. Binding a target that had no binding and unbinding it again
    restores the registry and the mirrored list; the sessions have been
    sent the [audio_bind] and then the [audio_unbind] command, and nothing
    else has changed. *)
Theorem bind_then_unbind_restores (w : World) (b : AudioBinding) :
  NoDup (target <$> activeBindings w) →
  audioBindings (srv w) = activeBindings w →
  target b ∉ target <$> activeBindings w →
  exec (AudioTools.audio_unbind (target b)) (exec (AudioTools.audio_bind b) w)
  = emit [audio_bind b; audio_unbind (target b)] w.
Proof.
  intros Hnd Hmirror Hfresh. unfold exec at 2. rewrite audio_bind_world by done.
  cbn [snd].
  assert (without_target (target b) (activeBindings w) = activeBindings w) as Hsame.
  { apply filter_all. intros x Hx E. apply Hfresh. rewrite <-E.
    by apply list_elem_of_fmap_2. }
  rewrite Hsame. unfold exec. rewrite audio_unbind_world.
  - cbn [snd activeBindings emit with_srv with_activeBindings].
    assert (without_target (target b) (activeBindings w ++ [b]) = activeBindings w) as ->.
    { unfold without_target in *. rewrite filter_app, Hsame. cbn.
      rewrite decide_False by (intros H; by apply H). apply app_nil_r. }
    destruct w as [[] ? ? ? ? ? ?]. cbn in *. by subst.
  - cbn. rewrite <-Hsame at 1. by apply NoDup_without_target_snoc.
  - cbn. rewrite fmap_app. apply elem_of_app. right. by left.
Qed.

Lemma bind_then_unbind_restores_witness :
  exec (AudioTools.audio_unbind "u_param1")
       (exec (AudioTools.audio_bind (bass_binding 1)) demo_world)
  = emit [audio_bind (bass_binding 1); audio_unbind "u_param1"] demo_world.
Proof.
  apply (bind_then_unbind_restores demo_world (bass_binding 1)).
  - apply NoDup_nil_2.
  - reflexivity.
  - apply not_elem_of_nil.
Defined.

(** ** Setlist playback: one emission, one timer *)

Lemma pushChapter_world (chapter : SetlistChapter) (index total : nat) (w : World) :
  pushChapter chapter index total w = (inr tt, pushed chapter index total w).
Proof.
  unfold pushed. destruct (presetsDir w !! safeName (shader chapter)) eqn:E.
  - by apply pushChapter_resolved.
  - by apply pushChapter_unresolved.
Qed.

Lemma broadcast_all_app (ms ms' : list WSMessageToClient) (cs : list WebSocket) :
  broadcast_all (ms ++ ms') cs = broadcast_all ms' (broadcast_all ms cs).
Proof. unfold broadcast_all. by rewrite foldl_app. Qed.

Lemma pushed_clients (chapter : SetlistChapter) (index total : nat) (w : World) :
  clients (srv (pushed chapter index total w))
  = broadcast_all (emission (presetsDir w) chapter index total) (clients (srv w)).
Proof.
  unfold pushed, emission. destruct (presetsDir w !! _); [|done].
  unfold chapter_messages. rewrite broadcast_all_app.
  rewrite clients_emit. f_equal; by destruct (transition_in chapter).
Qed.

Lemma pushed_sched (chapter : SetlistChapter) (index total : nat) (w : World) :
  sched (pushed chapter index total w) = sched w.
Proof. unfold pushed. by destruct (presetsDir w !! _). Qed.

Lemma pushed_presetsDir (chapter : SetlistChapter) (index total : nat) (w : World) :
  presetsDir (pushed chapter index total w) = presetsDir w.
Proof. unfold pushed. by destruct (presetsDir w !! _). Qed.



Lemma pushed_loop (chapter : SetlistChapter) (index total : nat) (w : World) :
  transition_in chapter ≠ flash → loop (pushed chapter index total w) = loop w.
Proof.
  intros Hnf. unfold pushed. destruct (presetsDir w !! _); [|done].
  cbn. by destruct (transition_in chapter).
Qed.


Lemma scheduleNextChapter_world (w : World) (sl : Setlist) :
  activeSetlist (sched w) = Some sl →
  isPaused (sched w) = false →
  (currentChapterIndex (sched w) < length (chapters sl))%nat →
  scheduleNextChapter w = (inr tt, rescheduled sl w).
Proof.
  intros Hsl Hp Hk. unfold rescheduled.
  destruct (lookup_lt_is_Some_2 _ _ Hk) as [ch Hch]. rewrite Hch.
  destruct (Nat.leb_spec (length (chapters sl)) (currentChapterIndex (sched w) + 1)).
  - by apply (scheduleNextChapter_ends w sl).
  - by apply (scheduleNextChapter_arms w sl ch).
Qed.



(** ** Setlist playback: jumps *)






Lemma rescheduled_arms (sl : Setlist) (w : World) (ch : SetlistChapter) :
  chapters sl !! currentChapterIndex (sched w) = Some ch →
  (currentChapterIndex (sched w) + 1 < length (chapters sl))%nat →
  rescheduled sl w =
    with_sched (set_playbackTimer (Some (nextTimerId (loop w))))
      (arm (advance_chapter (currentChapterIndex (sched w) + 1))
           (remaining_of ch (pauseOffset (sched w))) w).
Proof.
  intros Hch Hlt. unfold rescheduled. rewrite Hch.
  destruct (Nat.leb_spec (length (chapters sl)) (currentChapterIndex (sched w) + 1));
    [lia|done].
Qed.

Lemma rescheduled_ends (sl : Setlist) (w : World) :
  (length (chapters sl) ≤ currentChapterIndex (sched w) + 1)%nat →
  rescheduled sl w =
    with_srv (λ s, set_setlistPlayback (assign (setlistPlayback s) (only_active false)) s) w.
Proof.
  intros Hle. unfold rescheduled.
  destruct (Nat.leb_spec (length (chapters sl)) (currentChapterIndex (sched w) + 1));
    [done|lia].
Qed.

Lemma rescheduled_keeps (sl : Setlist) (w : World) :
  let w' := rescheduled sl w in
  currentChapterIndex (sched w') = currentChapterIndex (sched w)
  ∧ pauseOffset (sched w') = pauseOffset (sched w)
  ∧ isPaused (sched w') = isPaused (sched w)
  ∧ activeSetlist (sched w') = activeSetlist (sched w)
  ∧ playbackStartedAt (sched w') = playbackStartedAt (sched w)
  ∧ clients (srv w') = clients (srv w)
  ∧ chapterIndex (setlistPlayback (srv w')) = chapterIndex (setlistPlayback (srv w))
  ∧ presetsDir w' = presetsDir w
  ∧ clock (loop w') = clock (loop w).
Proof.
  unfold rescheduled.
  destruct (length (chapters sl) <=? currentChapterIndex (sched w) + 1)%nat; [done|].
  by destruct (chapters sl !! currentChapterIndex (sched w)).
Qed.






(** ** Setlist playback: the timers fire *)

Lemma fire_world (h : nat) (w : World) (t : Timer) (rest : list Timer) :
  filter (λ t, tm_id t = h) (pending (loop w)) = t :: rest →
  num_le (tm_due t) (clock (loop w)) = true →
  fire h w = run_callback (tm_body t) (exec (clearTimeout h) w).
Proof.
  intros Hf Hdue. unfold fire. rewrite (bind_inr get _ w w w eq_refl).
  rewrite Hf, Hdue. by erewrite bind_inr by reflexivity.
Qed.

Lemma advance_callback_world (w : World) (sl : Setlist) (k : nat) (ch : SetlistChapter) :
  activeSetlist (sched w) = Some sl →
  chapters sl !! k = Some ch →
  let w2 := pushed ch k (length (chapters sl)) (moved_to k w) in
  advance_callback k w = (inr tt, if isPaused (sched w) then w2 else rescheduled sl w2).
Proof.
  intros Hsl Hch w2. unfold advance_callback.
  do 3 (erewrite bind_inr by reflexivity).
  fold (moved_to k w).
  rewrite (bind_inr get _ _ _ _ eq_refl).
  change (activeSetlist (sched (moved_to k w))) with (activeSetlist (sched w)).
  rewrite Hsl. change (currentChapterIndex (sched (moved_to k w))) with k.
  unfold chapter_at. rewrite Hch.
  erewrite bind_inr by reflexivity.
  erewrite bind_inr by apply pushChapter_world.
  fold w2.
  destruct (isPaused (sched w)) eqn:Hp.
  - apply scheduleNextChapter_idle. right. subst w2. by rewrite pushed_sched.
  - apply scheduleNextChapter_world; subst w2; rewrite pushed_sched; cbn; try done.
    by eapply lookup_lt_Some.
Qed.

Lemma filter_id_elem (h : nat) (ts rest : list Timer) (t : Timer) :
  filter (λ t, tm_id t = h) ts = t :: rest → t ∈ ts ∧ tm_id t = h.
Proof.
  intros Hf. assert (t ∈ filter (λ t, tm_id t = h) ts) as Ht by (rewrite Hf; left).
  by apply list_elem_of_filter in Ht as [? ?].
Qed.




(** ** Setlist playback: from play to the last chapter *)

Lemma setlist_play_general (w : World) (sl : Setlist) (ch : SetlistChapter) :
  activeSetlist (sched w) = Some sl →
  chapters sl !! currentChapterIndex (sched w) = Some ch →
  let index := currentChapterIndex (sched w) in
  let started :=
    with_srv (λ s, set_setlistPlayback
                     (assign (setlistPlayback s)
                        {| upd_active := Some true; upd_setlistName := None;
                           upd_chapterIndex := None; upd_totalChapters := None;
                           upd_startedAt := Some (Some (clock (loop w))) |}) s)
      (with_sched (set_playbackStartedAt (Some (clock (loop w))))
         (with_sched (set_isPaused false) w)) in
  SetlistTools.setlist_play w =
    (inr (mcpText (status_playing (sl_name sl) (ch_name ch) index)),
     rescheduled sl (pushed ch index (length (chapters sl)) started)).
Proof.
  intros Hsl Hch index started.
  unfold SetlistTools.setlist_play.
  rewrite (bind_inr get _ w w w eq_refl). rewrite Hsl.
  do 4 (erewrite bind_inr by reflexivity).
  unfold chapter_at. rewrite Hch.
  erewrite bind_inr by reflexivity.
  fold index. fold started.
  erewrite bind_inr by apply pushChapter_world.
  erewrite bind_inr.
  2:{ apply (scheduleNextChapter_world _ sl); rewrite pushed_sched; cbn; try done.
      by eapply lookup_lt_Some. }
  reflexivity.
Qed.

Lemma remaining_nonneg (ch : SetlistChapter) (elapsed : number) :
  (0 <= remaining_of ch elapsed)%Q.
Proof.
  unfold remaining_of, Math_max.
  destruct (num_le 0 _) eqn:E; [by apply num_le_spec in E|apply Qle_refl].
Qed.

Lemma Math_max_later (c r : number) : (0 <= r)%Q → Math_max c (c + r) = (c + r)%Q.
Proof.
  intros Hr. unfold Math_max.
  assert (num_le c (c + r) = true) as ->; [|done].
  apply num_le_spec. rewrite <-(Qplus_0_r c) at 1. by apply Qplus_le_r.
Qed.

Lemma drop_cons_inv {A} (k : nat) (l : list A) (x : A) (rest : list A) :
  drop k l = x :: rest → l !! k = Some x ∧ drop (S k) l = rest.
Proof.
  intros Hd.
  assert (l !! k = Some x) as Hx.
  { rewrite <-(Nat.add_0_r k), <-lookup_drop. by rewrite Hd. }
  split; [done|]. rewrite (drop_S _ _ _ Hx) in Hd. by injection Hd.
Qed.

Lemma drop_two_length {A} (k : nat) (l : list A) (x y : A) (rest : list A) :
  drop k l = x :: y :: rest → (k + 1 < length l)%nat.
Proof.
  intros Hd. apply (f_equal length) in Hd. rewrite length_drop in Hd. cbn in Hd.
  revert Hd. generalize (length l) (length rest). intros a b. lia.
Qed.

Lemma drop_one_length {A} (k : nat) (l : list A) (x : A) :
  drop k l = [x] → length l = (k + 1)%nat.
Proof.
  intros Hd. apply (f_equal length) in Hd. rewrite length_drop in Hd. cbn in Hd.
  revert Hd. generalize (length l). intros a. lia.
Qed.

Lemma rescheduled_playing (sl : Setlist) (k : nat) (w : World) (ch : SetlistChapter) :
  activeSetlist (sched w) = Some sl →
  isPaused (sched w) = false →
  currentChapterIndex (sched w) = k →
  pending (loop w) = [] →
  chapters sl !! k = Some ch →
  playing_chapter sl (presetsDir w) k (pauseOffset (sched w)) (rescheduled sl w).
Proof.
  intros Hsl Hp Hk Hpend Hch.
  destruct (rescheduled_keeps sl w) as (R1 & R2 & R3 & R4 & R5 & R6 & R7 & R8 & R9).
  unfold playing_chapter. rewrite R1, R2, R3, R4, R8.
  split_and!; try done.
  rewrite (drop_S _ _ _ Hch).
  destruct (drop (S k) (chapters sl)) as [|ch' rest] eqn:Hd.
  - assert (length (chapters sl) = (k + 1)%nat) as Hlen.
    { apply (drop_one_length k _ ch). by rewrite (drop_S _ _ _ Hch), Hd. }
    rewrite rescheduled_ends by (rewrite Hk, Hlen; done).
    by split.
  - assert (k + 1 < length (chapters sl))%nat as Hlen.
    { apply (drop_two_length k _ ch ch' rest). by rewrite (drop_S _ _ _ Hch), Hd. }
    rewrite (rescheduled_arms sl w ch) by (by rewrite Hk).
    exists (nextTimerId (loop w)). cbn. by rewrite Hpend, Hk.
Qed.

Lemma rescheduled_startedAt (sl : Setlist) (w : World) :
  playbackStartedAt (sched (rescheduled sl w)) = playbackStartedAt (sched w).
Proof. by destruct (rescheduled_keeps sl w) as (_ & _ & _ & _ & R5 & _). Qed.

Lemma play_starts (w : World) (sl : Setlist) (ch : SetlistChapter) (t : number) :
  activeSetlist (sched w) = Some sl →
  chapters sl !! currentChapterIndex (sched w) = Some ch →
  transition_in ch ≠ flash →
  pending (loop w) = [] →
  let w1 := step w (t, ev_play) in
  playing_chapter sl (presetsDir w) (currentChapterIndex (sched w))
                  (pauseOffset (sched w)) w1
  ∧ clients (srv w1) =
      broadcast_all (emission (presetsDir w) ch (currentChapterIndex (sched w))
                              (length (chapters sl)))
                    (clients (srv w))
  ∧ clock (loop w1) = t
  ∧ playbackStartedAt (sched w1) = Some t.
Proof.
  intros Hsl Hch Hnf Hpend w1. subst w1. unfold step, handle. cbn [fst snd].
  unfold exec. rewrite exec_at_time.
  set (wt := exec (at_time t) w).
  erewrite bind_inr by (by apply (setlist_play_general wt sl ch)).
  cbn [snd mret Eff_ret ret].
  change (currentChapterIndex (sched wt)) with (currentChapterIndex (sched w)).
  set (started := with_srv _ _).
  set (w2 := pushed ch (currentChapterIndex (sched w)) (length (chapters sl)) started).
  assert (sched w2 = sched started) as Hs2 by apply pushed_sched.
  assert (loop w2 = loop started) as Hl2 by (by apply pushed_loop).
  destruct (rescheduled_keeps sl w2) as (_ & _ & _ & _ & _ & R6 & _ & _ & R9).
  split_and!.
  - assert (presetsDir w = presetsDir w2) as -> by (subst w2; by rewrite pushed_presetsDir).
    assert (pauseOffset (sched w) = pauseOffset (sched w2)) as -> by (by rewrite Hs2).
    apply (rescheduled_playing sl _ w2 ch); rewrite ?Hs2, ?Hl2; done.
  - rewrite R6. subst w2. by rewrite pushed_clients.
  - rewrite R9, Hl2. done.
  - rewrite rescheduled_startedAt, Hs2. done.
Qed.

Lemma timer_step (w : World) (sl : Setlist) (presets : gmap string ShaderPreset)
    (k : nat) (e : number) (ch ch' : SetlistChapter) (rest : list SetlistChapter) :
  no_flash sl →
  playing_chapter sl presets k e w →
  drop k (chapters sl) = ch :: ch' :: rest →
  ∃ tm, pending (loop w) = [tm]
    ∧ let w' := step w (Math_max (clock (loop w)) (tm_due tm), ev_timer (tm_id tm)) in
      playing_chapter sl presets (k + 1) 0 w'
      ∧ clients (srv w') =
          broadcast_all (emission presets ch' (k + 1) (length (chapters sl)))
                        (clients (srv w))
      ∧ clock (loop w') = (clock (loop w) + remaining_of ch e)%Q
      ∧ playbackStartedAt (sched w') = playbackStartedAt (sched w)
      ∧ playbackTimer (sched w) = Some (tm_id tm).
Proof.
  intros Hnf (Hsl & Hp & Hk & _ & Hpre & Hpend) Hd. rewrite Hd in Hpend.
  destruct Hpend as [h [Hpend Hslot]]. eexists. split; [exact Hpend|].
  cbn [tm_due tm_id]. rewrite Math_max_later by apply remaining_nonneg.
  set (due := (clock (loop w) + remaining_of ch e)%Q).
  destruct (drop_cons_inv _ _ _ _ Hd) as [Hch Hd'].
  destruct (drop_cons_inv _ _ _ _ Hd') as [Hch' _].
  assert (transition_in ch' ≠ flash) as Hnf'.
  { unfold no_flash in Hnf. rewrite Forall_forall in Hnf. apply Hnf.
    by eapply list_elem_of_lookup_2. }
  unfold step, handle. cbn [fst snd].
  unfold exec. rewrite exec_at_time.
  set (wt := exec (at_time due) w).
  rewrite (fire_world h wt {| tm_id := h; tm_due := due;
                              tm_body := advance_chapter (k + 1) |} []).
  2:{ change (pending (loop wt)) with (pending (loop w)). rewrite Hpend.
      rewrite filter_cons, decide_True by done. done. }
  2:{ apply num_le_spec. apply Qle_refl. }
  cbn [tm_body run_callback].
  set (w0 := exec (clearTimeout h) wt).
  assert (pending (loop w0) = []) as Hp0.
  { subst w0 wt. cbn. rewrite Hpend. rewrite filter_cons, decide_False; [done|].
    cbn. intros H. by apply H. }
  replace (S k) with (k + 1)%nat in Hch' by lia.
  rewrite (advance_callback_world w0 sl (k + 1) ch') by done.
  change (isPaused (sched w0)) with (isPaused (sched w)). rewrite Hp.
  cbn [snd].
  set (w2 := pushed ch' (k + 1) (length (chapters sl)) (moved_to (k + 1) w0)).
  assert (sched w2 = sched (moved_to (k + 1) w0)) as Hs2 by apply pushed_sched.
  assert (loop w2 = loop w0) as Hl2 by (subst w2; by rewrite pushed_loop).
  assert (presetsDir w2 = presets) as Hpre2
    by (subst w2; by rewrite pushed_presetsDir).
  destruct (rescheduled_keeps sl w2) as (_ & _ & _ & _ & _ & R6 & _ & _ & R9).
  split_and!.
  - rewrite <-Hpre2.
    assert (0%Q = pauseOffset (sched w2)) as -> by (by rewrite Hs2).
    apply (rescheduled_playing sl _ w2 ch'); rewrite ?Hs2, ?Hl2; done.
  - rewrite R6. subst w2. rewrite pushed_clients. by rewrite <-Hpre.
  - rewrite R9, Hl2. done.
  - rewrite rescheduled_startedAt, Hs2. done.
  - done.
Qed.





(** X16. What a pause counts as played.  After [setlist_play] at [t] and
    an automatic advance to the next chapter, a pause at [p] records
    [p - t], the time since the play command, as the time played of the
    chapter that is on, although that chapter has been on only since the
    advance; the chapter timer that the next [setlist_play] arms is
    shortened by that much. *)
Theorem pause_counts_from_last_play
    (w : World) (sl : Setlist) (ch ch' ch'' : SetlistChapter) (rest : list SetlistChapter)
    (t p q : number) :
  activeSetlist (sched w) = Some sl →
  drop (currentChapterIndex (sched w)) (chapters sl) = ch :: ch' :: ch'' :: rest →
  no_flash sl →
  pending (loop w) = [] →
  nonzero t = true →
  let k := currentChapterIndex (sched w) in
  let due := (t + remaining_of ch (pauseOffset (sched w)))%Q in
  let w1 := step w (t, ev_play) in
  ∃ h, playbackTimer (sched w1) = Some h ∧
    let w2 := step w1 (due, ev_timer h) in
    let w3 := step w2 (p, ev_pause) in
    let w4 := step w3 (q, ev_play) in
    currentChapterIndex (sched w2) = (k + 1)%nat
    ∧ clock (loop w2) = due
    ∧ pauseOffset (sched w3) = (0 + (p - t))%Q
    ∧ pending (loop w3) = []
    ∧ ∃ tm, pending (loop w4) = [tm]
            ∧ tm_body tm = advance_chapter (k + 1 + 1)
            ∧ tm_due tm = (q + remaining_of ch' (0 + (p - t)))%Q.
Proof.
  intros Hsl Hd Hnf Hpend Ht k due w1. subst due w1 k.
  set (k := currentChapterIndex (sched w)) in *.
  destruct (drop_cons_inv _ _ _ _ Hd) as [Hch Hd1].
  replace (S k) with (k + 1)%nat in Hd1 by lia.
  destruct (drop_cons_inv _ _ _ _ Hd1) as [Hch' _].
  assert (∀ c, c ∈ chapters sl → transition_in c ≠ flash) as Hall.
  { unfold no_flash in Hnf. by rewrite Forall_forall in Hnf. }
  destruct (play_starts w sl ch t Hsl Hch) as (Hplay & _ & Hclock & Hstart).
  { apply Hall. by eapply list_elem_of_lookup_2. }
  { done. }
  fold k in Hplay.
  set (w1 := step w (t, ev_play)) in *. clearbody w1.
  destruct (timer_step w1 sl (presetsDir w) k (pauseOffset (sched w)) ch ch' (ch'' :: rest)
              Hnf Hplay Hd) as (tm & Hp1 & Hnext & _ & Hclock2 & Hstart2 & Hslot).
  destruct Hplay as (_ & _ & _ & _ & _ & Hlast). rewrite Hd in Hlast.
  destruct Hlast as (h & Hp1' & _). rewrite Hp1' in Hp1. injection Hp1 as <-.
  cbn [tm_due tm_id] in *. rewrite Hclock in *.
  rewrite Math_max_later in * by apply remaining_nonneg.
  exists h. split; [done|].
  set (w2 := step w1 _) in *. clearbody w2. clear Hp1' Hslot.
  destruct Hnext as (Hsl2 & Hpa2 & Hk2 & Ho2 & Hpre2 & Hlast2). rewrite Hd1 in Hlast2.
  destruct Hlast2 as (h2 & Hp2 & Hslot2).
  rewrite Hstart in Hstart2.
  assert (step w2 (p, ev_pause) =
            with_srv (λ s, set_setlistPlayback
                             (assign (setlistPlayback s) (only_active false)) s)
              (with_sched (λ s, set_pauseOffset (pauseOffset s + (p - t))%Q s)
                 (cancel_playback (with_sched (set_isPaused true)
                                              (exec (at_time p) w2))))) as Hw3.
  { unfold step, handle. cbn [fst snd]. unfold exec at 1. rewrite exec_at_time.
    erewrite bind_inr by (by apply (setlist_pause_world _ sl ch' t); cbn; rewrite ?Hk2).
    done. }
  set (w3 := step w2 (p, ev_pause)) in *. clearbody w3.
  assert (pauseOffset (sched w3) = (0 + (p - t))%Q) as Ho3
    by (rewrite Hw3; cbn; by rewrite Ho2).
  assert (pending (loop w3) = []) as Hp3.
  { rewrite Hw3. cbn. rewrite Hslot2, Hp2. cbn.
    by rewrite decide_False by (intros H; by apply H). }
  assert (currentChapterIndex (sched w3) = (k + 1)%nat) as Hk3
    by (rewrite Hw3; cbn; done).
  destruct (play_starts w3 sl ch' q) as (Hplay4 & _ & Hclock4 & _).
  { rewrite Hw3. cbn. done. }
  { by rewrite Hk3. }
  { apply Hall. by eapply list_elem_of_lookup_2. }
  { done. }
  destruct Hplay4 as (_ & _ & _ & _ & _ & Hlast4).
  rewrite Hk3, Hd1, Ho3, Hclock4 in Hlast4. destruct Hlast4 as (h4 & Hp4 & _).
  split_and!; try done.
  eexists. split; [exact Hp4|]. done.
Qed.

Lemma no_flash_demo : no_flash demo_setlist.
Proof. repeat (constructor; [discriminate|]). constructor. Qed.

Lemma pause_counts_from_last_play_witness :
  ∃ h, playbackTimer (sched (step loaded_world (t0, ev_play))) = Some h
       ∧ pauseOffset
           (sched (step (step (step loaded_world (t0, ev_play))
                              ((t0 + remaining_of (demo_chapter "Chapter 1" "plasma" 0 2)
                                                  (pauseOffset (sched loaded_world)))%Q,
                               ev_timer h))
                        (1002500%Q, ev_pause)))
         = (0 + (1002500 - t0))%Q.
Proof.
  destruct (pause_counts_from_last_play loaded_world demo_setlist
              (demo_chapter "Chapter 1" "plasma" 0 2)
              (demo_chapter "Chapter 2" "plasma" 2 4)
              (demo_chapter "Chapter 3" "plasma" 4 6) [] t0 1002500 1003000
              eq_refl eq_refl no_flash_demo eq_refl eq_refl) as (h & Hh & H).
  exists h. split; [exact Hh|].
  destruct H as (_ & _ & Ho & _). exact Ho.
Defined.

(** ** Setlist playback: pause, and the timer slot *)






(** ** The store *)

Lemma chars_inj (s t : string) : chars s = chars t → s = t.
Proof.
  intros H. rewrite <-(String.string_of_list_ascii_of_string s),
    <-(String.string_of_list_ascii_of_string t). unfold chars in H. by rewrite H.
Qed.

Lemma chars_map_chars (f : ascii → ascii) (s : string) :
  chars (map_chars f s) = f <$> chars s.
Proof. induction s as [|c s IH]; [done|]. cbn. f_equal. apply IH. Qed.

Lemma chars_trim_start (s : string) : chars (trim_start s) = ltrim (chars s).
Proof.
  induction s as [|c s IH]; [done|]. cbn [trim_start].
  change (chars (String c s)) with (c :: chars s).
  cbn [ltrim]. destruct (Ascii.eqb c " "); [apply IH|done].
Qed.

Lemma chars_rev_app (s acc : string) :
  chars (String.rev_app s acc) = reverse (chars s) ++ chars acc.
Proof.
  revert acc. induction s as [|c s IH]; intros acc; [done|].
  cbn [String.rev_app]. rewrite IH.
  change (chars (String c s)) with (c :: chars s).
  change (chars (String c acc)) with (c :: chars acc).
  rewrite reverse_cons. by rewrite <-app_assoc.
Qed.

Lemma chars_rev (s : string) : chars (String.rev s) = reverse (chars s).
Proof. unfold String.rev. rewrite chars_rev_app. apply app_nil_r. Qed.

Lemma chars_trim (s : string) : chars (trim s) = rtrim (ltrim (chars s)).
Proof.
  unfold trim, rtrim. by rewrite chars_rev, chars_trim_start, chars_rev, chars_trim_start.
Qed.

Lemma chars_safeName (name : string) :
  chars (safeName name) = rtrim (ltrim (sanitize <$> chars name)).
Proof. unfold safeName. by rewrite chars_trim, chars_map_chars. Qed.

Lemma ltrim_split (l : list ascii) :
  ∃ spaces, l = spaces ++ ltrim l ∧ Forall (λ c, c = " "%char) spaces.
Proof.
  induction l as [|c l (spaces & IH & Hsp)]; [by exists []|].
  cbn [ltrim]. destruct (Ascii.eqb_spec c " ") as [->|Hc].
  - exists (" "%char :: spaces). split; [cbn; by f_equal|by constructor].
  - by exists [].
Qed.

Lemma ltrim_head (l : list ascii) : head (ltrim l) ≠ Some " "%char.
Proof.
  induction l as [|c l IH]; [done|]. cbn [ltrim].
  destruct (Ascii.eqb_spec c " ") as [->|Hc]; [done|]. cbn. congruence.
Qed.

Lemma ltrim_id (l : list ascii) : head l ≠ Some " "%char → ltrim l = l.
Proof.
  destruct l as [|c l]; [done|]. cbn. intros H.
  destruct (Ascii.eqb_spec c " ") as [->|Hc]; [done|done].
Qed.

Lemma Forall_ltrim (P : ascii → Prop) (l : list ascii) : Forall P l → Forall P (ltrim l).
Proof.
  intros H. destruct (ltrim_split l) as (spaces & E & _). rewrite E in H.
  by apply Forall_app in H as [_ H].
Qed.

Lemma Forall_rtrim (P : ascii → Prop) (l : list ascii) : Forall P l → Forall P (rtrim l).
Proof.
  intros H. unfold rtrim. apply Forall_reverse, Forall_ltrim. by apply Forall_reverse.
Qed.

Lemma rtrim_split (l : list ascii) :
  ∃ spaces, l = rtrim l ++ spaces ∧ Forall (λ c, c = " "%char) spaces.
Proof.
  destruct (ltrim_split (reverse l)) as (spaces & E & Hsp).
  exists (reverse spaces). split; [|by apply Forall_reverse].
  unfold rtrim. rewrite <-reverse_app, <-E. by rewrite reverse_involutive.
Qed.

Lemma rtrim_head (l : list ascii) : head l ≠ Some " "%char → head (rtrim l) ≠ Some " "%char.
Proof.
  intros H. destruct (rtrim_split l) as (spaces & E & _).
  destruct (rtrim l) as [|c r] eqn:Er; [done|].
  rewrite E in H. done.
Qed.

Lemma rtrim_last (l : list ascii) : last (rtrim l) ≠ Some " "%char.
Proof.
  unfold rtrim. rewrite last_reverse. apply ltrim_head.
Qed.

Lemma rtrim_id (l : list ascii) : last l ≠ Some " "%char → rtrim l = l.
Proof.
  intros H. unfold rtrim. rewrite ltrim_id; [apply reverse_involutive|].
  by rewrite head_reverse.
Qed.

Lemma sanitize_safe (c : ascii) : safe_char (sanitize c) = true.
Proof. unfold sanitize. destruct (safe_char c) eqn:E; [done|]. reflexivity. Qed.

Lemma sanitize_id (l : list ascii) :
  Forall (λ c, safe_char c = true) l → sanitize <$> l = l.
Proof.
  induction 1 as [|c l Hc _ IH]; [done|]. cbn. unfold sanitize at 1. by rewrite Hc, IH.
Qed.

(** X19. The file name that the store derives from a preset or setlist
    name holds only letters, digits, underscore, hyphen, dot and space, so
    that it has no path separator; it neither starts nor ends with a
    space; and deriving it again from the result changes nothing. *)
Theorem safeName_is_a_file_name (name : string) :
  Forall (λ c, safe_char c = true) (chars (safeName name))
  ∧ ("/"%char ∉ chars (safeName name))
  ∧ ("\"%char ∉ chars (safeName name))
  ∧ head (chars (safeName name)) ≠ Some " "%char
  ∧ last (chars (safeName name)) ≠ Some " "%char
  ∧ safeName (safeName name) = safeName name.
Proof.
  assert (Forall (λ c, safe_char c = true) (chars (safeName name))) as Hsafe.
  { rewrite chars_safeName. apply Forall_rtrim, Forall_ltrim.
    apply Forall_fmap, Forall_forall. intros c _. apply sanitize_safe. }
  assert (head (chars (safeName name)) ≠ Some " "%char) as Hhead.
  { rewrite chars_safeName. apply rtrim_head, ltrim_head. }
  assert (last (chars (safeName name)) ≠ Some " "%char) as Hlast.
  { rewrite chars_safeName. apply rtrim_last. }
  split_and!; try done.
  - intros Hin. rewrite Forall_forall in Hsafe. by specialize (Hsafe _ Hin).
  - intros Hin. rewrite Forall_forall in Hsafe. by specialize (Hsafe _ Hin).
  - apply chars_inj. rewrite (chars_safeName (safeName name)).
    rewrite sanitize_id by done. rewrite ltrim_id by done. by apply rtrim_id.
Qed.





(** ** Colours *)

Lemma hex_val_range (c : ascii) (v : Z) : hex_val c = Some v → 0 ≤ v ≤ 15.
Proof.
  unfold hex_val. generalize (Z.of_nat (nat_of_ascii c)). intros n.
  destruct ((48 <=? n) && (n <=? 57)) eqn:E1.
  { intros [= <-]. apply andb_true_iff in E1 as [?%Z.leb_le ?%Z.leb_le]. lia. }
  destruct ((97 <=? n) && (n <=? 102)) eqn:E2.
  { intros [= <-]. apply andb_true_iff in E2 as [?%Z.leb_le ?%Z.leb_le]. lia. }
  destruct ((65 <=? n) && (n <=? 70)) eqn:E3; [|done].
  intros [= <-]. apply andb_true_iff in E3 as [?%Z.leb_le ?%Z.leb_le]. lia.
Qed.

Lemma hex_pair_range (a b : ascii) (v : Z) : hex_pair a b = Some v → 0 ≤ v ≤ 255.
Proof.
  unfold hex_pair. destruct (hex_val a) as [x|] eqn:Ea; [|done].
  destruct (hex_val b) as [y|] eqn:Eb; [|done]. cbn. intros [= <-].
  apply hex_val_range in Ea, Eb. lia.
Qed.

Lemma component_range (v : Z) :
  0 ≤ v ≤ 255 → (0 <= inject_Z v / 255)%Q ∧ (inject_Z v / 255 <= 1)%Q.
Proof.
  intros Hv. unfold Qle, Qdiv, Qmult, Qinv, inject_Z. cbn. lia.
Qed.

Lemma hexToRgb_digits (hex : string) (r1 r2 g1 g2 b1 b2 : ascii) (r g b : Z) :
  strip_hash hex
    = String r1 (String r2 (String g1 (String g2 (String b1 (String b2 EmptyString))))) →
  hex_pair r1 r2 = Some r → hex_pair g1 g2 = Some g → hex_pair b1 b2 = Some b →
  hexToRgb hex = inr ((inject_Z r / 255)%Q, (inject_Z g / 255)%Q, (inject_Z b / 255)%Q).
Proof. intros Hs Hr Hg Hb. unfold hexToRgb. by rewrite Hs, Hr, Hg, Hb. Qed.

Lemma hex_pair_Some (a b : ascii) :
  is_Some (hex_val a) → is_Some (hex_val b) → is_Some (hex_pair a b).
Proof. intros [x Hx] [y Hy]. unfold hex_pair. rewrite Hx, Hy. by eexists. Qed.

Lemma hex_pair_None (a b : ascii) :
  hex_pair a b = None → ¬ (is_Some (hex_val a) ∧ is_Some (hex_val b)).
Proof.
  intros H [Ha Hb]. destruct (hex_pair_Some a b Ha Hb) as [v Hv]. congruence.
Qed.

Lemma hex_pair_inv (a b : ascii) (v : Z) :
  hex_pair a b = Some v → is_Some (hex_val a) ∧ is_Some (hex_val b).
Proof.
  unfold hex_pair. destruct (hex_val a); [|done]. destruct (hex_val b); [|done]. eauto.
Qed.

Lemma hexToRgb_rejects (hex : string) :
  ¬ is_hex_color (strip_hash hex) → hexToRgb hex = inl ("Invalid hex color: " +:+ hex).
Proof.
  intros Hnot. unfold hexToRgb.
  destruct (strip_hash hex) as [|r1 [|r2 [|g1 [|g2 [|b1 [|b2 [|x s]]]]]]] eqn:Hs;
    try done.
  destruct (hex_pair r1 r2) as [r|] eqn:Hr; [|done].
  destruct (hex_pair g1 g2) as [g|] eqn:Hg; [|done].
  destruct (hex_pair b1 b2) as [b|] eqn:Hb; [|done].
  exfalso. apply Hnot. exists r1, r2, g1, g2, b1, b2.
  apply hex_pair_inv in Hr as [? ?], Hg as [? ?], Hb as [? ?]. by split_and!.
Qed.

(** X22. [hexToRgb] accepts exactly the texts of six hexadecimal digits,
    in either case, with at most one leading [#]: for them it returns
    three components, each the value of a pair of digits divided by 255
    and so between 0 and 1; for every other text it throws, naming the
    text as it was given. *)
Theorem hexToRgb_accepts_six_hex_digits (hex : string) :
  (is_hex_color (strip_hash hex) →
     ∃ rgb, hexToRgb hex = inr rgb ∧ unit_interval rgb)
  ∧ (¬ is_hex_color (strip_hash hex) →
     hexToRgb hex = inl ("Invalid hex color: " +:+ hex))
  ∧ strip_hash ("#" +:+ hex) = hex
  ∧ (∀ r1 r2 g1 g2 b1 b2 r g b,
       strip_hash hex
         = String r1 (String r2 (String g1 (String g2 (String b1 (String b2 EmptyString)))))
       → hex_pair r1 r2 = Some r → hex_pair g1 g2 = Some g → hex_pair b1 b2 = Some b →
       hexToRgb hex
         = inr ((inject_Z r / 255)%Q, (inject_Z g / 255)%Q, (inject_Z b / 255)%Q)).
Proof.
  split_and!.
  - intros (r1 & r2 & g1 & g2 & b1 & b2 & Hs & H1 & H2 & H3 & H4 & H5 & H6).
    destruct (hex_pair_Some r1 r2 H1 H2) as [r Hr].
    destruct (hex_pair_Some g1 g2 H3 H4) as [g Hg].
    destruct (hex_pair_Some b1 b2 H5 H6) as [b Hb].
    eexists. split; [by apply (hexToRgb_digits hex r1 r2 g1 g2 b1 b2 r g b)|].
    unfold unit_interval. cbn [fst snd].
    split_and!; by apply component_range; eapply hex_pair_range.
  - apply hexToRgb_rejects.
  - done.
  - intros. by apply (hexToRgb_digits hex r1 r2 g1 g2 b1 b2).
Qed.

Lemma hexToRgb_accepts_six_hex_digits_witness :
  (∃ rgb, hexToRgb "#FF8000" = inr rgb ∧ unit_interval rgb)
  ∧ hexToRgb "#F80" = inl ("Invalid hex color: " +:+ "#F80").
Proof.
  destruct (hexToRgb_accepts_six_hex_digits "#FF8000") as (Hyes & _).
  destruct (hexToRgb_accepts_six_hex_digits "#F80") as (_ & Hno & _).
  split.
  - apply Hyes. exists "F"%char, "F"%char, "8"%char, "0"%char, "0"%char, "0"%char.
    split_and!; [reflexivity|by eexists..].
  - apply Hno. intros (r1 & r2 & g1 & g2 & b1 & b2 & Hs & _). discriminate.
Defined.

Lemma color_or_kept (arg : option string) (current : number * number * number) :
  truthy_str arg = false → color_or arg current = inr current.
Proof. intros H. unfold color_or. by rewrite H. Qed.

Lemma color_or_given (hex : string) (current : number * number * number) :
  hex ≠ EmptyString → color_or (Some hex) current = hexToRgb hex.
Proof. intros H. unfold color_or. by destruct hex. Qed.

Lemma merged_colors_inv (args : PaletteArgs) (current colors : PaletteConfig) :
  merged_colors args current = inr colors →
  color_or (arg_color1 args) (color1 current) = inr (color1 colors)
  ∧ color_or (arg_color2 args) (color2 current) = inr (color2 colors)
  ∧ color_or (arg_color3 args) (color3 current) = inr (color3 colors)
  ∧ color_or (arg_bg args) (bg current) = inr (bg colors).
Proof.
  unfold merged_colors.
  destruct (color_or (arg_color1 args) _) as [|c1]; [done|].
  destruct (color_or (arg_color2 args) _) as [|c2]; [done|].
  destruct (color_or (arg_color3 args) _) as [|c3]; [done|].
  destruct (color_or (arg_bg args) _) as [|c4]; [done|].
  by intros [= <-].
Qed.

(** X23. [perform_palette] merges.  When every colour that is given is a
    valid hex colour, the palette that is broadcast and mirrored takes the
    given colours from their hex texts and every colour that is absent or
    empty from the mirrored palette; a session that connects afterwards
    is sent that palette.  When one of the given colours is not valid the
    tool answers with an error, and nothing is broadcast or mirrored, the
    valid colours of the same call included. *)
Theorem perform_palette_merges (w : World) (args : PaletteArgs) :
  let current := currentPalette (srv w) in
  let w' := exec (PerformTools.perform_palette args) w in
  (∀ colors, merged_colors args current = inr colors →
     outcome (PerformTools.perform_palette args) w = inr (palette_updated colors)
     ∧ clients (srv w') = deliver (palette_set colors) (clients (srv w))
     ∧ currentPalette (srv w') = colors
     ∧ (∀ p, palette_set p ∈ sendSyncToClient (srv w') ↔ p = colors)
     ∧ (truthy_str (arg_color1 args) = false → color1 colors = color1 current)
     ∧ (truthy_str (arg_color2 args) = false → color2 colors = color2 current)
     ∧ (truthy_str (arg_color3 args) = false → color3 colors = color3 current)
     ∧ (truthy_str (arg_bg args) = false → bg colors = bg current)
     ∧ (∀ hex, arg_color1 args = Some hex → hex ≠ EmptyString →
               hexToRgb hex = inr (color1 colors))
     ∧ (∀ hex, arg_color2 args = Some hex → hex ≠ EmptyString →
               hexToRgb hex = inr (color2 colors))
     ∧ (∀ hex, arg_color3 args = Some hex → hex ≠ EmptyString →
               hexToRgb hex = inr (color3 colors))
     ∧ (∀ hex, arg_bg args = Some hex → hex ≠ EmptyString →
               hexToRgb hex = inr (bg colors)))
  ∧ (∀ hex, hex ≠ EmptyString → ¬ is_hex_color (strip_hash hex) →
       arg_color1 args = Some hex ∨ arg_color2 args = Some hex
       ∨ arg_color3 args = Some hex ∨ arg_bg args = Some hex →
       ∃ message,
         PerformTools.perform_palette args w
         = (inr (palette_failed ("Palette update failed: " +:+ message)), w)).
Proof.
  intros current w'. subst w' current. unfold PerformTools.perform_palette.
  unfold exec, outcome. rewrite !(bind_inr get _ w w w eq_refl).
  unfold getCurrentPalette.
  split.
  - intros colors Hm. rewrite Hm.
    destruct (merged_colors_inv _ _ _ Hm) as (H1 & H2 & H3 & H4).
    split_and!; try done.
    + intros p. rewrite elem_of_sendSyncToClient. split.
      * intros [H|[H|[H|[H|[H|H]]]]]; try discriminate.
        -- apply elem_of_sync_ext in H as (? & ? & _ & _ & _ & ?). discriminate.
        -- apply elem_of_sync_xy in H as (? & ? & ? & _ & _ & _ & ?). discriminate.
        -- apply elem_of_sync_shader in H as (? & ? & _ & _ & _ & _ & ?). discriminate.
        -- by injection H.
      * intros ->. by do 4 right; left.
    + intros H. rewrite color_or_kept in H1 by done. by injection H1.
    + intros H. rewrite color_or_kept in H2 by done. by injection H2.
    + intros H. rewrite color_or_kept in H3 by done. by injection H3.
    + intros H. rewrite color_or_kept in H4 by done. by injection H4.
    + intros hex E Hne. rewrite E, color_or_given in H1 by done. done.
    + intros hex E Hne. rewrite E, color_or_given in H2 by done. done.
    + intros hex E Hne. rewrite E, color_or_given in H3 by done. done.
    + intros hex E Hne. rewrite E, color_or_given in H4 by done. done.
  - intros hex Hne Hbad Hgiven.
    destruct (merged_colors args (currentPalette (srv w))) as [message|colors] eqn:Hm;
      [by eexists|].
    exfalso. destruct (merged_colors_inv _ _ _ Hm) as (H1 & H2 & H3 & H4).
    pose proof (hexToRgb_rejects hex Hbad) as Hinv.
    destruct Hgiven as [E|[E|[E|E]]]; rewrite E, color_or_given in * by done; congruence.
Qed.

Lemma perform_palette_merges_witness :
  color2 (currentPalette
            (srv (exec (PerformTools.perform_palette
                          {| arg_color1 := Some "#FF0000"; arg_color2 := None;
                             arg_color3 := Some EmptyString; arg_bg := Some "000000" |})
                       demo_world)))
  = color2 (currentPalette (srv demo_world))
  ∧ ∃ message,
      PerformTools.perform_palette
        {| arg_color1 := Some "00FF00"; arg_color2 := Some "red";
           arg_color3 := None; arg_bg := None |} demo_world
      = (inr (palette_failed ("Palette update failed: " +:+ message)), demo_world).
Proof.
  destruct (perform_palette_merges demo_world
              {| arg_color1 := Some "#FF0000"; arg_color2 := None;
                 arg_color3 := Some EmptyString; arg_bg := Some "000000" |}) as [Hok _].
  destruct (perform_palette_merges demo_world
              {| arg_color1 := Some "00FF00"; arg_color2 := Some "red";
                 arg_color3 := None; arg_bg := None |}) as [_ Hbad].
  split.
  - destruct (Hok {| color1 := (inject_Z 255 / 255, inject_Z 0 / 255, inject_Z 0 / 255)%Q;
                     color2 := color2 (currentPalette (srv demo_world));
                     color3 := color3 (currentPalette (srv demo_world));
                     bg := (inject_Z 0 / 255, inject_Z 0 / 255, inject_Z 0 / 255)%Q |}
                  eq_refl) as (_ & _ & Hcur & _ & _ & H2 & _).
    rewrite Hcur. apply H2. reflexivity.
  - apply (Hbad "red").
    + discriminate.
    + intros (r1 & r2 & g1 & g2 & b1 & b2 & Hs & _). discriminate.
    + right. left. reflexivity.
Defined.

(** ** OSC: parameters and palette *)

Lemma setting_handler_runs (a : SettingAddress) (args : list number) (w : World) :
  setting_in_scheme a →
  for_each
    (filter (λ h, h.1 = setting_address a) (fixed_handlers broadcastToClients))
    (λ h, h.2 {| address := setting_address a; args := args |}) w
  = (inr tt, emit [setting_decoded a args] w).
Proof.
  destruct a as [i| | |key]; cbn [setting_in_scheme]; intros Hi.
  - destruct i as [|i]; [lia|].
    do 4 (destruct i as [|i]; [by vm_compute|]). lia.
  - by vm_compute.
  - by vm_compute.
  - destruct key; by vm_compute.
Qed.

(** X24. An OSC message on a parameter, intensity, speed or palette
    address of the fixed scheme is broadcast as one command (followed by
    the commands of the custom mappings for that address): the first
    argument as the value, 0 for a parameter and 1 for intensity and speed
    when it is missing.  A palette message carries the three arguments as
    the colour of its key and black for the three other colours, whatever
    the mirrored palette is.  Nothing is mirrored: a session that connects
    afterwards is sent the palette as it was. *)
Theorem osc_settings_are_broadcast_only
    (w : World) (a : SettingAddress) (vals : list number) :
  setting_in_scheme a →
  let message := {| address := setting_address a; args := vals |} in
  let w' := exec (osc_receive message) w in
  outcome (osc_receive message) w = inr tt
  ∧ clients (srv w') =
      broadcast_all (setting_decoded a vals :: custom_messages message (customMappings w))
                    (clients (srv w))
  ∧ mirror w' = mirror w
  ∧ sendSyncToClient (srv w') = sendSyncToClient (srv w)
  ∧ ∀ key, a = addr_palette key →
      ∃ colors, setting_decoded a vals = palette_set colors
        ∧ (key ≠ key_color1 → color1 colors = zero3)
        ∧ (key ≠ key_color2 → color2 colors = zero3)
        ∧ (key ≠ key_color3 → color3 colors = zero3)
        ∧ (key ≠ key_bg → bg colors = zero3).
Proof.
  intros Ha message w'. subst w' message.
  unfold exec, outcome, osc_receive, startOscBridge.
  erewrite bind_inr by (by apply setting_handler_runs).
  unfold wildcard_handler. rewrite (bind_inr get _ _ _ _ eq_refl).
  rewrite custom_loop_world. cbn [fst snd].
  split_and!; try done.
  intros key ->. eexists. split; [done|]. by destruct key.
Qed.

Lemma osc_settings_are_broadcast_only_witness :
  sent_to 1 (exec (osc_receive {| address := "/shade/palette/color2"; args := [1; 1 # 2] |}%Q)
                  demo_world)
  = [palette_set {| color1 := zero3; color2 := (1, 1 # 2, 0)%Q; color3 := zero3;
                    bg := zero3 |}].
Proof.
  destruct (osc_settings_are_broadcast_only demo_world (addr_palette key_color2)
              [1; 1 # 2]%Q I) as (_ & Hcl & _).
  unfold sent_to. cbv zeta in Hcl.
  change (setting_address (addr_palette key_color2)) with "/shade/palette/color2" in Hcl.
  rewrite Hcl. reflexivity.
Defined.

(** ** What playback never writes *)

Section Frame.

Variable w0 : World.

Ltac frame :=
  repeat match goal with
  | |- hoare _ (let _ := _ in _) _ => cbv zeta
  | |- hoare _ (mret _) _ => apply hoare_ret
  | |- hoare _ (throw _) _ => apply hoare_throw
  | |- hoare _ (modify _) _ => apply hoare_modify; intros ? HH; exact HH
  | |- hoare _ get _ => apply hoare_get
  | |- hoare _ (chapter_at _ _) _ => apply hoare_chapter_at
  | |- hoare _ (for_each _ _) _ => apply hoare_for_each; intros ? _
  | |- hoare _ (_ ≫= _) _ => apply hoare_inv; [|intros ?]
  | |- hoare _ (match ?x with _ => _ end) _ => destruct x
  | |- hoare _ _ _ =>
      progress unfold broadcastToClients, setSetlistPlayback, setCurrentShaderId,
        setAudioBindings, setTimeout, clearTimeout, Date_now, getPreset, getSetlist,
        deleteSetlist, clearPlayback, push_shader, pushChapter, scheduleNextChapter,
        advance_callback, run_callback
  end.

Lemma kept_collect_missing (cs : list SetlistChapter) (missing : list string) :
  hoare (kept w0) (collect_missing cs missing) (kept w0).
Proof.
  revert missing. induction cs as [|c cs IH]; intros missing; cbn [collect_missing].
  - apply hoare_ret.
  - apply hoare_inv; [frame|]. intros preset. apply IH.
Qed.

Lemma kept_handle (e : Event) : hoare (kept w0) (handle e) (kept w0).
Proof.
  destruct e as [cid|cid|message|bargs|btarget|name| | |jargs|name|h]; cbn [handle].
  - unfold on_connection. frame.
  - unfold on_close. frame.
  - apply hoare_osc_receive. by intros w ms H.
  - unfold AudioTools.audio_bind. frame.
  - unfold AudioTools.audio_unbind. frame.
  - unfold SetlistTools.setlist_load. apply hoare_inv; [|intros _; apply hoare_ret].
    apply hoare_inv; [frame|]. intros [setlist|]; [|frame].
    apply hoare_inv; [apply kept_collect_missing|]. intros missing. frame.
  - unfold SetlistTools.setlist_play. frame.
  - unfold SetlistTools.setlist_pause. frame.
  - unfold SetlistTools.setlist_jump. frame.
  - unfold SetlistTools.setlist_delete. frame.
  - unfold fire. frame.
Qed.

Lemma kept_step (w : World) (te : number * Event) : kept w0 w → kept w0 (step w te).
Proof.
  intros H. unfold step. apply (hoare_inv (kept w0) (at_time te.1)); [|intros _; apply kept_handle|done].
  unfold at_time. frame.
Qed.

Lemma kept_run (es : list (number * Event)) (w : World) : kept w0 w → kept w0 (run w es).
Proof.
  revert w. induction es as [|te es IH]; intros w H; [done|].
  cbn. apply IH. by apply kept_step.
Qed.

End Frame.

Lemma sync_ext_eq (s s' : Server) : extChannels s = extChannels s' → sync_ext s = sync_ext s'.
Proof. intros H. unfold sync_ext. by rewrite H. Qed.

Lemma sync_xy_eq (s s' : Server) : extXY s = extXY s' → sync_xy s = sync_xy s'.
Proof. intros H. unfold sync_xy. by rewrite H. Qed.

(** X25. What connections, closes, OSC messages, [audio_bind],
    [audio_unbind], [setlist_load], [setlist_play], [setlist_pause],
    [setlist_jump], [setlist_delete] and the timers never write: along any
    sequence of such events the mirrored ext channels, XY pairs, bpm, palette and shader code, the
    last runtime state, the presets and the custom OSC mappings stay as
    they were.  A session that connects afterwards is therefore sent the
    same commands as it would have been sent before, the [shader_push]
    apart, and a [shader_push] it is sent carries the shader code that was
    mirrored before: the palette and the shader of a chapter that has been
    emitted are not what a late session receives. *)
Theorem playback_never_writes_the_mirror (w : World) (es : list (number * Event)) :
  let w' := run w es in
  input_mirror w' = input_mirror w
  ∧ (∀ m, (∀ c i, m ≠ shader_push c i) →
          m ∈ sendSyncToClient (srv w') ↔ m ∈ sendSyncToClient (srv w))
  ∧ (∀ c i, shader_push c i ∈ sendSyncToClient (srv w') →
            currentShaderCode (srv w) = Some c).
Proof.
  intros w'. subst w'.
  assert (input_mirror (run w es) = input_mirror w) as Hkept by (by apply (kept_run w)).
  split; [done|].
  unfold input_mirror in Hkept.
  injection Hkept as Hext Hxy Hbpm Hcode Hpal _ _ _.
  split.
  - intros m Hm. rewrite !elem_of_sendSyncToClient.
    rewrite (sync_ext_eq _ _ Hext), (sync_xy_eq _ _ Hxy), Hbpm, Hpal.
    rewrite !elem_of_sync_shader.
    split; (intros [H|[H|[H|[H|[H|H]]]]]; [by left|by right; left|by right; right; left|
            |by do 4 right; left|by do 5 right]);
      destruct H as (c & i & _ & _ & _ & _ & ->); by destruct (Hm c i).
  - intros c i. rewrite elem_of_sendSyncToClient. intros [H|[H|[H|[H|[H|H]]]]];
      try discriminate.
    + apply elem_of_sync_ext in H as (? & ? & _ & _ & _ & ?). discriminate.
    + apply elem_of_sync_xy in H as (? & ? & ? & _ & _ & _ & ?). discriminate.
    + apply elem_of_sync_shader in H as (c' & i' & Hc & _ & _ & _ & E).
      injection E as -> ->. by rewrite <-Hcode.
Qed.

Lemma playback_never_writes_the_mirror_witness :
  palette_set (currentPalette (srv playing_world))
  ∈ sendSyncToClient
      (srv (run playing_world
                [(1002000%Q, ev_timer 1);
                 (1002500%Q,
                  ev_jump {| arg_index := Some 2; arg_name := None; arg_time := None |})])).
Proof.
  destruct (playback_never_writes_the_mirror playing_world
              [(1002000%Q, ev_timer 1);
               (1002500%Q,
                ev_jump {| arg_index := Some 2; arg_name := None; arg_time := None |})])
    as (_ & H & _).
  apply H; [intros c i; discriminate|].
  apply elem_of_sendSyncToClient. do 4 right. left. reflexivity.
Defined.

(** X26. What the emission of a chapter leaves behind.  The audio
    bindings and the palette of the chapter are broadcast, but neither the
    binding registry nor the mirrored bindings and palette record them: an
    [audio_unbind] for the target of a chapter binding answers that there
    is no such binding.  The mirror records the id of the chapter's
    shader but not its code, so a session that connects afterwards is
    sent, under that id, the code that was mirrored before, or no shader
    at all when none was. *)
Theorem chapter_settings_are_not_mirrored
    (w : World) (ch : SetlistChapter) (index total : nat) (preset : ShaderPreset) :
  presetsDir w !! safeName (shader ch) = Some preset →
  let w' := exec (pushChapter ch index total) w in
  clients (srv w') =
    broadcast_all (chapter_messages ch preset index total) (clients (srv w))
  ∧ (∀ bs b, audio_bindings ch = Some bs → b ∈ bs →
       audio_bind b ∈ chapter_messages ch preset index total)
  ∧ (∀ p, palette ch = Some p →
       palette_set {| color1 := color1 p; color2 := color2 p; color3 := color3 p;
                      bg := bg p |}
       ∈ chapter_messages ch preset index total)
  ∧ activeBindings w' = activeBindings w
  ∧ audioBindings (srv w') = audioBindings (srv w)
  ∧ currentPalette (srv w') = currentPalette (srv w)
  ∧ (∀ t, t ∉ target <$> activeBindings w →
       AudioTools.audio_unbind t w' =
         (inr (mcpError ("No binding found for target " +:+ dquote +:+ t +:+ dquote)), w'))
  ∧ sync_shader (srv w') =
      match currentShaderCode (srv w) with
      | Some c =>
          if truthy_str (Some c) && truthy_str (Some (id preset))
          then [shader_push c (id preset)] else []
      | None => []
      end.
Proof.
  intros Hp w'. subst w'. unfold exec.
  assert (pushChapter ch index total w = (inr tt, pushed ch index total w)) as ->
    by apply pushChapter_world.
  cbn [snd].
  assert (activeBindings (pushed ch index total w) = activeBindings w) as Hreg.
  { unfold pushed. rewrite Hp. done. }
  split_and!.
  - rewrite pushed_clients. unfold emission. by rewrite Hp.
  - intros bs b Hbs Hb. unfold chapter_messages, settings_messages.
    rewrite Hbs. rewrite !elem_of_app. right. right. right. left.
    by apply list_elem_of_fmap_2.
  - intros p Hpal. unfold chapter_messages, settings_messages.
    rewrite Hpal. rewrite !elem_of_app. right. right. left. by left.
  - done.
  - unfold pushed. by rewrite Hp.
  - unfold pushed. by rewrite Hp.
  - intros t Ht. unfold AudioTools.audio_unbind.
    rewrite (bind_inr get _ _ _ _ eq_refl). rewrite Hreg.
    destruct (findIndex _ (activeBindings w)) as [i|] eqn:Ei; [|done].
    exfalso. apply findIndex_Some in Ei as [(b & Hb & Hpb) _].
    apply Ht. apply String.eqb_eq in Hpb as <-.
    apply list_elem_of_fmap_2. by eapply list_elem_of_lookup_2.
  - unfold pushed. rewrite Hp. unfold sync_shader. cbn.
    by destruct (currentShaderCode (srv w)).
Qed.

Lemma chapter_settings_are_not_mirrored_witness :
  sync_shader (srv (exec (pushChapter (demo_chapter "Chapter 1" "plasma" 0 2) 0 3)
                         demo_world)) = []
  ∧ currentShaderId (srv (exec (pushChapter (demo_chapter "Chapter 1" "plasma" 0 2) 0 3)
                               demo_world)) = Some "preset-1".
Proof.
  destruct (chapter_settings_are_not_mirrored demo_world
              (demo_chapter "Chapter 1" "plasma" 0 2) 0 3 plasma eq_refl)
    as (_ & _ & _ & _ & _ & _ & _ & Hsync).
  split; [exact Hsync|reflexivity].
Defined.

(** ** The batch route *)

Section BatchProofs.

Variable parseInt : string → option Z.

Lemma batch_entry_applied (entry : string * BatchValue) (w : World) :
  applies parseInt entry = true →
  ∃ w', batch_entry parseInt entry.1 entry.2 w = (inr batch_ok, w')
        ∧ clients (srv w') = broadcast_all (batch_message parseInt entry) (clients (srv w))
        ∧ sched w' = sched w ∧ loop w' = loop w.
Proof.
  destruct entry as [key val]. unfold applies, batch_entry, batch_message, try_catch.
  cbn [fst snd].
  destruct (xy_match key) as [ch|].
  - destruct val as [v|x y|]; try done. intros Hr.
    apply andb_true_iff in Hr as [H0%Z.leb_le H3%Z.leb_le].
    unfold setExternalXY.
    assert ((ch <? 0) || (ch >? 3) = false) as ->
      by (apply orb_false_iff; split; lia).
    eexists. split; [reflexivity|]. done.
  - destruct val as [v|x y|]; try done.
    destruct (parseInt key) as [ch|]; [|done]. intros Hr.
    apply andb_true_iff in Hr as [H0%Z.leb_le H3%Z.leb_le].
    unfold setExternalInput.
    assert ((ch <? 0) || (ch >? 15) = false) as ->
      by (apply orb_false_iff; split; lia).
    eexists. split; [reflexivity|]. done.
Qed.

Lemma batch_entry_rejected (entry : string * BatchValue) (w : World) :
  applies parseInt entry = false →
  ∃ r, batch_entry parseInt entry.1 entry.2 w = (inr r, w) ∧ r ≠ batch_ok.
Proof.
  destruct entry as [key val]. unfold applies, batch_entry, try_catch. cbn [fst snd].
  destruct (xy_match key) as [ch|].
  - destruct val as [v|x y|]; try (by eexists). intros Hr.
    unfold setExternalXY.
    assert ((ch <? 0) || (ch >? 3) = true) as ->.
    { apply andb_false_iff in Hr as [H%Z.leb_gt|H%Z.leb_gt]; apply orb_true_iff;
        [left|right]; lia. }
    by eexists.
  - destruct val as [v|x y|]; try (destruct (parseInt key); by eexists).
    destruct (parseInt key) as [ch|]; [|by eexists]. intros Hr.
    unfold setExternalInput.
    assert ((ch <? 0) || (ch >? 15) = true) as ->.
    { apply andb_false_iff in Hr as [H%Z.leb_gt|H%Z.leb_gt]; apply orb_true_iff;
        [left|right]; lia. }
    by eexists.
Qed.

Lemma batch_loop_runs (entries : list (string * BatchValue)) (w : World) :
  ∃ rs w',
    batch_loop parseInt entries w = (inr rs, w')
    ∧ rs.*1 = entries.*1
    ∧ Forall2 (λ entry kr, kr.2 = batch_ok ↔ applies parseInt entry = true) entries rs
    ∧ w' = exec (batch_loop parseInt (filter (λ e, applies parseInt e = true) entries)) w
    ∧ clients (srv w') =
        broadcast_all
          (filter (λ e, applies parseInt e = true) entries ≫= batch_message parseInt)
          (clients (srv w)).
Proof.
  revert w. induction entries as [|entry rest IH]; intros w.
  - exists [], w. by split_and!.
  - cbn [batch_loop]. rewrite filter_cons.
    destruct (applies parseInt entry) eqn:Ea.
    + destruct (batch_entry_applied entry w Ea) as (w1 & Hw1 & Hc1 & _).
      destruct (IH w1) as (rs & w' & Hrun & Hkeys & Hok & Hsame & Hcl).
      exists ((entry.1, batch_ok) :: rs), w'.
      rewrite decide_True by done.
      split_and!.
      * erewrite bind_inr by exact Hw1. by erewrite bind_inr by exact Hrun.
      * cbn. by f_equal.
      * by constructor.
      * rewrite Hsame. unfold exec. cbn [batch_loop].
        erewrite (bind_inr _ _ w) by exact Hw1.
        destruct (batch_loop parseInt (filter _ rest) w1) as [[e|rs'] w2] eqn:E.
        -- unfold mbind, Eff_bind, bind. by rewrite E.
        -- by erewrite bind_inr by exact E.
      * rewrite Hcl, Hc1. cbn [mbind list_bind]. by rewrite broadcast_all_app.
    + destruct (batch_entry_rejected entry w Ea) as (r & Hr & Hne).
      destruct (IH w) as (rs & w' & Hrun & Hkeys & Hok & Hsame & Hcl).
      exists ((entry.1, r) :: rs), w'.
      rewrite decide_False by done.
      split_and!; try done.
      * erewrite bind_inr by exact Hr. by erewrite bind_inr by exact Hrun.
      * cbn. by f_equal.
      * constructor; [|done]. cbn. rewrite Ea. by split.
Qed.

End BatchProofs.

(** X27. The batch route of the REST API applies its entries one by one.
    It never fails as a whole: every key gets a result, in the order of
    the entries.  An entry is answered ['ok'] exactly when its key and its
    value fit (an [xy_n] key with a pair, a numeric key with a number) and
    its channel is in range, and then its value is stored and broadcast.
    An entry that is rejected is skipped without a trace and does not keep
    the later entries from being applied: the outcome is that of the batch
    of the applied entries alone. *)
Theorem batch_applies_entry_by_entry
    (parseInt : string → option Z) (entries : list (string * BatchValue)) (w : World) :
  let w' := exec (post_input_batch parseInt (Some entries)) w in
  ∃ rs,
    outcome (post_input_batch parseInt (Some entries)) w = inr (inr rs)
    ∧ rs.*1 = entries.*1
    ∧ Forall2 (λ entry kr, kr.2 = batch_ok ↔ applies parseInt entry = true) entries rs
    ∧ w' = exec (post_input_batch parseInt
                   (Some (filter (λ e, applies parseInt e = true) entries))) w
    ∧ clients (srv w') =
        broadcast_all
          (filter (λ e, applies parseInt e = true) entries ≫= batch_message parseInt)
          (clients (srv w)).
Proof.
  intros w'. subst w'.
  destruct (batch_loop_runs parseInt entries w) as (rs & w1 & Hrun & Hkeys & Hok & Hsame & Hc).
  destruct (batch_loop_runs parseInt (filter (λ e, applies parseInt e = true) entries) w)
    as (rs2 & w2 & Hrun2 & _).
  exists rs. unfold exec, outcome, post_input_batch.
  erewrite !bind_inr by (exact Hrun || exact Hrun2). cbn [fst snd].
  split_and!; try done.
  rewrite Hsame. unfold exec. by rewrite Hrun2.
Qed.

(** ** The detached timer of a flash transition *)

Section Detached.

Variable d : Timer.

Lemma detached_clearTimeout (h : nat) :
  h ≠ tm_id d → hoare (detached d) (clearTimeout h) (detached d).
Proof.
  intros Hh w (Hin & Hlt & Hslot & Huniq). unfold detached, clearTimeout. eff.
  split_and!; try done.
  - apply list_elem_of_filter. split; [|done]. cbn. congruence.
  - intros t [_ Ht]%list_elem_of_filter. by apply Huniq.
Qed.

Lemma detached_clearPlayback : hoare (detached d) clearPlayback (detached d).
Proof.
  intros w (Hin & Hlt & Hslot & Huniq). unfold exec. rewrite clearPlayback_world.
  cbn [snd]. unfold detached, cancel_playback. cbn.
  destruct (playbackTimer (sched w)) as [h|] eqn:Hh; cbn; split_and!; try done.
  - apply list_elem_of_filter. split; [|done]. cbn. congruence.
  - intros t [_ Ht]%list_elem_of_filter. by apply Huniq.
Qed.

Lemma detached_arm (f : Scheduler → Scheduler) (callback : TimerBody) (delay : number)
    (w : World) :
  playbackTimer (f (sched w)) ≠ Some (tm_id d) →
  detached d w → detached d (with_sched f (arm callback delay w)).
Proof.
  intros Hf (Hin & Hlt & Hslot & Huniq). unfold detached. cbn. split_and!.
  - apply elem_of_app. by left.
  - by apply Nat.lt_lt_succ_r.
  - done.
  - intros t [Ht|Ht%list_elem_of_singleton]%elem_of_app E; [by apply Huniq|].
    subst t. cbn in E. rewrite <-E in Hlt. by apply Nat.lt_irrefl in Hlt.
Qed.

Lemma detached_setTimeout (callback : TimerBody) (delay : number) :
  hoare (detached d) (setTimeout callback delay) (detached d).
Proof.
  intros w H. unfold exec. rewrite setTimeout_world. cbn [snd].
  apply (detached_arm (λ s, s) callback delay w); [|done]. by destruct H as (_ & _ & ? & _).
Qed.

Lemma detached_scheduleNextChapter : hoare (detached d) scheduleNextChapter (detached d).
Proof.
  intros w H. unfold exec.
  destruct (activeSetlist (sched w)) as [sl|] eqn:Hsl;
    [|by rewrite scheduleNextChapter_idle by (by left)].
  destruct (isPaused (sched w)) eqn:Hp;
    [by rewrite scheduleNextChapter_idle by (by right)|].
  destruct (Nat.leb_spec (length (chapters sl)) (currentChapterIndex (sched w) + 1))
    as [Hlast|Hnext].
  - by rewrite (scheduleNextChapter_ends w sl) by done.
  - destruct (lookup_lt_is_Some_2 (chapters sl) (currentChapterIndex (sched w)))
      as [ch Hch].
    { eapply Nat.lt_trans; [|exact Hnext]. rewrite Nat.add_1_r. apply Nat.lt_succ_diag_r. }
    rewrite (scheduleNextChapter_arms w sl ch) by done. cbn [snd].
    apply detached_arm; [|done]. cbn. destruct H as (_ & Hlt & _).
    intros [= E]. rewrite E in Hlt. by apply Nat.lt_irrefl in Hlt.
Qed.

Ltac walk :=
  repeat match goal with
  | |- hoare _ (let _ := _ in _) _ => cbv zeta
  | |- hoare _ (mret _) _ => apply hoare_ret
  | |- hoare _ (throw _) _ => apply hoare_throw
  | |- hoare _ clearPlayback _ => apply detached_clearPlayback
  | |- hoare _ scheduleNextChapter _ => apply detached_scheduleNextChapter
  | |- hoare _ (setTimeout _ _) _ => apply detached_setTimeout
  | |- hoare _ (modify _) _ => apply hoare_modify; intros ? HH; exact HH
  | |- hoare _ get _ => apply hoare_get
  | |- hoare _ (chapter_at _ _) _ => apply hoare_chapter_at
  | |- hoare _ (for_each _ _) _ => apply hoare_for_each; intros ? _
  | |- hoare _ (_ ≫= _) _ => apply hoare_inv; [|intros ?]
  | |- hoare _ (match ?x with _ => _ end) _ => destruct x
  | |- hoare _ _ _ =>
      progress unfold broadcastToClients, setSetlistPlayback, setCurrentShaderId,
        setAudioBindings, Date_now, getPreset, getSetlist,
        deleteSetlist, push_shader, pushChapter, advance_callback
  end.

Lemma detached_collect_missing (cs : list SetlistChapter) (missing : list string) :
  hoare (detached d) (collect_missing cs missing) (detached d).
Proof.
  revert missing. induction cs as [|c cs IH]; intros missing; cbn [collect_missing].
  - apply hoare_ret.
  - apply hoare_inv; [walk|]. intros preset. apply IH.
Qed.

Lemma detached_handle (e : Event) :
  e ≠ ev_timer (tm_id d) → hoare (detached d) (handle e) (detached d).
Proof.
  destruct e as [cid|cid|message|bargs|btarget|name| | |jargs|name|h]; cbn [handle];
    intros He.
  - unfold on_connection. walk.
  - unfold on_close. walk.
  - apply hoare_osc_receive. by intros w ms H.
  - unfold AudioTools.audio_bind. walk.
  - unfold AudioTools.audio_unbind. walk.
  - unfold SetlistTools.setlist_load. apply hoare_inv; [|intros _; apply hoare_ret].
    apply hoare_inv; [walk|]. intros [setlist|]; [|walk].
    apply hoare_inv; [apply detached_collect_missing|]. intros missing. walk.
  - unfold SetlistTools.setlist_play. walk.
  - unfold SetlistTools.setlist_pause. walk.
  - unfold SetlistTools.setlist_jump. walk.
  - unfold SetlistTools.setlist_delete. walk.
  - assert (h ≠ tm_id d) as Hh by congruence.
    unfold fire. apply hoare_inv; [apply hoare_get|]. intros w.
    destruct (filter _ _) as [|t ts]; [apply hoare_ret|].
    destruct (num_le _ _); [|apply hoare_ret].
    apply hoare_inv; [by apply detached_clearTimeout|]. intros _.
    unfold run_callback. walk.
Qed.

Lemma detached_run (es : list (number * Event)) (w : World) :
  Forall (λ te, te.2 ≠ ev_timer (tm_id d)) es → detached d w → detached d (run w es).
Proof.
  revert w. induction es as [|te es IH]; intros w Hes H; [done|].
  apply Forall_cons in Hes as [Hte Hes]. cbn. apply IH; [done|].
  unfold step. apply (hoare_inv (detached d) (at_time te.1));
    [|intros _; by apply detached_handle|done].
  unfold at_time. walk.
Qed.

Lemma detached_fires (w : World) (now : number) (code0 id0 : string) :
  detached d w →
  tm_body d = delayed_push code0 id0 →
  (tm_due d <= now)%Q →
  step w (now, ev_timer (tm_id d))
  = emit [shader_push code0 id0] (exec (clearTimeout (tm_id d)) (exec (at_time now) w)).
Proof.
  intros (Hin & _ & _ & Huniq) Hbody Hdue. unfold step, handle. cbn [fst snd].
  unfold exec at 1. rewrite exec_at_time.
  set (wt := exec (at_time now) w).
  destruct (filter (λ t, tm_id t = tm_id d) (pending (loop wt))) as [|t rest] eqn:Hf.
  { exfalso. assert (d ∈ filter (λ t, tm_id t = tm_id d) (pending (loop wt))) as Hd
      by (by apply list_elem_of_filter). rewrite Hf in Hd. by apply elem_of_nil in Hd. }
  destruct (filter_id_elem _ _ _ _ Hf) as [Ht Hid].
  assert (t = d) as -> by (by apply Huniq).
  rewrite (fire_world _ wt d rest Hf) by (by apply num_le_spec).
  by rewrite Hbody.
Qed.

End Detached.

(** X28. The delayed push of a flash transition is on a timer of its own.
    A chapter that enters with a flash arms that timer for half the
    transition time; no connection, OSC message, call of the binding and
    setlist tools or other timer cancels it (pause, jump, load and delete
    cancel the chapter timer only), so that when it is due it broadcasts the [shader_push] of the
    chapter it came from, whatever has been emitted in between, and leaves
    the mirrored shader id as it then is. *)
Theorem flash_push_is_not_cancelled
    (w : World) (ch : SetlistChapter) (index total : nat) (preset : ShaderPreset)
    (es : list (number * Event)) :
  presetsDir w !! safeName (shader ch) = Some preset →
  transition_in ch = flash →
  handles_fresh w →
  let d := flash_push ch preset w in
  let w1 := exec (pushChapter ch index total) w in
  Forall (λ te, te.2 ≠ ev_timer (tm_id d)) es →
  let w2 := run w1 es in
  pending (loop w1) = pending (loop w) ++ [d]
  ∧ d ∈ pending (loop w2)
  ∧ ∀ now, (tm_due d <= now)%Q →
      let w3 := step w2 (now, ev_timer (tm_id d)) in
      clients (srv w3) =
        deliver (shader_push (code preset) (id preset)) (clients (srv w2))
      ∧ currentShaderId (srv w3) = currentShaderId (srv w2)
      ∧ d ∉ pending (loop w3).
Proof.
  intros Hp Hflash [Hfresh Hslot] d w1 Hes w2.
  assert (pending (loop w1) = pending (loop w) ++ [d]) as Hpend.
  { subst w1. unfold exec. rewrite (pushChapter_resolved _ _ _ _ preset Hp).
    cbn. by rewrite Hflash. }
  assert (playbackTimer (sched w1) = playbackTimer (sched w)
          ∧ nextTimerId (loop w1) = S (nextTimerId (loop w))) as [Hs1 Hn1].
  { subst w1. unfold exec. rewrite (pushChapter_resolved _ _ _ _ preset Hp).
    cbn. by rewrite Hflash. }
  assert (detached d w1) as Hd1.
  { unfold detached. rewrite Hpend, Hs1, Hn1. split_and!.
    - apply elem_of_app. right. by left.
    - apply Nat.lt_succ_diag_r.
    - intros E. apply Hslot in E. by apply Nat.lt_irrefl in E.
    - intros t [Ht|Ht%list_elem_of_singleton]%elem_of_app E; [|done].
      apply Hfresh in Ht. rewrite E in Ht. by apply Nat.lt_irrefl in Ht. }
  assert (detached d w2) as Hd2 by (by apply detached_run).
  split_and!; [done|by destruct Hd2|].
  intros now Hdue w3. subst w3.
  rewrite (detached_fires d w2 now (code preset) (id preset)) by done.
  split_and!; try done.
  cbn. intros [Hne _]%list_elem_of_filter. by apply Hne.
Qed.

Lemma flash_push_is_not_cancelled_witness :
  flash_push flash_chapter plasma loaded_world
  ∈ pending (loop (run (exec (pushChapter flash_chapter 0 1) loaded_world)
                       [((t0 + 100)%Q, ev_play); ((t0 + 200)%Q, ev_pause)])).
Proof.
  assert (pending (loop loaded_world) = []) as Hp by exact eq_refl.
  assert (playbackTimer (sched loaded_world) = None) as Hs by exact eq_refl.
  destruct (flash_push_is_not_cancelled loaded_world flash_chapter 0 1 plasma
              [((t0 + 100)%Q, ev_play); ((t0 + 200)%Q, ev_pause)] eq_refl eq_refl)
    as (_ & Hin & _).
  - split.
    + intros t Ht. rewrite Hp in Ht. by apply elem_of_nil in Ht.
    + intros h Hh. rewrite Hs in Hh. discriminate.
  - repeat (constructor; [discriminate|]). constructor.
  - exact Hin.
Defined.

(** ** The OSC listener *)

Lemma one_listener_stop (b : Bridge.OscState) :
  Bridge.one_listener b →
  Bridge.oscInstance (Bridge.stopOscBridge b) = None
  ∧ Bridge.currentPort (Bridge.stopOscBridge b) = None
  ∧ Bridge.listening (Bridge.stopOscBridge b) = []
  ∧ Bridge.created (Bridge.stopOscBridge b) = Bridge.created b.
Proof.
  unfold Bridge.one_listener, Bridge.stopOscBridge.
  destruct (Bridge.oscInstance b) as [i|] eqn:Hi.
  - intros (port & Hp & Hl & _). cbn. rewrite Hl. cbn.
    by rewrite decide_False by (intros H; by apply H).
  - intros [Hp Hl]. by rewrite Hi.
Qed.

Lemma one_listener_start (port : Z) (b : Bridge.OscState) :
  Bridge.one_listener b → Bridge.one_listener (Bridge.startOscBridge port b).
Proof.
  intros H. unfold Bridge.startOscBridge, Bridge.one_listener. cbn.
  exists port. split; [done|].
  destruct (Bridge.oscInstance b) as [i|] eqn:Hi.
  - destruct (one_listener_stop b H) as (_ & _ & -> & ->). split; [done|lia].
  - unfold Bridge.one_listener in H. rewrite Hi in H. destruct H as [_ ->].
    split; [done|lia].
Qed.

Lemma one_listener_step (b : Bridge.OscState) (op : Bridge.BridgeOp) :
  Bridge.one_listener b → Bridge.one_listener (Bridge.bridge_step b op).
Proof.
  intros H. destruct op as [port| |[port|]]; cbn [Bridge.bridge_step Bridge.reconfigured].
  - by apply one_listener_start.
  - destruct (one_listener_stop b H) as (H1 & H2 & H3 & _).
    unfold Bridge.one_listener. by rewrite H1.
  - destruct (port =? 0); [done|]. apply one_listener_start.
    destruct (one_listener_stop b H) as (H1 & H2 & H3 & _).
    unfold Bridge.one_listener. by rewrite H1.
  - done.
Qed.

(** X29. The OSC listener.  However the listener is started, stopped and
    reconfigured, at most one UDP socket is open: the one of the instance
    that the bridge holds, on the port that [getOscPort] reports; after a
    stop none is open and no port is reported.  [input_osc_config]
    restarts the listener on a port that is given and is not 0, and leaves
    it as it is when the port is absent or 0; its reply reports the port
    after that, and the mappings with the one it was given last. *)
Theorem osc_listener_is_single (ops : list Bridge.BridgeOp) :
  let b := Bridge.bridge_run Bridge.initial ops in
  Bridge.one_listener b
  ∧ Bridge.listening (Bridge.stopOscBridge b) = []
  ∧ Bridge.getOscPort (Bridge.stopOscBridge b) = None
  ∧ (∀ port, Bridge.getOscPort (Bridge.startOscBridge port b) = Some port
             ∧ snd <$> Bridge.listening (Bridge.startOscBridge port b) = [port])
  ∧ (∀ port, port ≠ 0 →
             Bridge.reconfigured (Some port) b
             = Bridge.startOscBridge port (Bridge.stopOscBridge b))
  ∧ Bridge.reconfigured (Some 0) b = b
  ∧ Bridge.reconfigured None b = b
  ∧ ∀ w port a t,
      outcome (Bridge.input_osc_config port (Some (a, t)) b) w
      = inr (Bridge.reconfigured port b,
             (Bridge.getOscPort (Bridge.reconfigured port b),
              filter (λ m, cm_address m ≠ a) (customMappings w)
                ++ [{| cm_address := a; cm_target := t |}])).
Proof.
  intros b.
  assert (Bridge.one_listener b) as H.
  { subst b. unfold Bridge.bridge_run.
    assert (Bridge.one_listener Bridge.initial) as H0 by done.
    revert H0. generalize Bridge.initial.
    induction ops as [|op ops IH]; intros b0 H0; [done|].
    cbn. apply IH. by apply one_listener_step. }
  destruct (one_listener_stop b H) as (_ & H2 & H3 & _).
  split_and!; try done.
  - intros port. split; [done|].
    pose proof (one_listener_start port b H) as Hs.
    unfold Bridge.one_listener in Hs. cbn in Hs.
    destruct Hs as (p & [= <-] & Hl & _).
    change (Bridge.listening (Bridge.startOscBridge port b))
      with (Bridge.listening
              match Bridge.oscInstance b with
              | Some _ => Bridge.stopOscBridge b
              | None => b
              end ++ [(Bridge.created
                         match Bridge.oscInstance b with
                         | Some _ => Bridge.stopOscBridge b
                         | None => b
                         end, port)]).
    by rewrite Hl.
  - intros port Hp. cbn. by rewrite (proj2 (Z.eqb_neq port 0) Hp).
Qed.

Lemma osc_listener_is_single_witness :
  Bridge.reconfigured (Some 9001) (Bridge.bridge_run Bridge.initial [Bridge.op_start 9000])
  = Bridge.startOscBridge 9001
      (Bridge.stopOscBridge (Bridge.bridge_run Bridge.initial [Bridge.op_start 9000])).
Proof.
  destruct (osc_listener_is_single [Bridge.op_start 9000]) as (_ & _ & _ & _ & H & _).
  apply H. discriminate.
Defined.

(** ** Setlist status *)


